(** * rendergit: file classification and history-based ordering

    A shallow embedding of the classification and ordering core of
    [rendergit.mjs]: [looksBinary], [decideFile],
    [gatherOldestCommitTimes], [computeDirectoryAge], [collectFilesByAge],
    [orderInfosByOldest] and the part of [buildHtml] that computes the
    final [rendered] order.

    Paths and process output are modelled as [string] (sequences of 8-bit
    characters; case mapping is the ASCII one).  JavaScript numbers that
    the program handles are commit timestamps and the value [Infinity];
    they are modelled by [num], whose finite values are integers. *)

From Stdlib Require Import ZArith Lia List Ascii String Bool Permutation Sorted.
From stdpp Require Import base gmap strings.
Import ListNotations.

Local Open Scope string_scope.
Local Open Scope Z_scope.

(** ** JavaScript numbers *)

Inductive num : Type :=
| NaN
| NegInf
| Fin (z : Z)
| PosInf.

Definition POSITIVE_INFINITY : num := PosInf.

(** [Number.isFinite]. *)
Definition isFinite (n : num) : bool :=
  match n with Fin _ => true | _ => false end.

(** [a !== b] on numbers: [NaN] differs from everything, itself included. *)
Definition num_neq (a b : num) : bool :=
  match a, b with
  | Fin x, Fin y => negb (x =? y)
  | PosInf, PosInf => false
  | NegInf, NegInf => false
  | _, _ => true
  end.

(** [a - b]. *)
Definition num_sub (a b : num) : num :=
  match a, b with
  | NaN, _ | _, NaN => NaN
  | Fin x, Fin y => Fin (x - y)
  | Fin _, PosInf => NegInf
  | Fin _, NegInf => PosInf
  | PosInf, PosInf => NaN
  | PosInf, _ => PosInf
  | NegInf, NegInf => NaN
  | NegInf, _ => NegInf
  end.

(** [a < b]; false as soon as one side is [NaN]. *)
Definition num_lt (a b : num) : bool :=
  match a, b with
  | NaN, _ | _, NaN => false
  | Fin x, Fin y => x <? y
  | NegInf, NegInf => false
  | NegInf, _ => true
  | _, NegInf => false
  | PosInf, _ => false
  | Fin _, PosInf => true
  end.

(** The sign a comparator result has for [Array.prototype.sort]: a [NaN]
    result counts as [+0]. *)
Definition num_sign (n : num) : comparison :=
  match n with
  | NaN => Eq
  | NegInf => Lt
  | PosInf => Gt
  | Fin z => z ?= 0
  end.

(** ** The host: built-ins of the JavaScript runtime

    [Number] applied to a string, [String.prototype.localeCompare] with
    locale ["en"] and [{sensitivity: "base"}], and whether a fatal UTF-8
    [TextDecoder] accepts a byte sequence.  They are the runtime's, not
    the program's; every statement below holds for any host. *)

Class Host : Type := {
  Number_ : string -> num;
  localeCompare : string -> string -> num;
  decodeUtf8 : list Z -> bool
}.

(** ** Strings *)

Definition slash : ascii := "/"%char.

Definition is_upper (c : ascii) : bool :=
  let n := nat_of_ascii c in (65 <=? n)%nat && (n <=? 90)%nat.

Definition lower_ascii (c : ascii) : ascii :=
  if is_upper c then ascii_of_nat (nat_of_ascii c + 32) else c.

(** [s.toLowerCase()]. *)
Fixpoint toLowerCase (s : string) : string :=
  match s with
  | EmptyString => EmptyString
  | String c s' => String (lower_ascii c) (toLowerCase s')
  end.

(** [s.startsWith(p)]. *)
Fixpoint startsWith (s p : string) {struct p} : bool :=
  match p, s with
  | EmptyString, _ => true
  | String a p', String b s' => Ascii.eqb a b && startsWith s' p'
  | String _ _, EmptyString => false
  end.

(** [s.includes(p)]. *)
Fixpoint includes (s p : string) : bool :=
  startsWith s p ||
  match s with
  | EmptyString => false
  | String _ s' => includes s' p
  end.

(** [s.split(c)] for a one-character separator: never the empty list. *)
Fixpoint split (c : ascii) (s : string) : list string :=
  match s with
  | EmptyString => [EmptyString]
  | String a s' =>
      if Ascii.eqb a c then EmptyString :: split c s'
      else match split c s' with
           | h :: t => String a h :: t
           | [] => [String a EmptyString]
           end
  end.

(** [parts.join(c)]. *)
Fixpoint join (c : ascii) (parts : list string) : string :=
  match parts with
  | [] => EmptyString
  | [p] => p
  | p :: rest => p ++ String c (join c rest)
  end.

(** JavaScript white space within ASCII: TAB, LF, VT, FF, CR, SPACE. *)
Definition is_space (c : ascii) : bool :=
  let n := nat_of_ascii c in
  ((9 <=? n)%nat && (n <=? 13)%nat) || (n =? 32)%nat.

Fixpoint trimStart (s : string) : string :=
  match s with
  | String c s' => if is_space c then trimStart s' else s
  | EmptyString => EmptyString
  end.

Fixpoint trimEnd (s : string) : string :=
  match s with
  | EmptyString => EmptyString
  | String c s' =>
      match trimEnd s' with
      | EmptyString => if is_space c then EmptyString else String c EmptyString
      | t => String c t
      end
  end.

(** [s.trim()]. *)
Definition trim (s : string) : string := trimEnd (trimStart s).

(** [s.split(/\s+/).filter(Boolean)]: the maximal runs of non-space
    characters, in order. *)
Fixpoint tokens_aux (cur : string) (s : string) : list string :=
  match s with
  | EmptyString => match cur with EmptyString => [] | _ => [cur] end
  | String c s' =>
      if is_space c
      then match cur with
           | EmptyString => tokens_aux EmptyString s'
           | _ => cur :: tokens_aux EmptyString s'
           end
      else tokens_aux (cur ++ String c EmptyString) s'
  end.

Definition tokens (s : string) : list string := tokens_aux EmptyString s.

(** [rawLine.replace(/\r$/, "")]: drops one carriage return at the end. *)
Fixpoint stripCR (s : string) : string :=
  match s with
  | EmptyString => EmptyString
  | String c EmptyString =>
      if Ascii.eqb c "013"%char then EmptyString else s
  | String c s' => String c (stripCR s')
  end.

(** ** Classifier *)

Inductive Reason : Type := ok | binary | too_large | ignored.

Record Decision : Type := mkDecision {
  include : bool;
  reason : Reason
}.

(** What [decideFile] returns: [{path, rel, size, decision}]. *)
Record Info : Type := mkInfo {
  path : string;
  rel : string;
  size : Z;
  decision : Decision
}.

(** The file system as the classifier sees it: [fs.stat(p).size], and the
    bytes [fs.open]/[handle.read]/[handle.close] deliver from position 0
    ([None] when one of them throws). *)
Record FileSystem : Type := mkFileSystem {
  stat_size : string -> option Z;
  read_bytes : string -> option (list Z)
}.

(** [path.extname] and [path.relative] of Node's [path] module. *)
Class PathModule : Type := {
  extname : string -> string;
  relative : string -> string -> string
}.

Definition MAX_DEFAULT_BYTES : Z := 50 * 1024.

Definition FORCE_TEXT_EXTENSIONS : list string :=
  [".html"; ".htm"; ".xhtml"; ".shtml"].

Definition BINARY_EXTENSIONS : list string :=
  [".png"; ".jpg"; ".jpeg"; ".gif"; ".webp"; ".bmp"; ".ico"; ".avif"; ".heic"; ".heif";
   ".pdf"; ".zip"; ".tar"; ".gz"; ".bz2"; ".xz"; ".7z"; ".rar";
   ".mp3"; ".mp4"; ".mov"; ".avi"; ".mkv"; ".wav"; ".ogg"; ".flac";
   ".ttf"; ".otf"; ".eot"; ".woff"; ".woff2";
   ".so"; ".dll"; ".dylib"; ".class"; ".jar"; ".exe"; ".bin"].

Definition LARGE_DATA_EXTENSIONS : list string :=
  [".csv"; ".json"; ".pem"].

(** [set.has(x)] for a [Set] of strings. *)
Definition has (set : list string) (x : string) : bool :=
  existsb (String.eqb x) set.

Definition BUFFER_SIZE : nat := Z.to_nat 8192.

Section Classifier.
Context `{Host} `{PathModule}.
Variable fs : FileSystem.

(** [Buffer.alloc(8192)] after [handle.read(buffer, 0, 8192, 0)]: the
    bytes read, then the zeros the buffer was allocated with. *)
Definition filled_buffer (content : list Z) : list Z :=
  firstn BUFFER_SIZE content
  ++ repeat 0 (BUFFER_SIZE - length (firstn BUFFER_SIZE content)).

Definition looksBinary (filePath : string) : bool :=
  let ext := toLowerCase (extname filePath) in
  if has FORCE_TEXT_EXTENSIONS ext then false
  else if has BINARY_EXTENSIONS ext then true
  else
    match read_bytes fs filePath with
    | None => true
    | Some content =>
        let buffer := filled_buffer content in
        let bytesRead := length (firstn BUFFER_SIZE content) in
        if existsb (fun i => nth i buffer 1 =? 0) (seq 0 bytesRead)
        then true
        else if decodeUtf8 (firstn bytesRead buffer) then false
        else true
    end.

Definition decideFile (filePath repoRoot : string) (maxBytes : Z) : Info :=
  let rel := join slash (split slash (relative repoRoot filePath)) in
  let ext := toLowerCase (extname filePath) in
  let size := match stat_size fs filePath with Some s => s | None => 0 end in
  if String.eqb rel ".git" || startsWith rel ".git/" || includes rel "/.git/"
  then mkInfo filePath rel size (mkDecision false ignored)
  else if (maxBytes <? size) && has LARGE_DATA_EXTENSIONS ext
  then mkInfo filePath rel size (mkDecision false too_large)
  else if looksBinary filePath
  then mkInfo filePath rel size (mkDecision true binary)
  else mkInfo filePath rel size (mkDecision true ok).

(** Binary-ness as the specification words it: the allow-list, then the
    deny-list, then the first 8192 bytes. *)
Definition spec_isBinary (ext : string) (content : option (list Z)) : bool :=
  if has FORCE_TEXT_EXTENSIONS ext then false
  else if has BINARY_EXTENSIONS ext then true
  else
    match content with
    | None => true
    | Some bytes =>
        let head := firstn BUFFER_SIZE bytes in
        existsb (fun b => b =? 0) head || negb (decodeUtf8 head)
    end.

End Classifier.

(** ** JavaScript containers *)

(** A [Map] keyed by strings keeps its entries in insertion order;
    [entries()] and [values()] follow that order. *)
Fixpoint map_get {V : Type} (k : string) (m : list (string * V)) : option V :=
  match m with
  | [] => None
  | (k', v) :: m' => if String.eqb k k' then Some v else map_get k m'
  end.

(** [m.set(k, v)]: an existing key keeps its position, a new key goes to
    the end. *)
Fixpoint map_set {V : Type} (k : string) (v : V) (m : list (string * V))
  : list (string * V) :=
  match m with
  | [] => [(k, v)]
  | (k', v') :: m' =>
      if String.eqb k k' then (k, v) :: m' else (k', v') :: map_set k v m'
  end.

(** [Array.from(new Set(l))]: first occurrences, in order. *)
Fixpoint uniq (l : list string) : list string :=
  match l with
  | [] => []
  | x :: l' => x :: List.filter (fun y => negb (String.eqb y x)) (uniq l')
  end.

(** [set.delete(x)]. *)
Definition set_delete (x : string) (set : list string) : list string :=
  List.filter (fun y => negb (String.eqb y x)) set.

(** [Array.prototype.sort(cmp)], a stable sort: an element moves in front
    of another only when the comparator says so.  For a consistent
    comparator every stable sort returns this list. *)
Fixpoint insertSorted {A : Type} (cmp : A -> A -> num) (x : A) (l : list A)
  : list A :=
  match l with
  | [] => [x]
  | y :: l' =>
      match num_sign (cmp x y) with
      | Gt => y :: insertSorted cmp x l'
      | _ => x :: l
      end
  end.

Fixpoint sortBy {A : Type} (cmp : A -> A -> num) (l : list A) : list A :=
  match l with
  | [] => []
  | x :: l' => insertSorted cmp x (sortBy cmp l')
  end.

(** [a] may stand in front of [b]: the comparator does not ask for the
    opposite. *)
Definition notAfter {A : Type} (cmp : A -> A -> num) (a b : A) : Prop :=
  num_sign (cmp a b) <> Gt.

(** ** Hierarchical aggregator *)

(** [{type: "file", info, age}] or [{type: "dir", children, age}]. *)
#[warnings="-register-all"]
Inductive Node : Type :=
| FileNode (info : Info) (age : num)
| DirNode (children : list (string * Node)) (age : num).

Definition node_age (n : Node) : num :=
  match n with
  | FileNode _ age => age
  | DirNode _ age => age
  end.

(** [fileAges.get(rel) ?? Number.POSITIVE_INFINITY]. *)
Definition ageOrInfinity (fileAges : gmap string Z) (r : string) : num :=
  match fileAges !! r with
  | Some t => Fin t
  | None => POSITIVE_INFINITY
  end.

(** [parentPath ? `${parentPath}/${segment}` : segment]. *)
Definition joinPath (parentPath segment : string) : string :=
  match parentPath with
  | EmptyString => segment
  | _ => parentPath ++ "/" ++ segment
  end.

(** The [for] loop of [computeDirectoryAge] over [children.values()],
    with [rec] for the recursive call: the children as the calls leave
    them, and the least age seen. *)
Definition minAgeLoop (rec : Node -> Node * num)
  : list (string * Node) -> num -> list (string * Node) * num :=
  fix loop (entries : list (string * Node)) (minAge : num) :=
    match entries with
    | [] => ([], minAge)
    | (k, child) :: rest =>
        let '(child', childAge) := rec child in
        let minAge' := if num_lt childAge minAge then childAge else minAge in
        let '(rest', m) := loop rest minAge' in
        ((k, child') :: rest', m)
    end.

(** [computeDirectoryAge(node)]: the node with the ages it has after the
    call, and the returned age. *)
Fixpoint computeDirectoryAge (node : Node) : Node * num :=
  match node with
  | FileNode _ age => (node, age)
  | DirNode children _ =>
      let '(children', minAge) :=
        minAgeLoop computeDirectoryAge children POSITIVE_INFINITY in
      (DirNode children' minAge, minAge)
  end.

(** The body of the inner [for] loop of [orderInfosByOldest], from the
    node [children] belongs to: [None] is the [TypeError] raised when the
    walk has stepped onto a file node, whose [children] is undefined. *)
Fixpoint insertPath (segments : list string) (info : Info) (age : num)
    (children : list (string * Node)) : option (list (string * Node)) :=
  match segments with
  | [] => Some children
  | [part] => Some (map_set part (FileNode info age) children)
  | part :: rest =>
      match map_get part children with
      | None =>
          sub ← insertPath rest info age [];
          Some (map_set part (DirNode sub POSITIVE_INFINITY) children)
      | Some (DirNode sub a) =>
          sub' ← insertPath rest info age sub;
          Some (map_set part (DirNode sub' a) children)
      | Some (FileNode _ _) => None
      end
  end.

Fixpoint buildTree (fileAges : gmap string Z) (infos : list Info)
    (children : list (string * Node)) : option (list (string * Node)) :=
  match infos with
  | [] => Some children
  | info :: rest =>
      children' ← insertPath (split slash (rel info)) info
                    (ageOrInfinity fileAges (rel info)) children;
      buildTree fileAges rest children'
  end.

Fixpoint depth (n : Node) : nat :=
  match n with
  | FileNode _ _ => 0
  | DirNode children _ =>
      S (fold_right (fun e d => Nat.max (depth (snd e)) d) 0%nat children)
  end.

Section Aggregator.
Context `{Host}.

(** The comparator [collectFilesByAge] sorts the entries of a directory
    with. *)
Definition entryCompare (parentPath : string) (a b : string * Node) : num :=
  let ageA := node_age (snd a) in
  let ageB := node_age (snd b) in
  if num_neq ageA ageB then num_sub ageA ageB
  else localeCompare (joinPath parentPath (fst a)) (joinPath parentPath (fst b)).

(** [collectFilesByAge(node, parentPath, out)], returning what it pushes
    to [out].  The recursion goes through the sorted entries, so it is
    bounded by [fuel]; [depth node] is enough (see [collect_fuel]). *)
Fixpoint collectFilesByAge (fuel : nat) (node : Node) (parentPath : string)
  : list Info :=
  match fuel with
  | O => []
  | S fuel' =>
      match node with
      | FileNode _ _ => []
      | DirNode children _ =>
          let entries := sortBy (entryCompare parentPath) children in
          flat_map
            (fun e =>
               let currentPath := joinPath parentPath (fst e) in
               match snd e with
               | FileNode info _ => [info]
               | DirNode _ _ => collectFilesByAge fuel' (snd e) currentPath
               end)
            entries
      end
  end.

Definition orderInfosByOldest (infos : list Info) (fileAges : gmap string Z)
  : option (list Info) :=
  children ← buildTree fileAges infos [];
  let root := fst (computeDirectoryAge (DirNode children POSITIVE_INFINITY)) in
  Some (collectFilesByAge (depth root) root "").

End Aggregator.

(** ** Views of the tree, to state what the aggregator keeps *)

(** [info.rel.split("/")]. *)
Definition segments (info : Info) : list string := split slash (rel info).

(** [p] is a prefix of [q], segment by segment. *)
Fixpoint prefixb (p q : list string) : bool :=
  match p, q with
  | [], _ => true
  | a :: p', b :: q' => String.eqb a b && prefixb p' q'
  | _ :: _, [] => false
  end.

(** The files below a node, in the order of the maps. *)
Fixpoint node_leaves (n : Node) : list Info :=
  match n with
  | FileNode info _ => [info]
  | DirNode children _ => flat_map (fun e => node_leaves (snd e)) children
  end.

Definition leaves (children : list (string * Node)) : list Info :=
  flat_map (fun e => node_leaves (snd e)) children.

(** Walking down [q] from [children] steps onto a file node. *)
Fixpoint meetsFile (q : list string) (children : list (string * Node)) : bool :=
  match q with
  | [] => false
  | k :: rest =>
      match map_get k children with
      | None => false
      | Some (FileNode _ _) => true
      | Some (DirNode sub _) => meetsFile rest sub
      end
  end.

(** There is a node, file or directory, at the end of [q]. *)
Fixpoint nodeAt (q : list string) (children : list (string * Node)) : bool :=
  match q with
  | [] => true
  | k :: rest =>
      match map_get k children with
      | None => false
      | Some (FileNode _ _) => match rest with [] => true | _ => false end
      | Some (DirNode sub _) => nodeAt rest sub
      end
  end.

(** The specification's wording: the path [a] is a proper path-prefix of
    the path [b]. *)
Definition properPathPrefix (a b : string) : Prop :=
  exists rest, rest <> [] /\ split slash b = (split slash a ++ rest)%list.

(** Of two files, the first being inserted first: the first is not on the
    way down to the second, and the second is neither on the way down to
    the first nor at its place. *)
Definition apart (a b : Info) : Prop :=
  prefixb (segments a) (removelast (segments b)) = false
  /\ prefixb (segments b) (segments a) = false.

(** ** History age resolver *)

(** The two history queries: [git log --format=%ct --name-only --reverse
    -- .] and [git log --follow --format=%ct -- rel]. *)
Inductive Query : Type :=
| BulkLog
| FollowLog (r : string).

(** What the history service answers: the standard output, or [None]
    when [execFile] rejects. *)
Definition Git : Type := Query -> option string.

(** Computations that query the history service: the list of queries
    issued so far is threaded through. *)
Definition Proc (A : Type) : Type := list Query -> A * list Query.

#[global] Instance Proc_ret : MRet Proc := fun A a log => (a, log).
#[global] Instance Proc_bind : MBind Proc :=
  fun A B f c log => let '(a, log') := c log in f a log'.

(** [run("git", args)] inside [try]: the answer, and the query logged. *)
Definition run (git : Git) (q : Query) : Proc (option string) :=
  fun log => (git q, (log ++ [q])%list).

Record BulkState : Type := mkBulkState {
  currentTimestamp : option Z;
  pending : list string;
  fileAges : gmap string Z
}.

(** How one turn of a loop ends: [continue] (or falling through) or
    [break]. *)
Inductive Control : Type :=
| Continue (st : BulkState)
| Break (st : BulkState).

(** The state a turn leaves. *)
Definition control_state (c : Control) : BulkState :=
  match c with Continue st => st | Break st => st end.

(** No requested path is at once pending and recorded. *)
Definition bulk_inv (st : BulkState) : Prop :=
  List.NoDup (pending st) /\ forall r, In r (pending st) -> fileAges st !! r = None.

Definition LF : ascii := "010"%char.

Section Resolver.
Context `{Host}.
Variable git : Git.

(** One turn of [for (const rawLine of lines)]. *)
Definition bulkStep (rawLine : string) (st : BulkState) : Control :=
  let line := stripCR rawLine in
  match line with
  | EmptyString =>
      Continue (mkBulkState None (pending st) (fileAges st))
  | _ =>
      match currentTimestamp st with
      | None =>
          match Number_ (trim line) with
          | Fin parsed =>
              Continue (mkBulkState (Some parsed) (pending st) (fileAges st))
          | _ => Continue st
          end
      | Some ts =>
          match pending st with
          | [] => Break st
          | _ =>
              let r := line in
              if negb (has (pending st) r) then Continue st
              else
                match fileAges st !! r with
                | None =>
                    Continue (mkBulkState (Some ts)
                                (set_delete r (pending st))
                                (<[r := ts]> (fileAges st)))
                | Some _ => Continue st
                end
          end
      end
  end.

Fixpoint bulkLoop (lines : list string) (st : BulkState) : BulkState :=
  match lines with
  | [] => st
  | rawLine :: rest =>
      match bulkStep rawLine st with
      | Continue st' => bulkLoop rest st'
      | Break st' => st'
      end
  end.

(** The [try] block of the bulk phase; a failed query leaves the state
    as it was. *)
Definition bulkPhase (relPaths : list string) : Proc BulkState :=
  let uniquePaths := uniq relPaths in
  let st := mkBulkState None uniquePaths ∅ in
  answer ← run git BulkLog;
  match answer with
  | Some stdout => mret (bulkLoop (split LF stdout) st)
  | None => mret st
  end.

(** The specification's wording for the fallback: the last
    white-space separated token of the output, when it is a finite
    number. *)
Definition lastTimestamp (stdout : string) : option Z :=
  match tokens (trim stdout) with
  | [] => None
  | parts =>
      match Number_ (List.last parts EmptyString) with
      | Fin t => Some t
      | _ => None
      end
  end.

(** What one answered per-file query contributes. *)
Definition fallbackRecord (r : string) (answer : option string)
    (ages : gmap string Z) : gmap string Z :=
  match answer with
  | None => ages
  | Some stdout =>
      let parts := tokens (trim stdout) in
      if (0 <? length parts)%nat then
        match Number_ (List.last parts EmptyString) with
        | Fin timestamp => <[r := timestamp]> ages
        | _ => ages
        end
      else ages
  end.

(** [for (const rel of pending)]. *)
Fixpoint fallbackLoop (pend : list string) (ages : gmap string Z)
  : Proc (gmap string Z) :=
  match pend with
  | [] => mret ages
  | r :: rest =>
      answer ← run git (FollowLog r);
      fallbackLoop rest (fallbackRecord r answer ages)
  end.

Definition gatherOldestCommitTimes (relPaths : list string)
  : Proc (gmap string Z) :=
  match uniq relPaths with
  | [] => mret ∅
  | _ =>
      st ← bulkPhase relPaths;
      match pending st with
      | [] => mret (fileAges st)
      | _ => fallbackLoop (pending st) (fileAges st)
      end
  end.

End Resolver.

(** ** Assembly: the final order *)

(** The test of lines 449-451 of [buildHtml]. *)
Definition isTopLevelReadme (info : Info) : bool :=
  if includes (rel info) "/" then false
  else
    let lower := toLowerCase (rel info) in
    String.eqb lower "readme" || startsWith lower "readme.".

(** The specification's wording: a top-level file (no separator in its
    path) whose lower-cased name is [readme] or starts with [readme.]. *)
Definition TopLevelReadme (info : Info) : Prop :=
  includes (rel info) "/" = false
  /\ (toLowerCase (rel info) = "readme"
      \/ startsWith (toLowerCase (rel info)) "readme." = true).

(** Lines 447-455: the index of the first top-level readme from
    position [i] on, or [-1]. *)
Fixpoint findReadme (rendered : list Info) (i : Z) : Z :=
  match rendered with
  | [] => -1
  | info :: rest => if isTopLevelReadme info then i else findReadme rest (i + 1)
  end.

(** Lines 456-459: [splice(index, 1)] then [unshift]. *)
Definition relocateReadme (rendered : list Info) : list Info :=
  let topLevelReadmeIndex := findReadme rendered 0 in
  if 0 <? topLevelReadmeIndex then
    let i := Z.to_nat topLevelReadmeIndex in
    match nth_error rendered i with
    | Some readmeInfo => readmeInfo :: (firstn i rendered ++ skipn (S i) rendered)
    | None => rendered
    end
  else rendered.

Section Assembly.
Context `{Host}.
Variable git : Git.

Definition byRel (a b : Info) : num := localeCompare (rel a) (rel b).

(** Lines 432-445 of [buildHtml]: the included files in the order of the
    sort mode; [None] when [orderInfosByOldest] throws. *)
Definition sortRendered (infos : list Info) (sortMode : string)
  : Proc (option (list Info)) :=
  let rendered := List.filter (fun info => include (decision info)) infos in
  if (0 <? length rendered)%nat then
    if String.eqb sortMode "age" then
      fileAgeMap ← gatherOldestCommitTimes git (map rel rendered);
      mret (orderInfosByOldest rendered fileAgeMap)
    else mret (Some (sortBy byRel rendered))
  else mret (Some rendered).

(** [rendered] as [buildHtml] has it at line 460. *)
Definition buildHtml_rendered (infos : list Info) (sortMode : string)
  : Proc (option (list Info)) :=
  sorted ← sortRendered infos sortMode;
  mret (relocateReadme <$> sorted).

End Assembly.

(** ** A host to run the model on

    [Number] on an optionally signed run of decimal digits (white space
    around it ignored, the empty string is [0]) and on [Infinity], as
    Node reads them; for [localeCompare] the order of the lower-cased
    strings, which is Node's on ASCII letters and digits; a strict UTF-8
    decoder; [path.extname] and [path.relative] on POSIX paths below the
    root. *)
Module Demo.

Definition digit_of (c : ascii) : option Z :=
  let n := nat_of_ascii c in
  if (48 <=? n)%nat && (n <=? 57)%nat then Some (Z.of_nat n - 48) else None.

Fixpoint digits (acc : Z) (s : string) : option Z :=
  match s with
  | EmptyString => Some acc
  | String c s' =>
      match digit_of c with
      | Some d => digits (10 * acc + d) s'
      | None => None
      end
  end.

Definition unsigned (s : string) : num :=
  match s with
  | EmptyString => NaN
  | _ =>
      if String.eqb s "Infinity" then PosInf
      else match digits 0 s with Some z => Fin z | None => NaN end
  end.

Definition negate (n : num) : num :=
  match n with
  | Fin z => Fin (- z)
  | PosInf => NegInf
  | NegInf => PosInf
  | NaN => NaN
  end.

Definition Number_dec (s : string) : num :=
  match trim s with
  | EmptyString => Fin 0
  | String "+" s' => unsigned s'
  | String "-" s' => negate (unsigned s')
  | t => unsigned t
  end.

Fixpoint compare_lower (a b : string) : Z :=
  match a, b with
  | EmptyString, EmptyString => 0
  | EmptyString, String _ _ => -1
  | String _ _, EmptyString => 1
  | String x a', String y b' =>
      let nx := nat_of_ascii (lower_ascii x) in
      let ny := nat_of_ascii (lower_ascii y) in
      if (nx <? ny)%nat then -1
      else if (ny <? nx)%nat then 1
      else compare_lower a' b'
  end.

Definition cont (b : Z) : bool := (128 <=? b) && (b <=? 191).
Definition between (lo hi b : Z) : bool := (lo <=? b) && (b <=? hi).

Fixpoint utf8 (fuel : nat) (bs : list Z) : bool :=
  match fuel with
  | O => match bs with [] => true | _ => false end
  | S fuel' =>
      match bs with
      | [] => true
      | b0 :: r0 =>
          if between 0 127 b0 then utf8 fuel' r0
          else if between 194 223 b0 then
            match r0 with
            | b1 :: r1 => cont b1 && utf8 fuel' r1
            | _ => false
            end
          else if between 224 239 b0 then
            match r0 with
            | b1 :: b2 :: r2 =>
                between (if b0 =? 224 then 160 else 128)
                        (if b0 =? 237 then 159 else 191) b1
                && cont b2 && utf8 fuel' r2
            | _ => false
            end
          else if between 240 244 b0 then
            match r0 with
            | b1 :: b2 :: b3 :: r3 =>
                between (if b0 =? 240 then 144 else 128)
                        (if b0 =? 244 then 143 else 191) b1
                && cont b2 && cont b3 && utf8 fuel' r3
            | _ => false
            end
          else false
      end
  end.

#[export] Instance host : Host := {
  Number_ := Number_dec;
  localeCompare a b := Fin (compare_lower a b);
  decodeUtf8 bs := utf8 (length bs) bs
}.

Definition basename (p : string) : string :=
  List.last (split slash p) EmptyString.

(** The text from the last dot of [s] on, when that dot is not the first
    character. *)
Fixpoint fromLastDot (first : bool) (s : string) : option string :=
  match s with
  | EmptyString => None
  | String c s' =>
      match fromLastDot false s' with
      | Some e => Some e
      | None =>
          if Ascii.eqb c "."%char && negb first then Some s else None
      end
  end.

Definition extname_posix (p : string) : string :=
  let b := basename p in
  if String.eqb b ".." then EmptyString
  else match fromLastDot true b with Some e => e | None => EmptyString end.

Fixpoint dropPrefix (p s : string) : option string :=
  match p, s with
  | EmptyString, _ => Some s
  | String a p', String b s' => if Ascii.eqb a b then dropPrefix p' s' else None
  | String _ _, EmptyString => None
  end.

Definition relative_posix (from to : string) : string :=
  match dropPrefix (from ++ "/") to with
  | Some r => r
  | None => to
  end.

#[export] Instance paths : PathModule := {
  extname := extname_posix;
  relative := relative_posix
}.

Definition file (r : string) : Info :=
  mkInfo ("/repo/" ++ r) r 0 (mkDecision true ok).

(** The age record [{a.txt: 100, b/c.txt: 50}]. *)
Definition ages : gmap string Z := <["a.txt" := 100]> (<["b/c.txt" := 50]> ∅).

Definition lines (l : list string) : string :=
  join LF l.

(** A history of two revisions: [a.txt] at 100, then [a.txt] and
    [b.txt] at 200; [c.txt] is only known to the per-file query and
    [d.txt] to none. *)
Definition two_commits : Git := fun q =>
  match q with
  | BulkLog => Some (lines ["100"; "a.txt"; ""; "200"; "a.txt"; "b.txt"; ""])
  | FollowLog r =>
      if String.eqb r "c.txt" then Some (lines ["300"; "150"; ""])
      else if String.eqb r "d.txt" then Some EmptyString
      else None
  end.

(** The same history behind a first block whose timestamp line is not
    a number, in a repository that has a file named [2024]. *)
Definition bad_block : Git := fun q =>
  match q with
  | BulkLog =>
      Some (lines ["not-a-time"; "2024"; "a.txt"; "";
                   "100"; "a.txt"; ""; "200"; "a.txt"; "b.txt"; ""])
  | FollowLog r => None
  end.

(** A repository without history: every query fails. *)
Definition no_git : Git := fun _ => None.

(** [notes.txt] holds ["h\0i"], [page.html] the same bytes, [sub/.git]
    the text of a submodule link, [data.csv] is 60 KB. *)
Definition fs : FileSystem := {|
  stat_size p := if String.eqb p "/repo/data.csv" then Some 61440 else Some 3;
  read_bytes p :=
    if String.eqb p "/repo/gone" then None
    else if String.eqb p "/repo/sub/.git" then Some [103; 105; 116; 100; 105; 114; 58; 32; 46]
    else Some [104; 0; 105]
|}.

(** The paths asked of [two_commits]. *)
Definition requested : list string := ["a.txt"; "b.txt"; "c.txt"; "d.txt"].

(** What [collectFiles] found: four files to render and one ignored. *)
Definition candidates : list Info :=
  [file "a.txt"; file "b/c.txt";
   mkInfo "/repo/.git/config" ".git/config" 0 (mkDecision false ignored);
   file "b/d.txt"; file "README.md"].

End Demo.

(** ** The header counts of [buildHtml] *)

Definition reason_eqb (a b : Reason) : bool :=
  match a, b with
  | ok, ok | binary, binary | too_large, too_large | ignored, ignored => true
  | _, _ => false
  end.

(** Lines 432-436 of [buildHtml]. *)
Definition rendered_of (infos : list Info) : list Info :=
  List.filter (fun info => include (decision info)) infos.

Definition skipped_of (r : Reason) (infos : list Info) : list Info :=
  List.filter
    (fun info => negb (include (decision info)) && reason_eqb (reason (decision info)) r)
    infos.

Definition totalFiles (infos : list Info) : nat :=
  (length (rendered_of infos) + length (skipped_of binary infos)
   + length (skipped_of too_large infos) + length (skipped_of ignored infos))%nat.

(** ** Well-formed history output *)

(** One revision of the bulk output as the walk expects it: the line of
    the commit timestamp, the timestamp it stands for, and the lines of
    the paths the revision touched. *)
Record Revision : Type := mkRevision {
  stampLine : string;
  stamp : Z;
  pathLines : list string
}.

(** The lines of a revision, closed by the blank line that separates it
    from the next one. *)
Definition revisionLines (b : Revision) : list string :=
  (stampLine b :: pathLines b ++ [EmptyString])%list.

(** The paths a revision lists, as the walk reads them. *)
Definition touched (b : Revision) : list string := map stripCR (pathLines b).

(** The timestamp of the first revision that lists [r]. *)
Definition firstSeen (r : string) (history : list Revision) : option Z :=
  stamp <$> List.find (fun b => has (touched b) r) history.

(** The timestamp line is not blank and reads as the finite number
    [stamp]; no path line is blank. *)
Definition wellFormed `{Host} (b : Revision) : Prop :=
  stripCR (stampLine b) <> EmptyString
  /\ Number_ (trim (stripCR (stampLine b))) = Fin (stamp b)
  /\ Forall (fun l => stripCR l <> EmptyString) (pathLines b).

Module DemoHistory.

(** The two revisions [Demo.two_commits] answers with. *)
Definition history : list Revision :=
  [mkRevision "100" 100 ["a.txt"]; mkRevision "200" 200 ["a.txt"; "b.txt"]].

End DemoHistory.

(** ** Ages in the tree *)

(** [a <= b] on ages: [b < a] does not hold. *)
Definition ageLe (a b : num) : Prop := num_lt b a = false.

(** The ages the program puts on file nodes: a timestamp or [Infinity]. *)
Definition properAge (a : num) : Prop :=
  match a with
  | Fin _ | PosInf => True
  | NaN | NegInf => False
  end.

(** [P] holds of every child node of a [children] map. *)
Definition allChildren (P : Node -> Prop) (children : list (string * Node)) : Prop :=
  fold_right (fun e rest => P (snd e) /\ rest) True children.

(** The ages of the files below a node. *)
Fixpoint node_leaf_ages (n : Node) : list num :=
  match n with
  | FileNode _ age => [age]
  | DirNode children _ => flat_map (fun e => node_leaf_ages (snd e)) children
  end.

(** [a] is the least of the ages [l], or [Infinity] when there is none. *)
Definition leastAge (a : num) (l : list num) : Prop :=
  (forall x, In x l -> ageLe a x) /\ (a = POSITIVE_INFINITY \/ In a l).

(** Every directory of the tree carries the least age of the files below
    it. *)
Fixpoint settled (n : Node) : Prop :=
  match n with
  | FileNode _ _ => True
  | DirNode children age =>
      leastAge age (node_leaf_ages n) /\ allChildren settled children
  end.

(** A tree as [orderInfosByOldest] builds it from the record [fileAges]:
    every file node carries the age the record gives its path, and every
    directory below the root holds a file. *)
Fixpoint grown (fileAges : gmap string Z) (n : Node) : Prop :=
  match n with
  | FileNode info age => age = ageOrInfinity fileAges (rel info)
  | DirNode children _ =>
      flat_map (fun e => node_leaves (snd e)) children <> []
      /\ allChildren (grown fileAges) children
  end.

Module DemoTree.
Import Demo.

(** A tree before [computeDirectoryAge]: directories still carry the ages
    they were created or left with. *)
Definition tree : Node :=
  DirNode [("a.txt", FileNode (file "a.txt") (Fin 100));
           ("b", DirNode [("c.txt", FileNode (file "b/c.txt") (Fin 50));
                          ("d.txt", FileNode (file "b/d.txt") PosInf)] PosInf);
           ("empty", DirNode [] (Fin 7))] PosInf.

End DemoTree.

(** ** Text helpers of the renderer *)

Definition dquote : ascii := "034"%char.

(** [s.replace(/c/g, r)] for a one-character pattern. *)
Fixpoint replaceAll (c : ascii) (r : string) (s : string) : string :=
  match s with
  | EmptyString => EmptyString
  | String a s' =>
      if Ascii.eqb a c then r ++ replaceAll c r s' else String a (replaceAll c r s')
  end.

Definition escapeHtml (value : string) : string :=
  replaceAll "'"%char "&#039;"
    (replaceAll dquote "&quot;"
       (replaceAll ">"%char "&gt;"
          (replaceAll "<"%char "&lt;"
             (replaceAll "&"%char "&amp;" value)))).

(** What [escapeHtml] makes of one character. *)
Definition escapeChar (a : ascii) : string :=
  if Ascii.eqb a "&"%char then "&amp;"
  else if Ascii.eqb a "<"%char then "&lt;"
  else if Ascii.eqb a ">"%char then "&gt;"
  else if Ascii.eqb a dquote then "&quot;"
  else if Ascii.eqb a "'"%char then "&#039;"
  else String a EmptyString.

(** The characters [/[A-Za-z0-9_-]/] matches. *)
Definition isSlugChar (c : ascii) : bool :=
  let n := nat_of_ascii c in
  ((65 <=? n)%nat && (n <=? 90)%nat)
  || ((97 <=? n)%nat && (n <=? 122)%nat)
  || ((48 <=? n)%nat && (n <=? 57)%nat)
  || (n =? 95)%nat || (n =? 45)%nat.

(** [value.replace(/[^A-Za-z0-9_-]/g, "-")]. *)
Fixpoint slugify (value : string) : string :=
  match value with
  | EmptyString => EmptyString
  | String c s => String (if isSlugChar c then c else "-"%char) (slugify s)
  end.

Definition CR : ascii := "013"%char.

(** [s.replace(/\r\n/g, "\n")]. *)
Fixpoint replaceCRLF (s : string) : string :=
  match s with
  | EmptyString => EmptyString
  | String a s' =>
      match s' with
      | String b s'' =>
          if Ascii.eqb a CR && Ascii.eqb b LF then String LF (replaceCRLF s'')
          else String a (replaceCRLF s')
      | EmptyString => String a EmptyString
      end
  end.

(** [s.endsWith(c)] for one character. *)
Fixpoint endsWithChar (s : string) (c : ascii) : bool :=
  match s with
  | EmptyString => false
  | String a EmptyString => Ascii.eqb a c
  | String _ s' => endsWithChar s' c
  end.

(** The two replacements [countLines] starts with. *)
Definition normalizeNewlines (s : string) : string :=
  replaceAll CR (String LF EmptyString) (replaceCRLF s).

Definition countLines (value : string) : nat :=
  match value with
  | EmptyString => 0
  | _ =>
      let normalized := replaceAll CR (String LF EmptyString) (replaceCRLF value) in
      match normalized with
      | EmptyString => 0
      | _ =>
          let segments := split LF normalized in
          if endsWithChar normalized LF then (length segments - 1)%nat
          else length segments
      end
  end.

(** A line of text: no carriage return and no line feed in it. *)
Definition isLine (l : string) : Prop :=
  Forall (fun c => c <> CR /\ c <> LF) (list_ascii_of_string l).

(** The lines [ls], each followed by the terminator [t]. *)
Fixpoint terminated (t : string) (ls : list string) : string :=
  match ls with
  | [] => EmptyString
  | l :: ls' => l ++ t ++ terminated t ls'
  end.

(** ** Command line *)

Module Cli.

(** [{repo, out, maxBytes, noOpen, sort}]; [None] is [null]. *)
Record Args : Type := mkArgs {
  repo : option string;
  out : option string;
  maxBytes : Z;
  noOpen : bool;
  sort : string
}.

(** What [parseArgs] returns, or the message of the [Error] it throws. *)
Inductive Parsed : Type :=
| Ok (args : Args)
| Failed (message : string).

(** [!value] for a string that may be [undefined] or [null]. *)
Definition missing (value : option string) : bool :=
  match value with
  | None => true
  | Some EmptyString => true
  | Some _ => false
  end.

(** [token.slice(token.indexOf("=") + 1)] for a token that holds [=]. *)
Fixpoint afterFirstEq (token : string) : string :=
  match token with
  | EmptyString => EmptyString
  | String c s => if Ascii.eqb c "="%char then s else afterFirstEq s
  end.

(** What holds of the arguments all along the loop. *)
Definition settledArgs (argv : list string) (args : Args) : Prop :=
  (forall r, repo args = Some r -> startsWith r "-" = false /\ In r argv)
  /\ (sort args = "age" \/ sort args = "filename")
  /\ 0 < maxBytes args
  /\ out args <> Some "".

Section Parser.
Context `{Host}.

(** The [while] loop of [parseArgs] over [queue]. *)
Fixpoint parseLoop (queue : list string) (args : Args) : Parsed :=
  match queue with
  | [] =>
      if missing (repo args) then Failed "Repository path or URL is required"
      else Ok args
  | token :: queue1 =>
      if String.eqb token "-o" || String.eqb token "--out" then
        match queue1 with
        | value :: queue2 =>
            if missing (Some value) then Failed (token ++ " requires a value")
            else parseLoop queue2
                   (mkArgs (repo args) (Some value) (maxBytes args) (noOpen args) (sort args))
        | [] => Failed (token ++ " requires a value")
        end
      else if String.eqb token "--max-bytes" then
        match queue1 with
        | value :: queue2 =>
            if missing (Some value) then Failed "--max-bytes requires a value"
            else
              match Number_ value with
              | Fin n =>
                  if n <=? 0 then Failed "--max-bytes must be a positive number"
                  else parseLoop queue2
                         (mkArgs (repo args) (out args) n (noOpen args) (sort args))
              | _ => Failed "--max-bytes must be a positive number"
              end
        | [] => Failed "--max-bytes requires a value"
        end
      else if String.eqb token "--sort" || startsWith token "--sort=" then
        if includes token "=" then
          let value := afterFirstEq token in
          if missing (Some value) then Failed "--sort requires a value"
          else if negb (String.eqb value "age") && negb (String.eqb value "filename")
          then Failed "--sort must be 'age' or 'filename'"
          else parseLoop queue1
                 (mkArgs (repo args) (out args) (maxBytes args) (noOpen args) value)
        else
          match queue1 with
          | value :: queue2 =>
              if missing (Some value) then Failed "--sort requires a value"
              else if negb (String.eqb value "age") && negb (String.eqb value "filename")
              then Failed "--sort must be 'age' or 'filename'"
              else parseLoop queue2
                     (mkArgs (repo args) (out args) (maxBytes args) (noOpen args) value)
          | [] => Failed "--sort requires a value"
          end
      else if String.eqb token "--no-open" then
        parseLoop queue1
          (mkArgs (repo args) (out args) (maxBytes args) true (sort args))
      else if startsWith token "-" then Failed ("Unknown option: " ++ token)
      else if missing (repo args) then
        parseLoop queue1
          (mkArgs (Some token) (out args) (maxBytes args) (noOpen args) (sort args))
      else Failed ("Unexpected argument: " ++ token)
  end.

Definition parseArgs (argv : list string) : Parsed :=
  parseLoop argv (mkArgs None None MAX_DEFAULT_BYTES false "age").

End Parser.

End Cli.

(** ** Tracked files and the output path *)

(** What [gitLsFiles] makes of the output of [git ls-files]:
    [stdout.split("\n").filter(Boolean)]. *)
Definition gitLsFiles (stdout : string) : list string :=
  List.filter (fun l => negb (String.eqb l EmptyString)) (split LF stdout).

(** The character [c] does not occur in [s]. *)
Definition lacks (c : ascii) (s : string) : Prop :=
  Forall (fun a => a <> c) (list_ascii_of_string s).

(** [s.replace(/c+$/, "")]: drops the run of [c] at the end. *)
Fixpoint stripTrailing (c : ascii) (s : string) : string :=
  match s with
  | EmptyString => EmptyString
  | String a s' =>
      match stripTrailing c s' with
      | EmptyString => if Ascii.eqb a c then EmptyString else String a EmptyString
      | t => String a t
      end
  end.

(** [s.endsWith(suffix)]. *)
Definition endsWith (s suffix : string) : bool :=
  let n := String.length s in
  let m := String.length suffix in
  (m <=? n)%nat && String.eqb (substring (n - m) m s) suffix.

Section OutputPath.
(** [os.tmpdir()] and [path.join] of two arguments. *)
Variable tmpdir : string.
Variable pathJoin : string -> string -> string.

(** The [name] of [deriveOutputPath]. *)
Definition outputName (repoLabel : string) : string :=
  let trimmed := stripTrailing slash repoLabel in
  let base :=
    match List.last (split slash trimmed) EmptyString with
    | EmptyString => "repo"
    | b => b
    end in
  if endsWith base ".git" then substring 0 (String.length base - 4) base else base.

Definition deriveOutputPath (repoLabel : string) : string :=
  pathJoin tmpdir (outputName repoLabel ++ ".html").

End OutputPath.

(** ** The bit view of a binary file *)

Definition BINARY_BIT_LINE_WIDTH : nat := 8.

(** [n.toString(2)] for an integer [n]. *)
Fixpoint binaryDigits (p : positive) : string :=
  match p with
  | xH => "1"
  | xO q => binaryDigits q ++ "0"
  | xI q => binaryDigits q ++ "1"
  end.

Definition toString2 (n : Z) : string :=
  match n with
  | Z0 => "0"
  | Zpos p => binaryDigits p
  | Zneg p => String "-" (binaryDigits p)
  end.

Definition repeatChar (c : ascii) (n : nat) : string :=
  string_of_list_ascii (repeat c n).

(** [s.padStart(n, c)] and [s.padEnd(n, c)] for a one-character filler. *)
Definition padStart (n : nat) (c : ascii) (s : string) : string :=
  repeatChar c (n - String.length s) ++ s.

Definition padEnd (n : nat) (c : ascii) (s : string) : string :=
  s ++ repeatChar c (n - String.length s).

(** [String.fromCharCode(byte)] for a byte. *)
Definition fromCharCode (byte : Z) : ascii := ascii_of_N (Z.to_N byte).

(** What the text column shows for a byte:
    [byte >= 32 && byte <= 126 ? String.fromCharCode(byte) : "."]. *)
Definition asciiColumn (byte : Z) : ascii :=
  if (32 <=? byte) && (byte <=? 126) then fromCharCode byte else "."%char.

(** One line of the dump, for the chunk [buffer.subarray(i, i + width)]. *)
Definition dumpLine (width : nat) (chunk : list Z) : string :=
  let bitSegments :=
    (map (fun byte => padStart 8 "0" (toString2 byte)) chunk
     ++ repeat "        " (width - length chunk))%list in
  let ascii :=
    padEnd width " " (string_of_list_ascii (map asciiColumn chunk)) in
  join " " bitSegments ++ "  |" ++ ascii ++ "|".

(** The loop [for (i = 0; i < buffer.length; i += width)], on what is left
    of the buffer from [i] on.  With [width] 0 the index stands still;
    [None] is the loop that does not end. *)
Fixpoint dumpLoop (fuel width : nat) (rest : list Z) (lines : list string)
  : option (list string) :=
  match rest with
  | [] => Some lines
  | _ :: _ =>
      match fuel with
      | O => None
      | S fuel' =>
          dumpLoop fuel' width (skipn width rest)
            (lines ++ [dumpLine width (firstn width rest)])%list
      end
  end.

Definition formatBinaryDump (buffer : list Z) (width : nat) : option string :=
  match dumpLoop (length buffer) width buffer [] with
  | Some lines => Some (join LF lines)
  | None => None
  end.

(** A byte of a [Buffer]. *)
Definition isByte (b : Z) : Prop := 0 <= b < 256.

(** A bit segment of eight characters and a text column character, none
    of them a line feed. *)
Definition segment_ok (b : Z) : bool :=
  let s := padStart 8 "0" (toString2 b) in
  (String.length s =? 8)%nat
  && forallb (fun a => negb (Ascii.eqb a LF)) (list_ascii_of_string s)
  && negb (Ascii.eqb (asciiColumn b) LF).

(** ** Finding the files *)

(** An entry of a directory as [fs.readdir(dir, {withFileTypes: true})]
    gives it: its name and its type; a directory comes with what
    [readdir] gives for it in turn, [None] when that throws. *)
#[warnings="-register-all"]
Inductive Dirent : Type :=
| RegularFile (name : string)
| SymbolicLink (name : string)
| OtherEntry (name : string)
| Directory (name : string) (listing : option (list Dirent)).

Definition dirent_name (entry : Dirent) : string :=
  match entry with
  | RegularFile name | SymbolicLink name | OtherEntry name | Directory name _ => name
  end.

(** How deep the directories go below an entry, and below a listing. *)
Fixpoint dirent_height (entry : Dirent) : nat :=
  match entry with
  | Directory _ (Some entries) =>
      S (fold_right (fun e d => Nat.max (dirent_height e) d) 0%nat entries)
  | _ => 0%nat
  end.

Definition listing_height (listing : option (list Dirent)) : nat :=
  match listing with
  | Some entries =>
      S (fold_right (fun e d => Nat.max (dirent_height e) d) 0%nat entries)
  | None => 0%nat
  end.

Section Walker.
Context `{Host} `{PathModule}.
(** [path.join] of two arguments. *)
Variable pathJoin : string -> string -> string.
Variable fs : FileSystem.
(** [(await fs.stat(p)).isFile()]; [None] when [stat] throws. *)
Variable isFile : string -> option bool.

Definition direntCompare (a b : Dirent) : num :=
  localeCompare (dirent_name a) (dirent_name b).

(** [gatherFilesRecursively(current, out)], returning [out] as the call
    leaves it; [listing] is what [readdir(current)] gives.  The recursion
    goes through the sorted entries, so it is bounded by [fuel];
    [listing_height listing] is enough. *)
Fixpoint gatherFilesRecursively (fuel : nat) (current : string)
    (listing : option (list Dirent)) (out : list string) : list string :=
  match fuel with
  | O => out
  | S fuel' =>
      match listing with
      | None => out
      | Some entries =>
          fold_left
            (fun out entry =>
               match entry with
               | SymbolicLink _ => out
               | Directory name sub =>
                   if String.eqb name ".git" then out
                   else gatherFilesRecursively fuel' (pathJoin current name) sub out
               | RegularFile name => (out ++ [pathJoin current name])%list
               | OtherEntry _ => out
               end)
            (sortBy direntCompare entries) out
      end
  end.

(** [collectFiles(repoRoot, maxBytes, filePaths)]; [root] is what
    [readdir(repoRoot)] gives, and [filePaths] is [None] for [null]. *)
Definition collectFiles (root : option (list Dirent)) (repoRoot : string)
    (maxBytes : Z) (filePaths : option (list string)) : list Info :=
  let candidates :=
    match filePaths with
    | None => gatherFilesRecursively (listing_height root) repoRoot root []
    | Some paths =>
        fold_left
          (fun candidates rel =>
             let full := pathJoin repoRoot rel in
             match isFile full with
             | Some true => (candidates ++ [full])%list
             | _ => candidates
             end)
          paths []
    end in
  map (fun file => decideFile fs file repoRoot maxBytes)
      (sortBy localeCompare candidates).

(** The regular files of a directory tree that are neither behind a
    symbolic link, nor in a directory that cannot be read, nor in a
    directory named [.git]: [found current entries p] when [p] is the
    path of one, [entries] being the listing of [current]. *)
Inductive found : string -> list Dirent -> string -> Prop :=
| found_here current entries name :
    In (RegularFile name) entries ->
    found current entries (pathJoin current name)
| found_below current entries name sub p :
    In (Directory name (Some sub)) entries ->
    name <> ".git" ->
    found (pathJoin current name) sub p ->
    found current entries p.

(** What one entry of [current] makes the walk push. *)
Definition yields (current : string) (entry : Dirent) (p : string) : Prop :=
  match entry with
  | RegularFile name => p = pathJoin current name
  | Directory name (Some sub) => name <> ".git" /\ found (pathJoin current name) sub p
  | _ => False
  end.

End Walker.

Module DemoWalk.

(** A checkout: a file, a link, the repository data, a directory with a
    file and a nested repository, and a directory that cannot be read. *)
Definition root : list Dirent :=
  [ RegularFile "b.txt";
    SymbolicLink "link";
    Directory ".git" (Some [RegularFile "HEAD"]);
    Directory "a" (Some [RegularFile "z.js";
                         Directory ".git" (Some [RegularFile "config"]);
                         RegularFile ".git.txt"]);
    Directory "locked" None ].

Definition join2 (a b : string) : string := a ++ "/" ++ b.

End DemoWalk.

(** * Properties *)

(** ** Strings and containers *)

Example split_ex : split slash "b/c.txt" = ["b"; "c.txt"].
Proof. reflexivity. Qed.

Example split_empty_ex : split slash "" = [""].
Proof. reflexivity. Qed.

Example tokens_ex : tokens (trim "  12 34 56 ") = ["12"; "34"; "56"].
Proof. reflexivity. Qed.

Example stripCR_ex : stripCR (String "a" (String "013" "")) = "a".
Proof. reflexivity. Qed.

Lemma has_true (set : list string) (x : string) : has set x = true <-> In x set.
Proof.
  unfold has. rewrite existsb_exists. split.
  - intros (y & Hy & E). apply String.eqb_eq in E. now subst.
  - intros Hx. exists x. split; [assumption | apply String.eqb_refl].
Qed.


Lemma split_nonempty c s : split c s <> [].
Proof.
  destruct s as [|a s]; cbn; [discriminate|].
  destruct (Ascii.eqb a c); [discriminate|]. destruct (split c s); discriminate.
Qed.

Lemma join_split c s : join c (split c s) = s.
Proof.
  induction s as [|a s IH]; [reflexivity|]. cbn [split].
  pose proof (split_nonempty c s) as Hn.
  destruct (split c s) as [|h t]; [congruence|].
  destruct (Ascii.eqb_spec a c) as [->|Hne].
  - rewrite <- IH. reflexivity.
  - rewrite <- IH. destruct t; reflexivity.
Qed.

Lemma split_inj c s t : split c s = split c t -> s = t.
Proof. intros E. rewrite <- (join_split c s), <- (join_split c t). now rewrite E. Qed.

Lemma prefixb_spec p q : prefixb p q = true <-> exists r, q = (p ++ r)%list.
Proof.
  revert q. induction p as [|a p IH]; intros q; cbn [prefixb].
  - split; [intros _; now exists q | reflexivity].
  - destruct q as [|b q].
    + split; [discriminate | intros [r Hr]; discriminate].
    + rewrite andb_true_iff, String.eqb_eq, IH. split.
      * intros [-> [r ->]]. now exists r.
      * intros [r Hr]. injection Hr as -> ->. split; [reflexivity | now exists r].
Qed.


Lemma includes_cons (c : ascii) (s p : string) :
  includes (String c s) p = startsWith (String c s) p || includes s p.
Proof. reflexivity. Qed.

Lemma includes_app (p x y : string) :
  includes x y = true -> includes (p ++ x) y = true.
Proof.
  intros Hx. induction p as [|c p IH]; [exact Hx|].
  change (String c p ++ x) with (String c (p ++ x)).
  rewrite includes_cons, IH. apply orb_true_r.
Qed.

(** A segment [.git] that is not the last one shows in one of the two
    substring tests of [decideFile]. *)
Lemma git_segment_tests (l : list string) :
  In ".git" (removelast l) ->
  startsWith (join slash l) ".git/" = true \/ includes (join slash l) "/.git/" = true.
Proof.
  induction l as [|p t IH]; [intros []|].
  destruct t as [|q t]; [intros []|].
  change (removelast (p :: q :: t)) with (p :: removelast (q :: t)).
  change (join slash (p :: q :: t)) with (p ++ String slash (join slash (q :: t))).
  intros [-> | Hin].
  - left. reflexivity.
  - right. apply includes_app. rewrite includes_cons.
    destruct (IH Hin) as [Hs | Hi].
    + change (startsWith (String slash (join slash (q :: t))) "/.git/")
        with (Ascii.eqb "/" slash && startsWith (join slash (q :: t)) ".git/").
      now rewrite Hs.
    + rewrite Hi. apply orb_true_r.
Qed.

(** ** Classifier *)

Section ClassifierFacts.
Context `{Host} `{PathModule}.
Variable fs : FileSystem.

Lemma scan_indices (f : Z -> bool) (l pad : list Z) (d : Z) :
  existsb (fun i => f (nth i (l ++ pad)%list d)) (seq 0 (length l)) = existsb f l.
Proof.
  induction l as [|b l IH]; [reflexivity|].
  cbn [length seq existsb]. rewrite <- seq_shift.
  cbn [app nth]. f_equal. rewrite <- IH.
  generalize (seq 0 (length l)). intros idx.
  induction idx as [|i idx IHi]; [reflexivity|].
  cbn [map existsb nth]. now rewrite IHi.
Qed.

Lemma looksBinary_spec (filePath : string) :
  looksBinary fs filePath
  = spec_isBinary (toLowerCase (extname filePath)) (read_bytes fs filePath).
Proof.
  unfold looksBinary, spec_isBinary.
  destruct (has FORCE_TEXT_EXTENSIONS _); [reflexivity|].
  destruct (has BINARY_EXTENSIONS _); [reflexivity|].
  destruct (read_bytes fs filePath) as [content|]; [|reflexivity].
  unfold filled_buffer.
  rewrite (scan_indices (fun b => b =? 0) (firstn BUFFER_SIZE content)).
  rewrite firstn_app, Nat.sub_diag, firstn_all, firstn_O, app_nil_r.
  destruct (existsb _ _); [reflexivity|].
  destruct (decodeUtf8 _); reflexivity.
Qed.

(** C4. A candidate that is neither [ignored] nor [too_large] is
    included; it is binary exactly when its extension is on the
    deny-list and not on the allow-list, or is on neither and the first
    8192 bytes hold a zero byte, do not decode as UTF-8, or cannot be
    read; the reason is [binary] then and [ok] otherwise. *)
Theorem decideFile_binary_or_ok (filePath repoRoot : string) (maxBytes : Z) :
  reason (decision (decideFile fs filePath repoRoot maxBytes)) <> ignored ->
  reason (decision (decideFile fs filePath repoRoot maxBytes)) <> too_large ->
  decision (decideFile fs filePath repoRoot maxBytes)
  = mkDecision true
      (if spec_isBinary (toLowerCase (extname filePath)) (read_bytes fs filePath)
       then binary else ok).
Proof.
  unfold decideFile. rewrite looksBinary_spec.
  destruct (_ || _); [intros E; now destruct E|].
  destruct (_ && _); [intros _ E; now destruct E|].
  intros _ _. destruct (spec_isBinary _ _); reflexivity.
Qed.

(** The three tests of line 107 do yield [ignored], whatever the size,
    the extension and the content. *)
Lemma decideFile_ignored (filePath repoRoot : string) (maxBytes : Z) :
  let r := join slash (split slash (relative repoRoot filePath)) in
  r = ".git" \/ startsWith r ".git/" = true \/ includes r "/.git/" = true ->
  decision (decideFile fs filePath repoRoot maxBytes) = mkDecision false ignored.
Proof.
  intros r Hr. unfold decideFile. fold r.
  assert (String.eqb r ".git" || startsWith r ".git/" || includes r "/.git/" = true)
    as ->; [|reflexivity].
  destruct Hr as [-> | [-> | ->]];
    [reflexivity | apply orb_true_iff; left; apply orb_true_r | apply orb_true_r].
Qed.

(** So is every path with a segment [.git] other than its last one. *)
Lemma decideFile_git_segment (filePath repoRoot : string) (maxBytes : Z) :
  In ".git" (removelast (split slash (relative repoRoot filePath))) ->
  decision (decideFile fs filePath repoRoot maxBytes) = mkDecision false ignored.
Proof.
  intros Hin. apply decideFile_ignored. right. now apply git_segment_tests.
Qed.

End ClassifierFacts.

Module ClassifierExamples.
Import Demo.

Example zero_byte_txt :
  decision (decideFile fs "/repo/notes.txt" "/repo" MAX_DEFAULT_BYTES)
  = mkDecision true binary.
Proof. reflexivity. Qed.

Example zero_byte_html :
  decision (decideFile fs "/repo/page.html" "/repo" MAX_DEFAULT_BYTES)
  = mkDecision true ok.
Proof. reflexivity. Qed.

Example csv_too_large :
  decision (decideFile fs "/repo/data.csv" "/repo" MAX_DEFAULT_BYTES)
  = mkDecision false too_large.
Proof. reflexivity. Qed.

Example git_config_ignored :
  decision (decideFile fs "/repo/.git/config" "/repo" MAX_DEFAULT_BYTES)
  = mkDecision false ignored.
Proof. reflexivity. Qed.

Lemma decideFile_binary_or_ok_witness :
  reason (decision (decideFile fs "/repo/notes.txt" "/repo" MAX_DEFAULT_BYTES)) <> ignored
  /\ reason (decision (decideFile fs "/repo/notes.txt" "/repo" MAX_DEFAULT_BYTES)) <> too_large
  /\ decision (decideFile fs "/repo/notes.txt" "/repo" MAX_DEFAULT_BYTES)
     = mkDecision true binary.
Proof.
  assert (reason (decision (decideFile fs "/repo/notes.txt" "/repo" MAX_DEFAULT_BYTES))
          <> ignored) as H1 by (vm_compute; discriminate).
  assert (reason (decision (decideFile fs "/repo/notes.txt" "/repo" MAX_DEFAULT_BYTES))
          <> too_large) as H2 by (vm_compute; discriminate).
  split; [exact H1 | split; [exact H2 |]].
  rewrite (decideFile_binary_or_ok fs "/repo/notes.txt" "/repo" MAX_DEFAULT_BYTES H1 H2).
  reflexivity.
Defined.

(** C5. A file named [.git] below the top level (the link file of a
    submodule or worktree) has a segment equal to [.git], and is
    classified as included text: none of the three tests of line 107
    matches a path that ends in [/.git]. *)
Theorem nested_git_file_not_ignored :
  In ".git" (split slash "sub/.git")
  /\ decideFile fs "/repo/sub/.git" "/repo" MAX_DEFAULT_BYTES
     = mkInfo "/repo/sub/.git" "sub/.git" 3 (mkDecision true ok).
Proof. split; [right; left; reflexivity | reflexivity]. Qed.

End ClassifierExamples.

(** ** The pinned readme *)

Lemma findReadme_none (l : list Info) (i : Z) :
  Forall (fun y => isTopLevelReadme y = false) l -> findReadme l i = -1.
Proof.
  intros Hl. revert i. induction Hl as [|y l Hy _ IH]; intros i; cbn.
  - reflexivity.
  - rewrite Hy. apply IH.
Qed.

Lemma findReadme_first (pre post : list Info) (x : Info) (i : Z) :
  Forall (fun y => isTopLevelReadme y = false) pre ->
  isTopLevelReadme x = true ->
  findReadme (pre ++ x :: post) i = i + Z.of_nat (length pre).
Proof.
  intros Hpre Hx. revert i. induction Hpre as [|y pre Hy _ IH]; intros i.
  - cbn. rewrite Hx. lia.
  - cbn [app findReadme length]. rewrite Hy, IH. lia.
Qed.

(** Every list either has a first top-level readme or has none. *)
Lemma first_readme_split (l : list Info) :
  (exists pre x post, l = (pre ++ x :: post)%list
     /\ Forall (fun y => isTopLevelReadme y = false) pre
     /\ isTopLevelReadme x = true)
  \/ Forall (fun y => isTopLevelReadme y = false) l.
Proof.
  induction l as [|y l IH].
  - right. constructor.
  - destruct (isTopLevelReadme y) eqn:Hy.
    + left. exists [], y, l. repeat split; [constructor | exact Hy].
    + destruct IH as [(pre & x & post & -> & Hpre & Hx) | Hl].
      * left. exists (y :: pre), x, post. repeat split; [now constructor | exact Hx].
      * right. now constructor.
Qed.

Lemma relocateReadme_first (pre post : list Info) (x : Info) :
  Forall (fun y => isTopLevelReadme y = false) pre ->
  isTopLevelReadme x = true ->
  relocateReadme (pre ++ x :: post) = (x :: pre ++ post)%list.
Proof.
  intros Hpre Hx. unfold relocateReadme.
  rewrite (findReadme_first pre post x 0 Hpre Hx), Z.add_0_l.
  destruct pre as [|y pre]; [reflexivity|].
  replace (0 <? Z.of_nat (length (y :: pre))) with true
    by (symmetry; apply Z.ltb_lt; cbn [length]; lia).
  rewrite Nat2Z.id.
  rewrite nth_error_app2, Nat.sub_diag by reflexivity. cbn [nth_error].
  rewrite firstn_app, Nat.sub_diag, firstn_all, firstn_O, app_nil_r.
  rewrite skipn_app, skipn_all2 by lia.
  replace (S (length (y :: pre)) - length (y :: pre))%nat with 1%nat by lia.
  reflexivity.
Qed.

Lemma relocateReadme_none (l : list Info) :
  Forall (fun y => isTopLevelReadme y = false) l -> relocateReadme l = l.
Proof.
  intros Hl. unfold relocateReadme. now rewrite (findReadme_none l 0 Hl).
Qed.

Lemma isTopLevelReadme_true (x : Info) :
  isTopLevelReadme x = true <-> TopLevelReadme x.
Proof.
  unfold isTopLevelReadme, TopLevelReadme. destruct (includes (rel x) "/").
  - split; [discriminate | intros [? _]; discriminate].
  - rewrite orb_true_iff, String.eqb_eq. tauto.
Qed.

Lemma isTopLevelReadme_false (x : Info) :
  isTopLevelReadme x = false <-> ~ TopLevelReadme x.
Proof.
  rewrite <- isTopLevelReadme_true. destruct (isTopLevelReadme x); split; congruence.
Qed.

Lemma relocateReadme_Permutation (l : list Info) : Permutation (relocateReadme l) l.
Proof.
  destruct (first_readme_split l) as [(pre & x & post & -> & Hpre & Hx) | Hl].
  - rewrite (relocateReadme_first pre post x Hpre Hx). apply Permutation_middle.
  - now rewrite relocateReadme_none.
Qed.

Section ReadmeFacts.
Context `{Host}.
Variable git : Git.

Lemma buildHtml_rendered_eq (infos : list Info) (sortMode : string)
    (log log' : list Query) (sorted : option (list Info)) :
  sortRendered git infos sortMode log = (sorted, log') ->
  buildHtml_rendered git infos sortMode log = (relocateReadme <$> sorted, log').
Proof.
  intros Hs. unfold buildHtml_rendered, mbind, Proc_bind. now rewrite Hs.
Qed.

(** C6. Whatever the sort mode, when the sorted list holds a top-level
    readme the final order is the first one of them followed by the
    other elements in their sorted order; otherwise the final order is
    the sorted one.  The element that moves has no separator in its
    path. *)
Theorem readme_relocated_to_front (infos : list Info) (sortMode : string)
    (log log' : list Query) (sorted : list Info) :
  sortRendered git infos sortMode log = (Some sorted, log') ->
  exists final,
    buildHtml_rendered git infos sortMode log = (Some final, log')
    /\ ((exists pre x post,
            sorted = (pre ++ x :: post)%list
            /\ final = (x :: pre ++ post)%list
            /\ TopLevelReadme x
            /\ Forall (fun y => ~ TopLevelReadme y) pre)
        \/ (final = sorted /\ Forall (fun y => ~ TopLevelReadme y) sorted)).
Proof.
  intros Hs. exists (relocateReadme sorted).
  split; [exact (buildHtml_rendered_eq _ _ _ _ _ Hs)|].
  destruct (first_readme_split sorted) as [(pre & x & post & -> & Hpre & Hx) | Hl].
  - left. exists pre, x, post.
    split; [reflexivity|].
    split; [now apply relocateReadme_first|].
    split; [now apply isTopLevelReadme_true|].
    apply List.Forall_forall. intros y Hy. apply isTopLevelReadme_false.
    exact (proj1 (List.Forall_forall _ _) Hpre y Hy).
  - right. split; [now apply relocateReadme_none|].
    apply List.Forall_forall. intros y Hy. apply isTopLevelReadme_false.
    exact (proj1 (List.Forall_forall _ _) Hl y Hy).
Qed.

End ReadmeFacts.

Module ReadmeExamples.
Import Demo.

Example readme_first :
  fst (buildHtml_rendered no_git
         [file "a.txt"; file "README.md"; file "sub/README.md"] "filename" [])
  = Some [file "README.md"; file "a.txt"; file "sub/README.md"].
Proof. reflexivity. Qed.

Example nested_readme_stays :
  fst (buildHtml_rendered no_git [file "a.txt"; file "sub/README.md"] "filename" [])
  = Some [file "a.txt"; file "sub/README.md"].
Proof. reflexivity. Qed.

Lemma readme_relocated_to_front_witness :
  exists final,
    buildHtml_rendered no_git
      [file "a.txt"; file "README.md"; file "sub/README.md"] "filename" []
    = (Some final, [])
    /\ ((exists pre x post,
            [file "a.txt"; file "README.md"; file "sub/README.md"]
            = (pre ++ x :: post)%list
            /\ final = (x :: pre ++ post)%list
            /\ TopLevelReadme x
            /\ Forall (fun y => ~ TopLevelReadme y) pre)
        \/ (final = [file "a.txt"; file "README.md"; file "sub/README.md"]
            /\ Forall (fun y => ~ TopLevelReadme y)
                 [file "a.txt"; file "README.md"; file "sub/README.md"])).
Proof.
  apply (readme_relocated_to_front no_git
           [file "a.txt"; file "README.md"; file "sub/README.md"] "filename" [] []).
  reflexivity.
Defined.

End ReadmeExamples.

(** ** History age resolver: the bulk phase *)

Lemma set_delete_In (x r : string) (set : list string) :
  In x (set_delete r set) <-> In x set /\ x <> r.
Proof.
  unfold set_delete. rewrite filter_In, negb_true_iff, String.eqb_neq. tauto.
Qed.

Lemma uniq_In (x : string) (l : list string) : In x (uniq l) <-> In x l.
Proof.
  induction l as [|y l IH]; [tauto|]. cbn [uniq In].
  change (List.filter _ (uniq l)) with (set_delete y (uniq l)).
  rewrite set_delete_In, IH.
  destruct (String.eqb_spec x y) as [->|Hne]; [tauto|].
  split; [intros [E | [Hx _]]; [now left | now right] | intros [E | Hx]; [now left|]].
  right. now split.
Qed.

Lemma uniq_NoDup (l : list string) : List.NoDup (uniq l).
Proof.
  induction l as [|y l IH]; cbn [uniq]; constructor.
  - change (List.filter _ (uniq l)) with (set_delete y (uniq l)).
    rewrite set_delete_In. tauto.
  - now apply List.NoDup_filter.
Qed.

Section BulkFacts.
Context `{Host}.

Lemma bulkStep_Break (rawLine : string) (st st' : BulkState) :
  bulkStep rawLine st = Break st' -> st' = st /\ pending st = [].
Proof.
  unfold bulkStep. destruct (stripCR rawLine) as [|c line]; [discriminate|].
  destruct (currentTimestamp st) as [ts|].
  - destruct (pending st) as [|p ps] eqn:Hp.
    + intros [= <-]. now split.
    + destruct (negb _); [discriminate|]. destruct (fileAges st !! _); discriminate.
  - destruct (Number_ _); discriminate.
Qed.

(** A turn that finds nothing pending changes neither the ages nor the
    pending set. *)
Lemma bulkStep_done (rawLine : string) (st : BulkState) :
  pending st = [] ->
  pending (control_state (bulkStep rawLine st)) = []
  /\ fileAges (control_state (bulkStep rawLine st)) = fileAges st.
Proof.
  intros Hp. unfold bulkStep. destruct (stripCR rawLine) as [|c line].
  - cbn. now split.
  - destruct (currentTimestamp st) as [ts|].
    + rewrite Hp. cbn. now split.
    + destruct (Number_ _); cbn; now split.
Qed.


Lemma bulkStep_pending (rawLine : string) (st : BulkState) (r : string) :
  In r (pending (control_state (bulkStep rawLine st))) -> In r (pending st).
Proof.
  unfold bulkStep. destruct (stripCR rawLine) as [|c line]; [trivial|].
  destruct (currentTimestamp st) as [ts|].
  - destruct (pending st) as [|p ps] eqn:Hp; [cbn; now rewrite Hp|].
    rewrite <- Hp.
    destruct (negb _); [trivial|].
    destruct (fileAges st !! String c line); [trivial|].
    cbn. rewrite set_delete_In. tauto.
  - destruct (Number_ _); trivial.
Qed.

Lemma bulkStep_inv (rawLine : string) (st : BulkState) :
  bulk_inv st -> bulk_inv (control_state (bulkStep rawLine st)).
Proof.
  intros Hi. pose proof Hi as [Hnd Hnone]. unfold bulkStep.
  destruct (stripCR rawLine) as [|c line]; [now split|].
  destruct (currentTimestamp st) as [ts|].
  - destruct (pending st) as [|p ps] eqn:Hp; [exact Hi|].
    rewrite <- Hp in *.
    destruct (negb _); [exact Hi|].
    destruct (fileAges st !! String c line) eqn:Hl; [exact Hi|].
    split; cbn.
    + now apply List.NoDup_filter.
    + intros r Hr. apply set_delete_In in Hr as [Hr Hne].
      rewrite lookup_insert_ne by congruence. now apply Hnone.
  - destruct (Number_ _); exact Hi.
Qed.

(** The turn that meets a pending path under a block timestamp records
    that timestamp for it and takes it off the pending set. *)
Lemma bulkStep_records (rawLine : string) (st : BulkState) (ts : Z) :
  bulk_inv st ->
  currentTimestamp st = Some ts ->
  stripCR rawLine <> "" ->
  In (stripCR rawLine) (pending st) ->
  exists st', bulkStep rawLine st = Continue st'
    /\ fileAges st' !! stripCR rawLine = Some ts
    /\ ~ In (stripCR rawLine) (pending st')
    /\ currentTimestamp st' = Some ts.
Proof.
  intros [_ Hnone] Hts Hne Hin. unfold bulkStep.
  destruct (stripCR rawLine) as [|c line]; [congruence|].
  rewrite Hts. destruct (pending st) as [|p ps] eqn:Hp; [destruct Hin|].
  rewrite <- Hp in *.
  rewrite (proj2 (has_true _ _) Hin). cbn [negb].
  rewrite (Hnone _ Hin).
  eexists. split; [reflexivity|]. cbn. split; [apply lookup_insert_eq|].
  split; [|reflexivity]. rewrite set_delete_In. tauto.
Qed.

Lemma bulkLoop_done (lines : list string) (st : BulkState) :
  pending st = [] ->
  pending (bulkLoop lines st) = [] /\ fileAges (bulkLoop lines st) = fileAges st.
Proof.
  revert st. induction lines as [|l lines IH]; intros st Hp; [now split|].
  destruct (bulkStep_done l st Hp) as [Hp' Ha']. cbn [bulkLoop].
  destruct (bulkStep l st) as [st'|st']; cbn in Hp', Ha'.
  - destruct (IH st' Hp') as [? ?]. split; congruence.
  - now split.
Qed.


Lemma bulkLoop_pending (lines : list string) (st : BulkState) (r : string) :
  In r (pending (bulkLoop lines st)) -> In r (pending st).
Proof.
  revert st. induction lines as [|l lines IH]; intros st; [trivial|].
  pose proof (bulkStep_pending l st r) as Hk. cbn [bulkLoop].
  destruct (bulkStep l st) as [st'|st']; cbn in Hk; [|exact Hk].
  intros Hr. apply Hk. now apply IH.
Qed.

Lemma bulkLoop_inv (lines : list string) (st : BulkState) :
  bulk_inv st -> bulk_inv (bulkLoop lines st).
Proof.
  revert st. induction lines as [|l lines IH]; intros st Hi; [exact Hi|].
  pose proof (bulkStep_inv l st Hi) as Hk. cbn [bulkLoop].
  destruct (bulkStep l st) as [st'|st']; cbn in Hk; [now apply IH | exact Hk].
Qed.

(** As long as something is pending the loop has not left early, and
    walking a list of lines is walking its two halves in turn. *)
Lemma bulkLoop_app (pre rest : list string) (st : BulkState) :
  pending (bulkLoop pre st) <> [] ->
  bulkLoop (pre ++ rest) st = bulkLoop rest (bulkLoop pre st).
Proof.
  revert st. induction pre as [|l pre IH]; intros st Hp; [reflexivity|].
  cbn [app bulkLoop] in *. destruct (bulkStep l st) as [st'|st'] eqn:Hs.
  - now apply IH.
  - apply bulkStep_Break in Hs as [-> Hs]. contradiction.
Qed.

(** A block none of whose lines reads as a finite number is walked
    without effect. *)
Lemma bulkLoop_skips_unparsed (block rest : list string) (st : BulkState) :
  currentTimestamp st = None ->
  Forall (fun l => stripCR l <> "" /\ isFinite (Number_ (trim (stripCR l))) = false)
    block ->
  bulkLoop (block ++ rest) st = bulkLoop rest st.
Proof.
  intros Hts Hblock. induction Hblock as [|l block [Hne Hnum] _ IH]; [reflexivity|].
  cbn [app bulkLoop]. unfold bulkStep.
  destruct (stripCR l) as [|c line]; [congruence|].
  rewrite Hts. destruct (Number_ _); try exact IH. discriminate.
Qed.

Lemma bulkInit_inv (relPaths : list string) :
  bulk_inv (mkBulkState None (uniq relPaths) ∅).
Proof. split; cbn; [apply uniq_NoDup | intros; apply lookup_empty]. Qed.

End BulkFacts.

(** ** History age resolver: both phases *)

Section ResolverFacts.
Context `{Host}.
Variable git : Git.

Lemma bulkPhase_eq (relPaths : list string) (log : list Query) :
  bulkPhase git relPaths log
  = (match git BulkLog with
     | Some stdout => bulkLoop (split LF stdout) (mkBulkState None (uniq relPaths) ∅)
     | None => mkBulkState None (uniq relPaths) ∅
     end, (log ++ [BulkLog])%list).
Proof.
  unfold bulkPhase, mbind, Proc_bind, run. now destruct (git BulkLog).
Qed.

Lemma bulkPhase_inv (relPaths : list string) (log : list Query) :
  bulk_inv (fst (bulkPhase git relPaths log)).
Proof.
  rewrite bulkPhase_eq. cbn [fst]. destruct (git BulkLog).
  - apply bulkLoop_inv, bulkInit_inv.
  - apply bulkInit_inv.
Qed.

Lemma fallbackRecord_self (r : string) (answer : option string)
    (ages : gmap string Z) :
  fallbackRecord r answer ages !! r
  = match answer ≫= lastTimestamp with
    | Some t => Some t
    | None => ages !! r
    end.
Proof.
  unfold fallbackRecord, lastTimestamp. destruct answer as [stdout|]; [|reflexivity].
  cbn. destruct (tokens (trim stdout)) as [|p ps]; [reflexivity|].
  cbn [length Nat.ltb Nat.leb].
  destruct (Number_ _); try reflexivity. apply lookup_insert_eq.
Qed.

Lemma fallbackRecord_other (r r' : string) (answer : option string)
    (ages : gmap string Z) :
  r <> r' -> fallbackRecord r answer ages !! r' = ages !! r'.
Proof.
  intros Hne. unfold fallbackRecord. destruct answer as [stdout|]; [|reflexivity].
  destruct (_ <? _)%nat; [|reflexivity].
  destruct (Number_ _); try reflexivity. now apply lookup_insert_ne.
Qed.

(** The fallback loop asks once for each pending path, in order, and
    each answer only touches the entry of its own path. *)
Lemma fallbackLoop_spec (pend : list string) (ages : gmap string Z)
    (log : list Query) :
  List.NoDup pend ->
  snd (fallbackLoop git pend ages log) = (log ++ map FollowLog pend)%list
  /\ (forall r, In r pend ->
        fst (fallbackLoop git pend ages log) !! r
        = fallbackRecord r (git (FollowLog r)) ages !! r)
  /\ (forall r, ~ In r pend ->
        fst (fallbackLoop git pend ages log) !! r = ages !! r).
Proof.
  intros Hnd. revert ages log.
  induction Hnd as [|p pend Hp Hnd IH]; intros ages log.
  - cbn. rewrite app_nil_r. repeat split; intros r []. 
  - cbn [fallbackLoop]. unfold mbind, Proc_bind, run.
    destruct (IH (fallbackRecord p (git (FollowLog p)) ages) (log ++ [FollowLog p])%list)
      as (Hlog & Hin & Hout).
    split; [|split].
    + rewrite Hlog. cbn [map]. now rewrite <- app_assoc.
    + intros r [<- | Hr].
      * now rewrite Hout.
      * rewrite Hin by exact Hr.
        assert (p <> r) as Hne by (intros ->; contradiction).
        rewrite !fallbackRecord_self. rewrite fallbackRecord_other by exact Hne.
        reflexivity.
    + intros r Hr. rewrite Hout by (intros Hr'; apply Hr; now right).
      apply fallbackRecord_other. intros ->. apply Hr. now left.
Qed.

(** C7. After a bulk phase that leaves [pending st], the resolver asks
    the history service once for each of these paths, in order.  For
    such a path the final record holds the last white-space separated
    token of the answer when that token is a finite number; when the
    query fails, or its output has no token, or the last token is not a
    finite number, the path has no entry, and the aggregator gives it
    the age [Infinity]. *)
Theorem fallback_phase_per_file (relPaths : list string) (log log1 log2 : list Query)
    (st : BulkState) (ages : gmap string Z) :
  uniq relPaths <> [] ->
  bulkPhase git relPaths log = (st, log1) ->
  gatherOldestCommitTimes git relPaths log = (ages, log2) ->
  log2 = (log1 ++ map FollowLog (pending st))%list
  /\ forall r, In r (pending st) ->
       (forall stdout t,
           git (FollowLog r) = Some stdout -> lastTimestamp stdout = Some t ->
           ages !! r = Some t)
       /\ (git (FollowLog r) = None
           \/ (exists stdout, git (FollowLog r) = Some stdout
                              /\ lastTimestamp stdout = None) ->
           ages !! r = None /\ ageOrInfinity ages r = POSITIVE_INFINITY).
Proof.
  intros Hne Hbulk Hgather.
  pose proof (bulkPhase_inv relPaths log) as [Hnd Hnone].
  rewrite Hbulk in Hnd, Hnone. cbn [fst] in Hnd, Hnone.
  unfold gatherOldestCommitTimes in Hgather.
  destruct (uniq relPaths) as [|u us] eqn:Hu; [congruence|].
  unfold mbind, Proc_bind in Hgather. rewrite Hbulk in Hgather.
  destruct (fallbackLoop_spec (pending st) (fileAges st) log1 Hnd)
    as (Hlog & Hin & _).
  assert (ages = fst (fallbackLoop git (pending st) (fileAges st) log1)
          /\ log2 = snd (fallbackLoop git (pending st) (fileAges st) log1))
    as [-> ->].
  { destruct (pending st) as [|p ps].
    - cbn in Hgather. injection Hgather as <- <-. now split.
    - rewrite Hgather. now split. }
  split; [exact Hlog|]. intros r Hr.
  pose proof (Hin r Hr) as Hage. rewrite fallbackRecord_self, (Hnone r Hr) in Hage.
  split.
  - intros stdout t Hg Ht. rewrite Hage, Hg. cbn. now rewrite Ht.
  - intros Hfail.
    assert (git (FollowLog r) ≫= lastTimestamp = None) as Hn.
    { destruct Hfail as [-> | (stdout & -> & Hl)]; [reflexivity | exact Hl]. }
    rewrite Hn in Hage. split; [exact Hage|].
    unfold ageOrInfinity. now rewrite Hage.
Qed.

End ResolverFacts.

Module ResolverExamples.
Import Demo.

Example resolve_two_commits :
  fst (gatherOldestCommitTimes two_commits
         ["a.txt"; "b.txt"; "c.txt"; "d.txt"; "a.txt"] [])
  = <["c.txt" := 150]> (<["b.txt" := 200]> (<["a.txt" := 100]> ∅)).
Proof. vm_compute. reflexivity. Qed.

Example queries_two_commits :
  snd (gatherOldestCommitTimes two_commits
         ["a.txt"; "b.txt"; "c.txt"; "d.txt"; "a.txt"] [])
  = [BulkLog; FollowLog "c.txt"; FollowLog "d.txt"].
Proof. vm_compute. reflexivity. Qed.

(** After the bulk phase [c.txt] and [d.txt] are pending; the per-file
    query answers 300 and 150 for the first and nothing for the
    second. *)
Lemma fallback_phase_per_file_witness :
  pending (fst (bulkPhase two_commits requested [])) = ["c.txt"; "d.txt"]
  /\ fst (gatherOldestCommitTimes two_commits requested []) !! "c.txt" = Some 150
  /\ fst (gatherOldestCommitTimes two_commits requested []) !! "d.txt" = None.
Proof.
  pose proof (fallback_phase_per_file two_commits requested
                [] [BulkLog] [BulkLog; FollowLog "c.txt"; FollowLog "d.txt"]
                (fst (bulkPhase two_commits requested []))
                (fst (gatherOldestCommitTimes two_commits requested [])))
    as W.
  destruct W as [_ W].
  - discriminate.
  - vm_compute. reflexivity.
  - vm_compute. reflexivity.
  - split; [reflexivity|]. split.
    + apply (proj1 (W "c.txt" (or_introl eq_refl)) (lines ["300"; "150"; ""]) 150);
        reflexivity.
    + apply (proj2 (W "d.txt" (or_intror (or_introl eq_refl)))).
      right. exists EmptyString. split; reflexivity.
Defined.

(** C8. A first block whose timestamp line is not a number is not
    skipped as a whole: its line [2024], the name of a file, is taken
    for the block's timestamp, and [a.txt] below it is recorded with the
    age 2024 instead of the 100 of the well-formed block that follows,
    which would be its age without the malformed block. *)
Theorem malformed_block_leaks_timestamp :
  fileAges (fst (bulkPhase bad_block ["2024"; "a.txt"; "b.txt"] [])) !! "a.txt"
  = Some 2024
  /\ fileAges (fst (bulkPhase two_commits ["2024"; "a.txt"; "b.txt"] [])) !! "a.txt"
     = Some 100.
Proof. split; vm_compute; reflexivity. Qed.

End ResolverExamples.

(** ** Sorting *)

Section SortFacts.
Context {A : Type}.
Variable cmp : A -> A -> num.

Lemma insertSorted_Permutation (x : A) (l : list A) :
  Permutation (insertSorted cmp x l) (x :: l).
Proof.
  induction l as [|y l IH]; cbn [insertSorted]; [reflexivity|].
  destruct (num_sign (cmp x y)); try reflexivity.
  rewrite IH. apply perm_swap.
Qed.

Lemma sortBy_Permutation (l : list A) : Permutation (sortBy cmp l) l.
Proof.
  induction l as [|x l IH]; cbn [sortBy]; [reflexivity|].
  rewrite insertSorted_Permutation. now constructor.
Qed.

Hypothesis cmp_total : forall a b, num_sign (cmp a b) = Gt -> notAfter cmp b a.

Lemma insertSorted_Sorted (x : A) (l : list A) :
  Sorted (notAfter cmp) l -> Sorted (notAfter cmp) (insertSorted cmp x l).
Proof.
  induction 1 as [|y l Hl IH Hhd]; cbn [insertSorted].
  - repeat constructor.
  - destruct (num_sign (cmp x y)) eqn:Hxy.
    + repeat constructor; [assumption | assumption | unfold notAfter; congruence].
    + repeat constructor; [assumption | assumption | unfold notAfter; congruence].
    + constructor; [exact IH|].
      destruct l as [|z l]; cbn [insertSorted].
      * constructor. now apply cmp_total.
      * destruct (num_sign (cmp x z)); constructor;
          solve [now apply cmp_total | now inversion Hhd].
Qed.

Lemma sortBy_Sorted (l : list A) : Sorted (notAfter cmp) (sortBy cmp l).
Proof.
  induction l as [|x l IH]; cbn [sortBy]; [constructor|].
  now apply insertSorted_Sorted.
Qed.

Hypothesis cmp_trans :
  forall a b c, notAfter cmp a b -> notAfter cmp b c -> notAfter cmp a c.

Lemma sortBy_StronglySorted (l : list A) : StronglySorted (notAfter cmp) (sortBy cmp l).
Proof.
  apply Sorted_StronglySorted; [|apply sortBy_Sorted].
  intros a b c. apply cmp_trans.
Qed.

End SortFacts.

Section FilenameMode.
Context `{Host}.
Variable git : Git.

(** C9. In any mode other than ["age"] no history query is issued: the
    query log is returned as it was and the order does not depend on
    the history service.  Before the readme is moved the order is the
    included list sorted by [localeCompare] on the paths: a
    rearrangement of it in which no file stands before one that
    [localeCompare] puts in front of it, [localeCompare] being the
    consistent comparator (total and transitive) the runtime provides. *)
Theorem filename_mode_sorts_by_path (infos : list Info) (sortMode : string)
    (log : list Query) :
  sortMode <> "age" ->
  (forall a b, num_sign (localeCompare a b) = Gt -> num_sign (localeCompare b a) <> Gt) ->
  (forall a b c, num_sign (localeCompare a b) <> Gt ->
                 num_sign (localeCompare b c) <> Gt ->
                 num_sign (localeCompare a c) <> Gt) ->
  let included := List.filter (fun info => include (decision info)) infos in
  sortRendered git infos sortMode log = (Some (sortBy byRel included), log)
  /\ Permutation (sortBy byRel included) included
  /\ StronglySorted
       (fun a b => num_sign (localeCompare (rel a) (rel b)) <> Gt)
       (sortBy byRel included).
Proof.
  intros Hmode Htotal Htrans included. split; [|split].
  - unfold sortRendered. fold included.
    destruct (String.eqb_spec sortMode "age") as [E|_]; [contradiction|].
    destruct included; reflexivity.
  - apply sortBy_Permutation.
  - apply (sortBy_StronglySorted byRel).
    + intros a b. apply Htotal.
    + intros a b c. apply Htrans.
Qed.

End FilenameMode.

Module SortExamples.
Import Demo.

Lemma compare_lower_opp (a b : string) : compare_lower b a = - compare_lower a b.
Proof.
  revert b. induction a as [|x a IH]; intros [|y b]; cbn [compare_lower]; try reflexivity.
  destruct (Nat.ltb_spec (nat_of_ascii (lower_ascii x)) (nat_of_ascii (lower_ascii y)));
    destruct (Nat.ltb_spec (nat_of_ascii (lower_ascii y)) (nat_of_ascii (lower_ascii x)));
    try reflexivity; try lia. apply IH.
Qed.

Lemma compare_lower_trans (a b c : string) :
  compare_lower a b <= 0 -> compare_lower b c <= 0 -> compare_lower a c <= 0.
Proof.
  revert b c. induction a as [|x a IH]; intros [|y b] [|z c]; cbn [compare_lower];
    try lia.
  destruct (Nat.ltb_spec (nat_of_ascii (lower_ascii x)) (nat_of_ascii (lower_ascii y)));
    destruct (Nat.ltb_spec (nat_of_ascii (lower_ascii y)) (nat_of_ascii (lower_ascii x)));
    destruct (Nat.ltb_spec (nat_of_ascii (lower_ascii y)) (nat_of_ascii (lower_ascii z)));
    destruct (Nat.ltb_spec (nat_of_ascii (lower_ascii z)) (nat_of_ascii (lower_ascii y)));
    destruct (Nat.ltb_spec (nat_of_ascii (lower_ascii x)) (nat_of_ascii (lower_ascii z)));
    destruct (Nat.ltb_spec (nat_of_ascii (lower_ascii z)) (nat_of_ascii (lower_ascii x)));
    try lia.
  apply IH.
Qed.

Lemma sign_not_Gt (z : Z) : num_sign (Fin z) <> Gt <-> z <= 0.
Proof.
  cbn. destruct (Z.compare_spec z 0); split; intros; try lia; congruence.
Qed.

Example filename_order :
  fst (sortRendered no_git
         [file "b/c.txt"; file "Zebra.md"; file "apple.md"; file "a.txt"] "filename" [])
  = Some [file "a.txt"; file "apple.md"; file "b/c.txt"; file "Zebra.md"].
Proof. reflexivity. Qed.

Lemma filename_mode_sorts_by_path_witness :
  sortRendered two_commits
    [file "b/c.txt"; file "Zebra.md"; file "apple.md"; file "a.txt"] "filename" []
  = (Some [file "a.txt"; file "apple.md"; file "b/c.txt"; file "Zebra.md"], []).
Proof.
  refine (proj1 (filename_mode_sorts_by_path two_commits
                   [file "b/c.txt"; file "Zebra.md"; file "apple.md"; file "a.txt"]
                   "filename" [] _ _ _)).
  - discriminate.
  - intros a b Hgt. apply sign_not_Gt. cbn in Hgt.
    rewrite compare_lower_opp.
    destruct (Z.compare_spec (compare_lower a b) 0); try discriminate. lia.
  - intros a b c Hab Hbc. apply sign_not_Gt.
    apply (compare_lower_trans a b c); now apply sign_not_Gt.
Defined.

End SortExamples.

(** ** Hierarchical aggregator *)

Lemma map_get_set_eq {V} (k : string) (v : V) m : map_get k (map_set k v m) = Some v.
Proof.
  induction m as [|[k' v'] m IH]; cbn.
  - now rewrite String.eqb_refl.
  - destruct (String.eqb_spec k k') as [->|Hne]; cbn.
    + now rewrite String.eqb_refl.
    + destruct (String.eqb_spec k k'); [contradiction | exact IH].
Qed.

Lemma map_get_set_ne {V} (k k' : string) (v : V) m :
  k <> k' -> map_get k' (map_set k v m) = map_get k' m.
Proof.
  intros Hne. induction m as [|[k0 v0] m IH]; cbn.
  - destruct (String.eqb_spec k' k); [congruence | reflexivity].
  - destruct (String.eqb_spec k k0) as [->|Hne0]; cbn.
    + destruct (String.eqb_spec k' k0); [congruence | reflexivity].
    + destruct (String.eqb_spec k' k0); [reflexivity | exact IH].
Qed.

Lemma insertPath_cons2 part s rest info age ch :
  insertPath (part :: s :: rest) info age ch =
      match map_get part ch with
      | None =>
          sub ← insertPath (s :: rest) info age [];
          Some (map_set part (DirNode sub POSITIVE_INFINITY) ch)
      | Some (DirNode sub a) =>
          sub' ← insertPath (s :: rest) info age sub;
          Some (map_set part (DirNode sub' a) ch)
      | Some (FileNode _ _) => None
      end.
Proof. reflexivity. Qed.

(** [insertPath] throws exactly when the walk down the directories of the path meets a file. *)
Lemma insertPath_None segs info age ch :
  insertPath segs info age ch = None <-> meetsFile (removelast segs) ch = true.
Proof.
  revert ch. induction segs as [|part rest IH]; intros ch.
  - cbn. split; discriminate.
  - destruct rest as [|s rest].
    + cbn. split; discriminate.
    + rewrite insertPath_cons2. cbn [removelast meetsFile].
      change (match rest with [] => [] | _ :: _ => s :: removelast rest end)
        with (removelast (s :: rest)).
      destruct (map_get part ch) as [[i a|sub a]|].
      * tauto.
      * rewrite <- IH. destruct (insertPath (s :: rest) info age sub); cbn; split; congruence.
      * assert (insertPath (s :: rest) info age [] <> None) as Hn.
        { rewrite IH. clear. destruct (removelast (s :: rest)); cbn; discriminate. }
        destruct (insertPath (s :: rest) info age []); cbn; split; congruence.
Qed.

Lemma meetsFile_nil q : meetsFile q [] = false.
Proof. now destruct q. Qed.

Lemma nodeAt_nil q : q <> [] -> nodeAt q [] = false.
Proof. now destruct q. Qed.


Lemma insertPath_meets segs info age ch ch' :
  segs <> [] ->
  insertPath segs info age ch = Some ch' ->
  forall q, meetsFile q ch' = meetsFile q ch || prefixb segs q.
Proof.
  revert ch ch'. induction segs as [|part rest IH]; intros ch ch' Hne Hins q; [congruence|].
  destruct rest as [|s rest].
  - cbn in Hins. injection Hins as <-.
    destruct q as [|k q]; [reflexivity|]. cbn [meetsFile prefixb].
    destruct (String.eqb_spec part k) as [<-|Hk].
    + rewrite map_get_set_eq. cbn. now rewrite orb_true_r.
    + rewrite map_get_set_ne by exact Hk. cbn. now rewrite orb_false_r.
  - rewrite insertPath_cons2 in Hins.
    assert (s :: rest <> []) as Hne' by discriminate.
    destruct q as [|k q]; [reflexivity|]. cbn [meetsFile prefixb].
    destruct (map_get part ch) as [[i a|sub a]|] eqn:Hget; [discriminate| |].
    + destruct (insertPath (s :: rest) info age sub) as [sub'|] eqn:Hsub; [|discriminate].
      cbn in Hins. injection Hins as <-.
      destruct (String.eqb_spec part k) as [<-|Hk].
      * rewrite map_get_set_eq, Hget. cbn [andb]. now apply IH.
      * rewrite map_get_set_ne by exact Hk. cbn. now rewrite orb_false_r.
    + destruct (insertPath (s :: rest) info age []) as [sub'|] eqn:Hsub; [|discriminate].
      cbn in Hins. injection Hins as <-.
      destruct (String.eqb_spec part k) as [<-|Hk].
      * rewrite map_get_set_eq, Hget. cbn [andb orb].
        rewrite (IH _ _ Hne' Hsub q). now rewrite meetsFile_nil.
      * rewrite map_get_set_ne by exact Hk. cbn. now rewrite orb_false_r.
Qed.


Lemma leaves_set_new k v m :
  map_get k m = None -> leaves (map_set k v m) = (leaves m ++ node_leaves v)%list.
Proof.
  induction m as [|[k' v'] m IH]; cbn [map_get map_set]; intros Hget.
  - cbn. now rewrite app_nil_r.
  - destruct (String.eqb k k'); [discriminate|].
    unfold leaves in *. cbn [flat_map snd]. rewrite IH by exact Hget.
    now rewrite app_assoc.
Qed.

Lemma leaves_set_old k v n m :
  map_get k m = Some n ->
  exists others, Permutation (leaves m) (node_leaves n ++ others)
              /\ Permutation (leaves (map_set k v m)) (node_leaves v ++ others).
Proof.
  induction m as [|[k' v'] m IH]; cbn [map_get map_set]; intros Hget; [discriminate|].
  destruct (String.eqb k k').
  - injection Hget as ->. exists (leaves m). split; reflexivity.
  - destruct (IH Hget) as (others & H1 & H2).
    exists (node_leaves v' ++ others)%list. unfold leaves in *. cbn [flat_map snd].
    split.
    + rewrite H1. rewrite !app_assoc. apply Permutation_app_tail, Permutation_app_comm.
    + rewrite H2. rewrite !app_assoc. apply Permutation_app_tail, Permutation_app_comm.
Qed.

Lemma insertPath_adds segs info age ch :
  segs <> [] ->
  meetsFile (removelast segs) ch = false ->
  nodeAt segs ch = false ->
  exists ch', insertPath segs info age ch = Some ch'
    /\ Permutation (leaves ch') (info :: leaves ch)
    /\ forall q, nodeAt q ch' = nodeAt q ch || prefixb q segs.
Proof.
  revert ch. induction segs as [|part rest IH]; intros ch Hne Hmeet Hat; [congruence|].
  destruct rest as [|s rest].
  - cbn in Hat. eexists. split; [reflexivity|].
    destruct (map_get part ch) as [[i a|sub a]|] eqn:Hget; try discriminate.
    split.
    + rewrite leaves_set_new by exact Hget. cbn. symmetry. apply Permutation_cons_append.
    + intros [|k q]; [reflexivity|]. cbn [nodeAt prefixb].
      destruct (String.eqb_spec k part) as [->|Hk].
      * rewrite map_get_set_eq, Hget. cbn. now destruct q.
      * rewrite map_get_set_ne by congruence. cbn. now rewrite orb_false_r.
  - assert (s :: rest <> []) as Hne' by discriminate.
    rewrite insertPath_cons2.
    cbn [removelast meetsFile] in Hmeet.
    change (match rest with [] => [] | _ :: _ => s :: removelast rest end)
      with (removelast (s :: rest)) in Hmeet.
    cbn [nodeAt] in Hat.
    destruct (map_get part ch) as [[i a|sub a]|] eqn:Hget; [discriminate| |].
    + destruct (IH sub Hne' Hmeet Hat) as (sub' & Hsub & Hperm & Hnode).
      rewrite Hsub. cbn. eexists. split; [reflexivity|]. split.
      * destruct (leaves_set_old part (DirNode sub' a) _ ch Hget) as (others & H1 & H2).
        rewrite H2, H1. cbn [node_leaves]. fold (leaves sub) (leaves sub').
        rewrite Hperm. reflexivity.
      * intros [|k q]; [reflexivity|]. cbn [nodeAt prefixb].
        destruct (String.eqb_spec k part) as [->|Hk].
        -- rewrite map_get_set_eq, Hget. cbn [andb]. apply Hnode.
        -- rewrite map_get_set_ne by congruence. cbn. now rewrite orb_false_r.
    + destruct (IH [] Hne' (meetsFile_nil _) (nodeAt_nil _ Hne')) as (sub' & Hsub & Hperm & Hnode).
      rewrite Hsub. cbn. eexists. split; [reflexivity|]. split.
      * rewrite leaves_set_new by exact Hget. cbn [node_leaves]. fold (leaves sub').
        rewrite Hperm. cbn. symmetry. apply Permutation_cons_append.
      * intros [|k q]; [reflexivity|]. cbn [nodeAt prefixb].
        destruct (String.eqb_spec k part) as [->|Hk].
        -- rewrite map_get_set_eq, Hget. cbn [andb orb]. rewrite Hnode.
           destruct q; [reflexivity|]. now rewrite nodeAt_nil.
        -- rewrite map_get_set_ne by congruence. cbn. now rewrite orb_false_r.
Qed.


Lemma segments_nonempty info : segments info <> [].
Proof. apply split_nonempty. Qed.

Lemma buildTree_cons ages info rest ch :
  buildTree ages (info :: rest) ch
  = match insertPath (segments info) info (ageOrInfinity ages (rel info)) ch with
    | Some ch' => buildTree ages rest ch'
    | None => None
    end.
Proof. reflexivity. Qed.

Lemma buildTree_meets ages infos ch ch' :
  buildTree ages infos ch = Some ch' ->
  forall q, meetsFile q ch' = meetsFile q ch || existsb (fun a => prefixb (segments a) q) infos.
Proof.
  revert ch. induction infos as [|i infos IH]; intros ch Hb q.
  - cbn in Hb. injection Hb as <-. cbn. now rewrite orb_false_r.
  - rewrite buildTree_cons in Hb.
    destruct (insertPath _ _ _ ch) as [ch1|] eqn:Hins; [|discriminate].
    rewrite (IH _ Hb q), (insertPath_meets _ _ _ _ _ (segments_nonempty _) Hins q).
    cbn [existsb]. now rewrite orb_assoc.
Qed.

(** The tree building throws exactly when a file stands on the way to a later one. *)
Lemma buildTree_None ages infos ch :
  buildTree ages infos ch = None <->
  exists l1 b l2, infos = (l1 ++ b :: l2)%list
    /\ meetsFile (removelast (segments b)) ch
       || existsb (fun a => prefixb (segments a) (removelast (segments b))) l1 = true.
Proof.
  revert ch. induction infos as [|i infos IH]; intros ch.
  - cbn. split; [discriminate|]. intros (l1 & b & l2 & E & _). now destruct l1.
  - rewrite buildTree_cons.
    destruct (insertPath _ _ _ ch) as [ch1|] eqn:Hins.
    + rewrite IH. split.
      * intros (l1 & b & l2 & -> & Hb). exists (i :: l1), b, l2. split; [reflexivity|].
        rewrite (insertPath_meets _ _ _ _ _ (segments_nonempty _) Hins) in Hb.
        cbn [existsb]. now rewrite orb_assoc.
      * intros (l1 & b & l2 & E & Hb). destruct l1 as [|i' l1].
        -- cbn in E. injection E as <- <-. cbn in Hb. rewrite orb_false_r in Hb.
           apply insertPath_None with (info := i) (age := ageOrInfinity ages (rel i)) in Hb.
           congruence.
        -- cbn in E. injection E as <- ->. exists l1, b, l2. split; [reflexivity|].
           rewrite (insertPath_meets _ _ _ _ _ (segments_nonempty _) Hins).
           cbn [existsb] in Hb. now rewrite <- orb_assoc.
    + split; [|reflexivity]. intros _. exists [], i, infos. split; [reflexivity|].
      cbn. rewrite orb_false_r. now apply insertPath_None in Hins.
Qed.

Lemma buildTree_adds ages infos ch :
  ForallOrdPairs apart infos ->
  Forall (fun b => meetsFile (removelast (segments b)) ch = false
                   /\ nodeAt (segments b) ch = false) infos ->
  exists ch', buildTree ages infos ch = Some ch'
    /\ Permutation (leaves ch') (leaves ch ++ infos).
Proof.
  intros Hpairs. revert ch. induction Hpairs as [|i infos Hi Hpairs IH]; intros ch Hfree.
  - exists ch. split; [reflexivity|]. now rewrite app_nil_r.
  - inversion Hfree as [|? ? [Hm Hn] Hrest]; subst.
    destruct (insertPath_adds (segments i) i (ageOrInfinity ages (rel i)) ch
                (segments_nonempty _) Hm Hn) as (ch1 & Hins & Hperm & Hnode).
    rewrite buildTree_cons, Hins.
    destruct (IH ch1) as (ch' & Hb & Hperm').
    { rewrite List.Forall_forall in *. intros b Hb.
      destruct (Hrest b Hb) as [Hm' Hn']. destruct (Hi b Hb) as [Hab Hba].
      rewrite (insertPath_meets _ _ _ _ _ (segments_nonempty _) Hins), Hnode.
      rewrite Hm', Hn', Hab, Hba. now split. }
    exists ch'. split; [exact Hb|].
    rewrite Hperm', Hperm. cbn. apply Permutation_middle.
Qed.

Lemma Node_ind' (P : Node -> Prop) :
  (forall info age, P (FileNode info age)) ->
  (forall children age, Forall (fun e => P (snd e)) children -> P (DirNode children age)) ->
  forall n, P n.
Proof.
  intros Hfile Hdir. fix IH 1. intros [info age|children age].
  - apply Hfile.
  - apply Hdir. induction children as [|[k c] children IHc]; constructor.
    + apply IH.
    + exact IHc.
Qed.

Lemma minAgeLoop_leaves rec entries minAge :
  Forall (fun e => node_leaves (fst (rec (snd e))) = node_leaves (snd e)) entries ->
  leaves (fst (minAgeLoop rec entries minAge)) = leaves entries.
Proof.
  intros Hall. revert minAge. induction Hall as [|[k c] entries Hc _ IH]; intros minAge.
  - reflexivity.
  - cbn [minAgeLoop]. cbn [snd] in Hc. destruct (rec c) as [c' childAge].
    specialize (IH (if num_lt childAge minAge then childAge else minAge)).
    destruct (minAgeLoop rec entries _) as [rest' m]. cbn [fst] in *.
    unfold leaves in *. cbn [flat_map snd]. now rewrite Hc, IH.
Qed.

Lemma computeDirectoryAge_leaves n :
  node_leaves (fst (computeDirectoryAge n)) = node_leaves n.
Proof.
  induction n as [info age|children age IH] using Node_ind'; [reflexivity|].
  cbn [computeDirectoryAge].
  pose proof (minAgeLoop_leaves computeDirectoryAge children POSITIVE_INFINITY IH) as Hl.
  destruct (minAgeLoop computeDirectoryAge children POSITIVE_INFINITY) as [children' m].
  exact Hl.
Qed.

Lemma computeDirectoryAge_dir children age :
  exists children' age',
    fst (computeDirectoryAge (DirNode children age)) = DirNode children' age'.
Proof.
  cbn [computeDirectoryAge].
  destruct (minAgeLoop computeDirectoryAge children POSITIVE_INFINITY) as [children' m].
  now exists children', m.
Qed.

Lemma depth_child k c children age :
  In (k, c) children -> (S (depth c) <= depth (DirNode children age))%nat.
Proof.
  cbn [depth]. intros Hin. apply le_n_S.
  induction children as [|e children IH]; [destruct Hin|].
  cbn [fold_right]. destruct Hin as [-> | Hin]; [cbn; lia|].
  specialize (IH Hin). lia.
Qed.

Lemma flat_map_Permutation_ext {A B} (f g : A -> list B) l :
  (forall x, In x l -> Permutation (f x) (g x)) ->
  Permutation (flat_map f l) (flat_map g l).
Proof.
  induction l as [|x l IH]; intros Hfg; [reflexivity|].
  cbn [flat_map]. apply Permutation_app.
  - apply Hfg. now left.
  - apply IH. intros y Hy. apply Hfg. now right.
Qed.

Section CollectFacts.
Context `{Host}.

Lemma collect_fuel fuel children age parentPath :
(depth (DirNode children age) <= fuel)%nat ->
Permutation (collectFilesByAge fuel (DirNode children age) parentPath) (leaves children).
Proof.
revert children age parentPath.
induction fuel as [|fuel IH]; intros children age parentPath Hd.
- cbn [depth] in Hd. lia.
- cbn [collectFilesByAge]. unfold leaves.
  rewrite (Permutation_flat_map _ (sortBy_Permutation (entryCompare parentPath) children)).
  apply flat_map_Permutation_ext. intros [k c] Hin. cbn [fst snd].
  destruct c as [info a|sub a]; [reflexivity|].
  apply IH. pose proof (depth_child k _ children age Hin). lia.
Qed.
End CollectFacts.

Lemma prefixb_full_or_proper (p s : list string) :
  prefixb p s = true -> p = s \/ prefixb p (removelast s) = true.
Proof.
  intros Hp. apply prefixb_spec in Hp as [r ->].
  destruct r as [|x r].
  - left. now rewrite app_nil_r.
  - right. rewrite removelast_app by discriminate. apply prefixb_spec. eauto.
Qed.

Lemma properPathPrefix_b (a b : string) :
  properPathPrefix a b
  <-> prefixb (split slash a) (removelast (split slash b)) = true.
Proof.
  unfold properPathPrefix. split.
  - intros (r & Hr & ->). rewrite removelast_app by exact Hr.
    apply prefixb_spec. eauto.
  - intros Hp. apply prefixb_spec in Hp as [r Hr].
    exists (r ++ [List.last (split slash b) EmptyString])%list. split.
    + now destruct r.
    + rewrite app_assoc, <- Hr. apply app_removelast_last, split_nonempty.
  Qed.

(** Distinct paths none of which is a proper path-prefix of another stay
    apart, in whatever order they are inserted. *)
Lemma prefix_free_apart (l : list Info) :
  List.NoDup (map rel l) ->
  (forall a b, In a l -> In b l -> ~ properPathPrefix (rel a) (rel b)) ->
  ForallOrdPairs apart l.
Proof.
  induction l as [|a l IH]; intros Hnd Hfree; [constructor|].
  inversion Hnd as [|? ? Ha Hnd']; subst. constructor.
  - apply List.Forall_forall. intros b Hb. split.
    + destruct (prefixb _ _) eqn:Hp; [|reflexivity]. exfalso.
      apply (Hfree a b); [now left | now right | now apply properPathPrefix_b].
    + destruct (prefixb (segments b) (segments a)) eqn:Hp; [|reflexivity]. exfalso.
      destruct (prefixb_full_or_proper _ _ Hp) as [E | Hproper].
      * apply Ha. apply split_inj in E. rewrite <- E. now apply in_map.
      * apply (Hfree b a); [now right | now left | now apply properPathPrefix_b].
  - apply IH; [exact Hnd'|]. intros x y Hx Hy. apply Hfree; now right.
Qed.

Section AggregatorFacts.
Context `{Host}.

Lemma orderInfosByOldest_None (infos : list Info) (ages : gmap string Z) :
  orderInfosByOldest infos ages = None <-> buildTree ages infos [] = None.
Proof.
  unfold orderInfosByOldest. destruct (buildTree ages infos []); cbn; split; congruence.
Qed.

(** The traversal returns the files of the tree that was built. *)
Lemma orderInfosByOldest_leaves (infos : list Info) (ages : gmap string Z)
    (children : list (string * Node)) :
  buildTree ages infos [] = Some children ->
  exists ordered, orderInfosByOldest infos ages = Some ordered
                  /\ Permutation ordered (leaves children).
Proof.
  intros Hb. unfold orderInfosByOldest. rewrite Hb. cbn [mbind option_bind].
  pose proof (computeDirectoryAge_leaves (DirNode children POSITIVE_INFINITY)) as Hl.
  destruct (computeDirectoryAge_dir children POSITIVE_INFINITY) as (ch' & a' & E).
  rewrite E in *. cbn [node_leaves] in Hl. fold (leaves ch') (leaves children) in Hl.
  eexists. split; [reflexivity|].
  rewrite <- Hl. now apply collect_fuel.
Qed.

Lemma orderInfosByOldest_Permutation (infos : list Info) (ages : gmap string Z) :
  List.NoDup (map rel infos) ->
  (forall a b, In a infos -> In b infos -> ~ properPathPrefix (rel a) (rel b)) ->
  exists ordered, orderInfosByOldest infos ages = Some ordered
                  /\ Permutation ordered infos.
Proof.
  intros Hnd Hfree.
  destruct (buildTree_adds ages infos [] (prefix_free_apart infos Hnd Hfree))
    as (children & Hb & Hperm).
  { apply List.Forall_forall. intros b _. split.
    - apply meetsFile_nil.
    - apply nodeAt_nil, segments_nonempty. }
  destruct (orderInfosByOldest_leaves infos ages children Hb) as (ordered & Ho & Hp).
  exists ordered. split; [exact Ho|]. now rewrite Hp, Hperm.
Qed.

(** C1, as the code has it.  With the ages [a.txt: 100], [b/c.txt: 50]
    and none for [b/d.txt], the order is [b/c.txt], [b/d.txt], [a.txt]:
    the directory [b] has the age 50 and is visited as a whole before
    [a.txt]; within it the unknown age of [b/d.txt] comes last. *)
Theorem age_order_example (fa fc fd : Info) (ages : gmap string Z) :
  rel fa = "a.txt" -> rel fc = "b/c.txt" -> rel fd = "b/d.txt" ->
  ages !! "a.txt" = Some 100 -> ages !! "b/c.txt" = Some 50 ->
  ages !! "b/d.txt" = None ->
  orderInfosByOldest [fa; fc; fd] ages = Some [fc; fd; fa].
Proof.
  intros Ha Hc Hd A100 C50 Dnone.
  unfold orderInfosByOldest, buildTree, ageOrInfinity.
  rewrite Ha, Hc, Hd, A100, C50, Dnone. reflexivity.
Qed.

(** C10, as the code has it.  [orderInfosByOldest] throws exactly when
    some path stands in the list before a path of which it is a proper
    path-prefix; in particular it returns an order when no path is a
    proper path-prefix of another. *)
Theorem orderInfosByOldest_throws_iff (infos : list Info) (ages : gmap string Z) :
  (orderInfosByOldest infos ages = None <->
   exists l1 a l2 b l3,
     infos = (l1 ++ a :: l2 ++ b :: l3)%list /\ properPathPrefix (rel a) (rel b))
  /\ ((forall a b, In a infos -> In b infos -> ~ properPathPrefix (rel a) (rel b)) ->
      orderInfosByOldest infos ages <> None).
Proof.
  assert (orderInfosByOldest infos ages = None <->
          exists l1 a l2 b l3,
            infos = (l1 ++ a :: l2 ++ b :: l3)%list
            /\ properPathPrefix (rel a) (rel b)) as Hiff.
  { rewrite orderInfosByOldest_None, buildTree_None. split.
    - intros (l & b & l3 & -> & Hb). rewrite meetsFile_nil in Hb. cbn [orb] in Hb.
      apply existsb_exists in Hb as (a & Ha & Hp).
      apply in_split in Ha as (l1 & l2 & ->).
      exists l1, a, l2, b, l3. split.
      + now rewrite <- app_assoc.
      + now apply properPathPrefix_b.
    - intros (l1 & a & l2 & b & l3 & -> & Hp).
      exists (l1 ++ a :: l2)%list, b, l3. split.
      + now rewrite <- app_assoc.
      + rewrite meetsFile_nil. cbn [orb]. apply existsb_exists. exists a. split.
        * apply in_elt.
        * now apply properPathPrefix_b. }
  split; [exact Hiff|].
  intros Hfree Hnone. apply Hiff in Hnone as (l1 & a & l2 & b & l3 & -> & Hp).
  apply (Hfree a b); [apply in_elt | | exact Hp].
  apply in_app_iff. right. right. apply in_elt.
Qed.

End AggregatorFacts.

Section AssemblyFacts.
Context `{Host}.
Variable git : Git.

Lemma Permutation_NoDup_rel (l l' : list Info) :
  Permutation l l' -> List.NoDup (map rel l') -> List.NoDup (map rel l).
Proof.
  intros Hp. apply Permutation_NoDup. symmetry. now apply Permutation_map.
Qed.

(** C2. When the included files have pairwise distinct paths none of
    which is a proper path-prefix of another, [orderInfosByOldest]
    returns, for every age record, a rearrangement of them; and in
    every sort mode and for every history the final order, the readme
    moved, is a rearrangement of the included files, each path once. *)
Theorem final_order_is_permutation (infos : list Info) :
  let included := List.filter (fun info => include (decision info)) infos in
  List.NoDup (map rel included) ->
  (forall a b, In a included -> In b included ->
               ~ properPathPrefix (rel a) (rel b)) ->
  (forall ages, exists ordered,
      orderInfosByOldest included ages = Some ordered
      /\ Permutation (relocateReadme ordered) included)
  /\ (forall sortMode log, exists final,
        fst (buildHtml_rendered git infos sortMode log) = Some final
        /\ Permutation final included
        /\ List.NoDup (map rel final)).
Proof.
  intros included Hnd Hfree.
  assert (forall ages, exists ordered,
             orderInfosByOldest included ages = Some ordered
             /\ Permutation (relocateReadme ordered) included) as Hage.
  { intros ages.
    destruct (orderInfosByOldest_Permutation included ages Hnd Hfree)
      as (ordered & Ho & Hp).
    exists ordered. split; [exact Ho|]. now rewrite relocateReadme_Permutation. }
  split; [exact Hage|].
  intros sortMode log.
  assert (exists final,
             fst (buildHtml_rendered git infos sortMode log) = Some final
             /\ Permutation final included) as (final & Hf & Hp).
  { unfold buildHtml_rendered, sortRendered, mbind, Proc_bind. fold included.
    destruct (0 <? length included)%nat.
    - destruct (String.eqb sortMode "age").
      + destruct (gatherOldestCommitTimes git (map rel included) log) as [ages log'].
        destruct (Hage ages) as (ordered & Ho & Hp).
        cbn. rewrite Ho. cbn. eauto.
      + cbn. eexists. split; [reflexivity|].
        now rewrite relocateReadme_Permutation, sortBy_Permutation.
    - cbn. eexists. split; [reflexivity|]. apply relocateReadme_Permutation. }
  exists final. split; [exact Hf|]. split; [exact Hp|].
  now apply (Permutation_NoDup_rel final included).
Qed.

End AssemblyFacts.

Module AggregatorExamples.
Import Demo.

Example tie_broken_by_path :
  orderInfosByOldest [file "Zebra.md"; file "apple.md"] ∅
  = Some [file "apple.md"; file "Zebra.md"].
Proof. reflexivity. Qed.

Lemma age_order_example_witness :
  orderInfosByOldest [file "a.txt"; file "b/c.txt"; file "b/d.txt"] ages
  = Some [file "b/c.txt"; file "b/d.txt"; file "a.txt"].
Proof.
  apply (age_order_example (file "a.txt") (file "b/c.txt") (file "b/d.txt") ages);
    reflexivity.
Defined.

(** C1, as stated, fails: the order [b/c.txt], [a.txt], [b/d.txt] is not
    the one the aggregator returns. *)
Lemma age_order_not_interleaved :
  orderInfosByOldest [file "a.txt"; file "b/c.txt"; file "b/d.txt"] ages
  <> Some [file "b/c.txt"; file "a.txt"; file "b/d.txt"].
Proof. vm_compute. discriminate. Qed.

(** C10, as stated, fails: [a] is a proper path-prefix of [a/b], yet
    with [a/b] first the tree building does not throw; the file [a]
    replaces the directory [a] and [a/b] is lost. *)
Lemma prefix_after_does_not_throw :
  properPathPrefix (rel (file "a")) (rel (file "a/b"))
  /\ orderInfosByOldest [file "a/b"; file "a"] ∅ = Some [file "a"].
Proof.
  split; [|reflexivity]. exists ["b"]. split; [discriminate | reflexivity].
Qed.

Lemma orderInfosByOldest_throws_iff_witness :
  orderInfosByOldest [file "a"; file "a/b"] ∅ = None.
Proof.
  apply (proj1 (orderInfosByOldest_throws_iff [file "a"; file "a/b"] ∅)).
  exists [], (file "a"), [], (file "a/b"), []. split; [reflexivity|].
  exists ["b"]. split; [discriminate | reflexivity].
Defined.

Lemma final_order_is_permutation_witness :
  (forall ages, exists ordered,
      orderInfosByOldest
        [file "a.txt"; file "b/c.txt"; file "b/d.txt"; file "README.md"] ages
      = Some ordered
      /\ Permutation (relocateReadme ordered)
           [file "a.txt"; file "b/c.txt"; file "b/d.txt"; file "README.md"])
  /\ (forall sortMode log, exists final,
        fst (buildHtml_rendered two_commits candidates sortMode log) = Some final
        /\ Permutation final
             [file "a.txt"; file "b/c.txt"; file "b/d.txt"; file "README.md"]
        /\ List.NoDup (map rel final)).
Proof.
  apply (final_order_is_permutation two_commits candidates).
  - cbn. repeat constructor; cbn; intuition discriminate.
  - intros a b Ha Hb Hp. apply properPathPrefix_b in Hp.
    cbn in Ha, Hb.
    destruct Ha as [<-|[<-|[<-|[<-|[]]]]], Hb as [<-|[<-|[<-|[<-|[]]]]];
      vm_compute in Hp; discriminate.
Defined.

Example final_order_age :
  fst (buildHtml_rendered two_commits candidates "age" [])
  = Some [file "README.md"; file "a.txt"; file "b/c.txt"; file "b/d.txt"].
Proof. vm_compute. reflexivity. Qed.

End AggregatorExamples.

(** * Further properties of the code *)

(** ** Classifier: size, content prefix, and the header counts *)

Section ClassifierMore.
Context `{Host} `{PathModule}.

(** X1. The size limit is extension-gated: for a file whose extension is
    not a large-data one, the decision depends neither on [maxBytes] nor
    on what [fs.stat] reports. *)
Theorem decideFile_size_only_for_large_data (fs fs' : FileSystem)
    (filePath repoRoot : string) (maxBytes maxBytes' : Z) :
  has LARGE_DATA_EXTENSIONS (toLowerCase (extname filePath)) = false ->
  read_bytes fs filePath = read_bytes fs' filePath ->
  decision (decideFile fs filePath repoRoot maxBytes)
  = decision (decideFile fs' filePath repoRoot maxBytes').
Proof.
  intros Hext Hread. unfold decideFile. rewrite Hext, !andb_false_r.
  rewrite !looksBinary_spec, Hread.
  destruct (_ || _); [reflexivity|].
  destruct (spec_isBinary _ _); reflexivity.
Qed.

(** X2. Raising the limit never loses a file: what is included under
    [maxBytes] gets the very same record under any larger limit. *)
Theorem decideFile_limit_monotone (fs : FileSystem) (filePath repoRoot : string)
    (maxBytes maxBytes' : Z) :
  maxBytes <= maxBytes' ->
  include (decision (decideFile fs filePath repoRoot maxBytes)) = true ->
  decideFile fs filePath repoRoot maxBytes' = decideFile fs filePath repoRoot maxBytes.
Proof.
  intros Hle. unfold decideFile.
  destruct (_ || _); [discriminate|].
  destruct (has LARGE_DATA_EXTENSIONS _); [|now rewrite !andb_false_r].
  rewrite !andb_true_r.
  destruct (Z.ltb_spec maxBytes
              (match stat_size fs filePath with Some s => s | None => 0 end));
    [discriminate|].
  intros _.
  destruct (Z.ltb_spec maxBytes'
              (match stat_size fs filePath with Some s => s | None => 0 end));
    [lia | reflexivity].
Qed.

(** X3. Only the first 8192 bytes of a file are looked at: two file
    systems that agree on them (and on whether the file can be read)
    classify the file alike. *)
Theorem looksBinary_first_bytes (fs fs' : FileSystem) (filePath : string) :
  firstn BUFFER_SIZE <$> read_bytes fs filePath
  = firstn BUFFER_SIZE <$> read_bytes fs' filePath ->
  looksBinary fs filePath = looksBinary fs' filePath.
Proof.
  intros Hhead. rewrite !looksBinary_spec. unfold spec_isBinary.
  destruct (has FORCE_TEXT_EXTENSIONS _); [reflexivity|].
  destruct (has BINARY_EXTENSIONS _); [reflexivity|].
  destruct (read_bytes fs filePath) as [c|], (read_bytes fs' filePath) as [c'|];
    cbn in Hhead; try discriminate; [|reflexivity].
  injection Hhead as ->. reflexivity.
Qed.

Lemma decideFile_shape (fs : FileSystem) (filePath repoRoot : string) (maxBytes : Z) :
  include (decision (decideFile fs filePath repoRoot maxBytes))
  = match reason (decision (decideFile fs filePath repoRoot maxBytes)) with
    | ok | binary => true
    | too_large | ignored => false
    end.
Proof.
  unfold decideFile. destruct (_ || _); [reflexivity|].
  destruct (_ && _); [reflexivity|]. destruct (looksBinary _ _); reflexivity.
Qed.

Lemma counts_partition (infos : list Info) :
  Forall (fun info => include (decision info)
                      = match reason (decision info) with
                        | ok | binary => true
                        | too_large | ignored => false
                        end) infos ->
  skipped_of binary infos = [] /\ totalFiles infos = length infos.
Proof.
  unfold totalFiles, rendered_of, skipped_of.
  induction 1 as [|info infos Hi _ [IHb IHt]]; [now split|].
  cbn [List.filter]. rewrite Hi.
  destruct (reason (decision info)); cbn [negb andb reason_eqb length];
    (split; [exact IHb | rewrite IHb in *; cbn [length] in *; lia]).
Qed.

(** X4. For the records [decideFile] makes of any list of candidates, the
    list of skipped binaries of [buildHtml] is empty (a binary file is
    always rendered), and the total in the header, the sum of the four
    lists, is the number of candidates. *)
Theorem header_counts_partition (fs : FileSystem) (repoRoot : string) (maxBytes : Z)
    (candidates : list string) :
  let infos := map (fun file => decideFile fs file repoRoot maxBytes) candidates in
  skipped_of binary infos = [] /\ totalFiles infos = length candidates.
Proof.
  intros infos.
  destruct (counts_partition infos) as [Hb Ht].
  - apply List.Forall_forall. intros info Hin. apply in_map_iff in Hin as (f & <- & _).
    apply decideFile_shape.
  - split; [exact Hb|]. rewrite Ht. apply length_map.
Qed.

End ClassifierMore.

Module ClassifierMoreExamples.
Import Demo.

Lemma decideFile_size_only_for_large_data_witness :
  decision (decideFile fs "/repo/notes.txt" "/repo" 1)
  = decision (decideFile fs "/repo/notes.txt" "/repo" MAX_DEFAULT_BYTES).
Proof.
  apply (decideFile_size_only_for_large_data fs fs "/repo/notes.txt" "/repo"
           1 MAX_DEFAULT_BYTES); reflexivity.
Defined.

Lemma decideFile_limit_monotone_witness :
  decideFile fs "/repo/notes.txt" "/repo" (2 * MAX_DEFAULT_BYTES)
  = decideFile fs "/repo/notes.txt" "/repo" MAX_DEFAULT_BYTES.
Proof.
  apply (decideFile_limit_monotone fs "/repo/notes.txt" "/repo"
           MAX_DEFAULT_BYTES (2 * MAX_DEFAULT_BYTES)); [vm_compute; discriminate | reflexivity].
Defined.

(** A zero byte behind the first 8192 bytes goes unnoticed. *)
Lemma looksBinary_first_bytes_witness :
  looksBinary (mkFileSystem (fun _ => None) (fun _ => Some (repeat 65 BUFFER_SIZE ++ [0])%list))
    "/repo/long.txt"
  = looksBinary (mkFileSystem (fun _ => None) (fun _ => Some (repeat 65 BUFFER_SIZE)))
      "/repo/long.txt".
Proof.
  apply looksBinary_first_bytes. vm_compute. reflexivity.
Defined.

End ClassifierMoreExamples.

(** ** History age resolver: what a well-formed history yields *)

Lemma has_cons (x r : string) (l : list string) :
  has (x :: l) r = String.eqb r x || has l r.
Proof. reflexivity. Qed.

Lemma has_In_eq (l l' : list string) (r : string) :
  (In r l <-> In r l') -> has l r = has l' r.
Proof.
  intros Hiff. destruct (has l r) eqn:H1, (has l' r) eqn:H2; try reflexivity.
  - apply has_true, Hiff, has_true in H1. congruence.
  - apply has_true, Hiff, has_true in H2. congruence.
Qed.

Lemma has_set_delete (x r : string) (l : list string) :
  has (set_delete x l) r = has l r && negb (String.eqb r x).
Proof.
  destruct (has l r && negb (String.eqb r x)) eqn:E.
  - apply andb_true_iff in E as [E1 E2]. apply has_true, set_delete_In.
    apply has_true in E1. apply negb_true_iff, String.eqb_neq in E2. now split.
  - destruct (has (set_delete x l) r) eqn:E'; [|reflexivity].
    apply has_true, set_delete_In in E' as [E1 E2].
    apply has_true in E1. apply String.eqb_neq in E2. now rewrite E1, E2 in E.
Qed.

Section WalkFacts.
Context `{Host}.

(** Whether or not the loop has left early, walking a list of lines
    leaves the pending set and the ages that walking its two halves in
    turn leaves. *)
Lemma bulkLoop_app_obs (pre rest : list string) (st : BulkState) :
  pending (bulkLoop (pre ++ rest) st) = pending (bulkLoop rest (bulkLoop pre st))
  /\ fileAges (bulkLoop (pre ++ rest) st) = fileAges (bulkLoop rest (bulkLoop pre st)).
Proof.
  destruct (pending (bulkLoop pre st)) as [|p ps] eqn:Hp.
  - destruct (bulkLoop_done rest (bulkLoop pre st) Hp) as [-> ->].
    revert st Hp. induction pre as [|l pre IH]; intros st Hp.
    + cbn [app]. cbn in Hp. destruct (bulkLoop_done rest st Hp) as [-> ->]. now split.
    + cbn [app bulkLoop] in *. destruct (bulkStep l st) as [st'|st'].
      * now apply IH.
      * now split.
  - rewrite bulkLoop_app; [now split|]. now rewrite Hp.
Qed.

(** The path lines of a revision, walked under its timestamp. *)
Lemma walk_paths (ps : list string) (st : BulkState) (ts : Z) :
  bulk_inv st ->
  currentTimestamp st = Some ts ->
  Forall (fun l => stripCR l <> EmptyString) ps ->
  (forall r, has (pending (bulkLoop ps st)) r
             = has (pending st) r && negb (has (map stripCR ps) r))
  /\ (forall r, fileAges (bulkLoop ps st) !! r
                = match fileAges st !! r with
                  | Some t => Some t
                  | None => if has (pending st) r && has (map stripCR ps) r
                            then Some ts else None
                  end)
  /\ (pending (bulkLoop ps st) <> [] -> currentTimestamp (bulkLoop ps st) = Some ts).
Proof.
  intros Hinv Hts Hps. revert st Hinv Hts.
  induction Hps as [|l ps Hl _ IH]; intros st Hinv Hts.
  - cbn. split; [|split].
    + intros r. now rewrite andb_true_r.
    + intros r. rewrite andb_false_r. now destruct (fileAges st !! r).
    + trivial.
  - cbn [bulkLoop map]. unfold bulkStep.
    destruct (stripCR l) as [|c line] eqn:El; [congruence|]. rewrite Hts.
    destruct (pending st) as [|p0 pend] eqn:Hp.
    { rewrite Hp. cbn. split; [|split]; [reflexivity | | congruence].
      intros r. now destruct (fileAges st !! r). }
    rewrite <- Hp in *. clear p0 pend Hp.
    destruct (has (pending st) (String c line)) eqn:Hhas; cbn [negb].
    + assert (fileAges st !! String c line = None) as Hnone.
      { apply Hinv. now apply has_true. }
      rewrite Hnone.
      set (st1 := mkBulkState (Some ts) (set_delete (String c line) (pending st))
                    (<[String c line := ts]> (fileAges st))).
      assert (bulk_inv st1) as Hinv1.
      { destruct Hinv as [Hnd Hfresh]. split; cbn.
        - now apply List.NoDup_filter.
        - intros r Hr. apply set_delete_In in Hr as [Hr Hne].
          rewrite lookup_insert_ne by congruence. now apply Hfresh. }
      destruct (IH st1 Hinv1 eq_refl) as (IHp & IHa & IHt).
      split; [|split]; [| |exact IHt].
      * intros r. rewrite IHp. cbn [pending st1].
        rewrite has_set_delete, has_cons, negb_orb.
        now rewrite <- andb_assoc.
      * intros r. rewrite IHa. cbn [fileAges pending st1].
        rewrite has_set_delete, has_cons.
        destruct (String.eqb_spec r (String c line)) as [->|Hne].
        -- rewrite lookup_insert_eq, Hnone, Hhas. reflexivity.
        -- rewrite lookup_insert_ne by congruence.
           cbn [negb orb]. now rewrite andb_true_r.
    + destruct (IH st Hinv Hts) as (IHp & IHa & IHt).
      split; [|split]; [| |exact IHt].
      * intros r. rewrite IHp, has_cons, negb_orb.
        destruct (String.eqb_spec r (String c line)) as [->|Hne].
        -- now rewrite Hhas.
        -- reflexivity.
      * intros r. rewrite IHa, has_cons.
        destruct (String.eqb_spec r (String c line)) as [->|Hne].
        -- now rewrite Hhas.
        -- reflexivity.
Qed.

(** One well-formed revision. *)
Lemma walk_revision (b : Revision) (st : BulkState) :
  wellFormed b ->
  bulk_inv st ->
  currentTimestamp st = None \/ pending st = [] ->
  (forall r, has (pending (bulkLoop (revisionLines b) st)) r
             = has (pending st) r && negb (has (touched b) r))
  /\ (forall r, fileAges (bulkLoop (revisionLines b) st) !! r
                = match fileAges st !! r with
                  | Some t => Some t
                  | None => if has (pending st) r && has (touched b) r
                            then Some (stamp b) else None
                  end)
  /\ (currentTimestamp (bulkLoop (revisionLines b) st) = None
      \/ pending (bulkLoop (revisionLines b) st) = []).
Proof.
  intros (Hne & Hnum & Hpaths) Hinv Hstart.
  destruct (pending st) as [|p0 pend] eqn:Hp.
  { destruct (bulkLoop_done (revisionLines b) st Hp) as [Hp' Ha'].
    rewrite Hp', Ha'. split; [|split]; [reflexivity | | now right].
    intros r. now destruct (fileAges st !! r). }
  rewrite <- Hp in *. destruct Hstart as [Hts | Hempty]; [|congruence].
  set (st0 := mkBulkState (Some (stamp b)) (pending st) (fileAges st)).
  assert (bulkLoop (revisionLines b) st
          = bulkLoop (pathLines b ++ [EmptyString]) st0) as ->.
  { unfold revisionLines. cbn [bulkLoop]. unfold bulkStep.
    destruct (stripCR (stampLine b)) as [|c line] eqn:El; [congruence|].
    now rewrite Hts, Hnum. }
  assert (bulk_inv st0) as Hinv0 by exact Hinv.
  destruct (walk_paths (pathLines b) st0 (stamp b) Hinv0 eq_refl Hpaths)
    as (Wp & Wa & Wt).
  destruct (bulkLoop_app_obs (pathLines b) [EmptyString] st0) as [Op Oa].
  assert (forall s, pending (bulkLoop [EmptyString] s) = pending s
                    /\ fileAges (bulkLoop [EmptyString] s) = fileAges s
                    /\ currentTimestamp (bulkLoop [EmptyString] s) = None) as Hblank.
  { intros s. cbn. now repeat split. }
  destruct (Hblank (bulkLoop (pathLines b) st0)) as (Bp & Ba & Bt).
  split; [|split].
  - intros r. rewrite Op, Bp. apply Wp.
  - intros r. rewrite Oa, Ba. apply Wa.
  - destruct (pending (bulkLoop (pathLines b) st0)) as [|q qs] eqn:Hq.
    + right. now rewrite Op, Bp.
    + left. rewrite bulkLoop_app by (rewrite Hq; discriminate). exact Bt.
Qed.

Lemma firstSeen_cons (r : string) (b : Revision) (history : list Revision) :
  firstSeen r (b :: history)
  = if has (touched b) r then Some (stamp b) else firstSeen r history.
Proof. unfold firstSeen. cbn [List.find]. now destruct (has (touched b) r). Qed.

(** A well-formed history, from any state that starts a revision. *)
Lemma walk_history (history : list Revision) (st : BulkState) :
  Forall wellFormed history ->
  bulk_inv st ->
  currentTimestamp st = None \/ pending st = [] ->
  (forall r, has (pending (bulkLoop (flat_map revisionLines history) st)) r
             = has (pending st) r
               && match firstSeen r history with Some _ => false | None => true end)
  /\ (forall r, fileAges (bulkLoop (flat_map revisionLines history) st) !! r
                = match fileAges st !! r with
                  | Some t => Some t
                  | None => if has (pending st) r then firstSeen r history else None
                  end).
Proof.
  intros Hwf. revert st. induction Hwf as [|b history Hb _ IH]; intros st Hinv Hstart.
  - cbn. split; intros r.
    + now rewrite andb_true_r.
    + destruct (fileAges st !! r); [reflexivity | now destruct (has (pending st) r)].
  - cbn [flat_map].
    destruct (bulkLoop_app_obs (revisionLines b) (flat_map revisionLines history) st)
      as [-> ->].
    destruct (walk_revision b st Hb Hinv Hstart) as (Rp & Ra & Rt).
    destruct (IH (bulkLoop (revisionLines b) st) (bulkLoop_inv _ _ Hinv) Rt) as [Ip Ia].
    split; intros r.
    + rewrite Ip, Rp, firstSeen_cons.
      destruct (has (touched b) r); cbn [negb]; [now rewrite andb_false_r|].
      now rewrite andb_true_r.
    + rewrite Ia, Ra, Rp, firstSeen_cons.
      destruct (fileAges st !! r); [reflexivity|].
      destruct (has (pending st) r), (has (touched b) r); reflexivity.
Qed.

End WalkFacts.

Section WalkTheorems.
Context `{Host}.
Variable git : Git.

(** The bulk phase on an output that starts with well-formed revisions:
    when these are the whole output, or list every requested path, a
    requested path has the timestamp of the first revision that lists
    it, and is pending exactly when no revision lists it. *)
Lemma bulkPhase_history (relPaths : list string) (log : list Query)
    (stdout : string) (history : list Revision) (rest : list string) :
  git BulkLog = Some stdout ->
  split LF stdout = (flat_map revisionLines history ++ rest)%list ->
  Forall wellFormed history ->
  rest = [] \/ (forall r, In r relPaths -> firstSeen r history <> None) ->
  (forall r, fileAges (fst (bulkPhase git relPaths log)) !! r
             = if has relPaths r then firstSeen r history else None)
  /\ (forall r, In r (pending (fst (bulkPhase git relPaths log)))
                <-> In r relPaths /\ firstSeen r history = None).
Proof.
  intros Hg Hlines Hwf Hrest. rewrite bulkPhase_eq, Hg, Hlines. cbn [fst].
  set (init := mkBulkState None (uniq relPaths) ∅).
  destruct (bulkLoop_app_obs (flat_map revisionLines history) rest init) as [-> ->].
  destruct (walk_history history init Hwf (bulkInit_inv relPaths) (or_introl eq_refl))
    as [Wp Wa].
  cbn [pending fileAges init] in Wp, Wa.
  set (walked := bulkLoop (flat_map revisionLines history) init) in *.
  assert (forall r, has (uniq relPaths) r = has relPaths r) as Hu.
  { intros r. apply has_In_eq, uniq_In. }
  assert (forall r, In r (pending walked)
                    <-> In r relPaths /\ firstSeen r history = None) as Sp.
  { intros r. rewrite <- has_true, Wp, Hu, andb_true_iff, has_true.
    destruct (firstSeen r history); split; intros [? ?]; split; congruence. }
  assert (pending (bulkLoop rest walked) = pending walked
          /\ fileAges (bulkLoop rest walked) = fileAges walked) as [-> ->].
  { destruct Hrest as [-> | Hall]; [now split|].
    assert (pending walked = []) as Hdone.
    { destruct (pending walked) as [|p ps] eqn:Hp; [reflexivity|]. exfalso.
      destruct (proj1 (Sp p) (or_introl eq_refl)) as [Hin Hnone].
      now apply (Hall p). }
    destruct (bulkLoop_done rest walked Hdone) as [-> ->]. now rewrite Hdone. }
  split; [|exact Sp].
  intros r. rewrite Wa, lookup_empty, Hu. reflexivity.
Qed.

(** X5. When the bulk output is a sequence of well-formed revisions, the
    bulk phase gives every requested path the timestamp of the first
    revision that lists it, gives nothing to a path that was not
    requested, and leaves pending exactly the requested paths that no
    revision lists. *)
Theorem bulk_phase_first_revision (relPaths : list string) (log : list Query)
    (stdout : string) (history : list Revision) :
  git BulkLog = Some stdout ->
  split LF stdout = flat_map revisionLines history ->
  Forall wellFormed history ->
  (forall r, fileAges (fst (bulkPhase git relPaths log)) !! r
             = if has relPaths r then firstSeen r history else None)
  /\ (forall r, In r (pending (fst (bulkPhase git relPaths log)))
                <-> In r relPaths /\ firstSeen r history = None).
Proof.
  intros Hg Hlines Hwf.
  apply (bulkPhase_history relPaths log stdout history []); try assumption.
  - now rewrite app_nil_r.
  - now left.
Qed.

(** X6. When moreover every requested path is listed by some revision,
    the resolver is done after the one bulk query: no per-file query is
    issued, and the record holds the first-revision timestamps. *)
Theorem gather_complete_history (relPaths : list string) (log : list Query)
    (stdout : string) (history : list Revision) :
  git BulkLog = Some stdout ->
  split LF stdout = flat_map revisionLines history ->
  Forall wellFormed history ->
  relPaths <> [] ->
  (forall r, In r relPaths -> firstSeen r history <> None) ->
  snd (gatherOldestCommitTimes git relPaths log) = (log ++ [BulkLog])%list
  /\ forall r, fst (gatherOldestCommitTimes git relPaths log) !! r
               = if has relPaths r then firstSeen r history else None.
Proof.
  intros Hg Hlines Hwf Hne Hall.
  destruct (bulkPhase_history relPaths log stdout history [] Hg
              (eq_trans Hlines (eq_sym (app_nil_r _))) Hwf (or_introl eq_refl))
    as [Ha Hp].
  unfold gatherOldestCommitTimes.
  destruct (uniq relPaths) as [|u us] eqn:Hu.
  { destruct relPaths as [|r0 rs]; [congruence | discriminate]. }
  unfold mbind, Proc_bind.
  destruct (bulkPhase git relPaths log) as [st log1] eqn:Hb. cbn [fst] in Ha, Hp.
  assert (log1 = (log ++ [BulkLog])%list) as ->.
  { rewrite bulkPhase_eq in Hb. now injection Hb. }
  destruct (pending st) as [|p ps] eqn:Hpend.
  - cbn. split; [reflexivity | exact Ha].
  - exfalso. destruct (proj1 (Hp p) (or_introl eq_refl)) as [Hin Hnone].
    now apply (Hall p).
Qed.


End WalkTheorems.

Module WalkExamples.
Import Demo DemoHistory.

Lemma history_wellFormed : Forall wellFormed history.
Proof.
  repeat constructor; cbn; discriminate.
Qed.


Lemma bulk_phase_first_revision_witness :
  fileAges (fst (bulkPhase two_commits requested [])) !! "a.txt" = Some 100
  /\ (In "c.txt" (pending (fst (bulkPhase two_commits requested [])))
      <-> In "c.txt" requested /\ firstSeen "c.txt" history = None).
Proof.
  destruct (bulk_phase_first_revision two_commits requested []
              (lines ["100"; "a.txt"; ""; "200"; "a.txt"; "b.txt"; ""]) history
              eq_refl eq_refl history_wellFormed) as [Ha Hp].
  split; [exact (Ha "a.txt") | exact (Hp "c.txt")].
Defined.

Lemma gather_complete_history_witness :
  snd (gatherOldestCommitTimes two_commits ["b.txt"; "a.txt"] []) = [BulkLog]
  /\ fst (gatherOldestCommitTimes two_commits ["b.txt"; "a.txt"] []) !! "b.txt"
     = Some 200.
Proof.
  destruct (gather_complete_history two_commits ["b.txt"; "a.txt"] []
              (lines ["100"; "a.txt"; ""; "200"; "a.txt"; "b.txt"; ""]) history
              eq_refl eq_refl history_wellFormed) as [Hl Ha].
  - discriminate.
  - intros r [<- | [<- | []]]; vm_compute; discriminate.
  - split; [exact Hl | exact (Ha "b.txt")].
Defined.

End WalkExamples.

(** ** History age resolver: what it asks and what it records *)

Section GatherBounds.
Context `{Host}.
Variable git : Git.

Lemma bulkLoop_within (U : list string) (lines : list string) (st : BulkState) :
  (forall r t, fileAges st !! r = Some t -> In r U) ->
  (forall r, In r (pending st) -> In r U) ->
  forall r t, fileAges (bulkLoop lines st) !! r = Some t -> In r U.
Proof.
  revert st. induction lines as [|l lines IH]; intros st Ha Hp; [exact Ha|].
  cbn [bulkLoop]. unfold bulkStep.
  destruct (stripCR l) as [|c line]; [now apply IH|].
  destruct (currentTimestamp st) as [ts|].
  - destruct (pending st) as [|p0 pend] eqn:E; [exact Ha|]. rewrite <- E in *.
    destruct (has (pending st) (String c line)) eqn:Hhas; cbn [negb]; [|now apply IH].
    destruct (fileAges st !! String c line) eqn:Hl; [now apply IH|].
    apply IH; cbn.
    + intros r t. destruct (String.eqb_spec r (String c line)) as [->|Hne].
      * intros _. now apply Hp, has_true.
      * rewrite lookup_insert_ne by congruence. apply Ha.
    + intros r Hr. apply set_delete_In in Hr as [Hr _]. now apply Hp.
  - destruct (Number_ _); now apply IH.
Qed.

(** X7. The resolver records ages for requested paths only.  Asked for
    nothing, it asks the history service nothing.  Otherwise it asks
    exactly once in bulk, first, and then once for each path of a list
    without duplicates, the paths the bulk phase left pending, all of
    them requested: never twice in bulk, never twice for one path, and
    so at most once for each distinct requested path. *)
Theorem gather_only_requested (relPaths : list string) (log : list Query) :
  (forall r t, fst (gatherOldestCommitTimes git relPaths log) !! r = Some t ->
               In r relPaths)
  /\ match relPaths with
     | [] => snd (gatherOldestCommitTimes git relPaths log) = log
     | _ :: _ =>
         exists followed,
           snd (gatherOldestCommitTimes git relPaths log)
           = (log ++ BulkLog :: map FollowLog followed)%list
           /\ followed = pending (fst (bulkPhase git relPaths log))
           /\ List.NoDup followed
           /\ (forall r, In r followed -> In r relPaths)
           /\ (length followed <= length (uniq relPaths))%nat
     end.
Proof.
  unfold gatherOldestCommitTimes.
  destruct (uniq relPaths) as [|u us] eqn:Hu.
  { destruct relPaths as [|r0 rs]; [|discriminate Hu].
    cbn. split; [intros r t; now rewrite lookup_empty | reflexivity]. }
  assert (relPaths <> []) as Hne by (intros ->; discriminate Hu).
  rewrite <- Hu. unfold mbind, Proc_bind.
  pose proof (bulkPhase_inv git relPaths log) as [Hnd Hfresh].
  pose proof (bulkPhase_eq git relPaths log) as Hb.
  destruct (bulkPhase git relPaths log) as [st log1]. cbn [fst] in Hnd, Hfresh |- *.
  injection Hb as Hst ->.
  assert (forall r, In r (pending st) -> In r (uniq relPaths)) as Hpend.
  { intros r. rewrite Hst. destruct (git BulkLog); [apply bulkLoop_pending | trivial]. }
  assert (forall r t, fileAges st !! r = Some t -> In r (uniq relPaths)) as Hages.
  { rewrite Hst. destruct (git BulkLog).
    - apply bulkLoop_within; cbn; [intros r t; now rewrite lookup_empty | trivial].
    - cbn. intros r t. now rewrite lookup_empty. }
  destruct (fallbackLoop_spec git (pending st) (fileAges st) (log ++ [BulkLog])%list Hnd)
    as (Hlog & _ & Hout).
  assert (fst (match pending st with
               | [] => mret (fileAges st)
               | _ :: _ => fallbackLoop git (pending st) (fileAges st)
               end (log ++ [BulkLog])%list)
          = fst (fallbackLoop git (pending st) (fileAges st) (log ++ [BulkLog])%list)
          /\ snd (match pending st with
                  | [] => mret (fileAges st)
                  | _ :: _ => fallbackLoop git (pending st) (fileAges st)
                  end (log ++ [BulkLog])%list)
             = snd (fallbackLoop git (pending st) (fileAges st) (log ++ [BulkLog])%list))
    as [-> ->] by (destruct (pending st); now split).
  split.
  - intros r t Hr. apply uniq_In.
    destruct (in_dec string_dec r (pending st)) as [Hin | Hnin]; [now apply Hpend|].
    rewrite (Hout r Hnin) in Hr. now apply (Hages r t).
  - destruct relPaths as [|r0 rs]; [contradiction|].
    exists (pending st).
    split; [now rewrite Hlog, <- app_assoc|]. split; [reflexivity|].
    split; [exact Hnd|]. split.
    + intros r Hr. now apply uniq_In, Hpend.
    + apply NoDup_incl_length; [exact Hnd | exact Hpend].
Qed.

End GatherBounds.

(** ** Hierarchical aggregator: ages *)

Lemma allChildren_Forall (P : Node -> Prop) (children : list (string * Node)) :
  allChildren P children <-> Forall (fun e => P (snd e)) children.
Proof.
  induction children as [|e children IH]; cbn.
  - split; [constructor | trivial].
  - rewrite IH. split; [intros [? ?]; now constructor | intros Hc; now inversion Hc].
Qed.

Lemma ageLe_refl (a : num) : properAge a -> ageLe a a.
Proof.
  unfold ageLe. destruct a; cbn; try tauto; try reflexivity.
  intros _. apply Z.ltb_irrefl.
Qed.

Lemma ageLe_trans (a b c : num) :
  properAge b -> ageLe a b -> ageLe b c -> ageLe a c.
Proof.
  unfold ageLe. destruct a, b, c; cbn; try tauto; try congruence;
    rewrite ?Z.ltb_ge; intros; lia.
Qed.

Lemma ageLe_antisym (a b : num) :
  properAge a -> properAge b -> ageLe a b -> ageLe b a -> a = b.
Proof.
  unfold ageLe. destruct a, b; cbn; try tauto; try congruence.
  rewrite !Z.ltb_ge. intros _ _ ? ?. f_equal. lia.
Qed.

Lemma ageLe_PosInf (a : num) : properAge a -> ageLe a PosInf.
Proof. unfold ageLe. now destruct a. Qed.

(** The smaller of two ages, as the loop of [computeDirectoryAge] picks
    it. *)
Lemma pick_least (childAge minAge : num) :
  properAge childAge -> properAge minAge ->
  let m := if num_lt childAge minAge then childAge else minAge in
  properAge m /\ ageLe m childAge /\ ageLe m minAge
  /\ (m = childAge \/ m = minAge).
Proof.
  intros Hc Hm. destruct (num_lt childAge minAge) eqn:E; cbn.
  - repeat split; [exact Hc | now apply ageLe_refl | | now left].
    unfold ageLe. destruct childAge, minAge; cbn in *; try tauto; try congruence.
    apply Z.ltb_lt in E. apply Z.ltb_ge. lia.
  - repeat split; [exact Hm | exact E | now apply ageLe_refl | now right].
Qed.

Section AgeFacts.

(** What the loop of [computeDirectoryAge] returns, given what the
    recursive calls return. *)
Lemma minAgeLoop_least (rec : Node -> Node * num) (entries : list (string * Node))
    (minAge : num) :
  properAge minAge ->
  Forall (fun e => properAge (snd (rec (snd e)))
                   /\ leastAge (snd (rec (snd e))) (node_leaf_ages (snd e))
                   /\ node_leaf_ages (fst (rec (snd e))) = node_leaf_ages (snd e)
                   /\ settled (fst (rec (snd e)))) entries ->
  let result := minAgeLoop rec entries minAge in
  properAge (snd result)
  /\ ageLe (snd result) minAge
  /\ (forall x, In x (flat_map (fun e => node_leaf_ages (snd e)) entries) ->
                ageLe (snd result) x)
  /\ (snd result = minAge
      \/ In (snd result) (flat_map (fun e => node_leaf_ages (snd e)) entries))
  /\ flat_map (fun e => node_leaf_ages (snd e)) (fst result)
     = flat_map (fun e => node_leaf_ages (snd e)) entries
  /\ allChildren settled (fst result).
Proof.
  intros Hm Hall. revert minAge Hm.
  induction Hall as [|[k c] entries (Hp & [Hlow Hin] & Hsame & Hset) _ IH];
    intros minAge Hm.
  - cbn. repeat split; [exact Hm | now apply ageLe_refl | intros x [] | now left].
  - cbn [minAgeLoop]. cbn [snd] in *.
    destruct (rec c) as [c' childAge]. cbn [fst snd] in *.
    destruct (pick_least childAge minAge Hp Hm) as (Hpm & Hle1 & Hle2 & Hpick).
    specialize (IH _ Hpm).
    destruct (minAgeLoop rec entries (if num_lt childAge minAge then childAge else minAge))
      as [rest' m].
    cbn [fst snd] in *. destruct IH as (Hpr & Hle & Hlower & Hwhich & Hleaves & Hsettled).
    assert (properAge (if num_lt childAge minAge then childAge else minAge)) as Hpm' by exact Hpm.
    split; [exact Hpr|]. split; [now apply (ageLe_trans _ _ _ Hpm' Hle)|].
    split; [|split; [|split]].
    + intros x Hx. apply in_app_iff in Hx as [Hx | Hx]; [|now apply Hlower].
      apply (ageLe_trans _ childAge _ Hp); [now apply (ageLe_trans _ _ _ Hpm' Hle)|].
      now apply Hlow.
    + destruct Hwhich as [-> | Hw]; [|right; apply in_app_iff; now right].
      destruct (num_lt childAge minAge) eqn:E; [|now left].
      destruct Hin as [-> | Hin].
      * (* [Infinity] is below no age *)
        destruct minAge; discriminate.
      * right. apply in_app_iff. now left.
    + cbn [flat_map snd]. now rewrite Hsame, Hleaves.
    + cbn. now split.
Qed.

Lemma computeDirectoryAge_least_aux (n : Node) :
  Forall properAge (node_leaf_ages n) ->
  properAge (snd (computeDirectoryAge n))
  /\ leastAge (snd (computeDirectoryAge n)) (node_leaf_ages n)
  /\ node_leaf_ages (fst (computeDirectoryAge n)) = node_leaf_ages n
  /\ settled (fst (computeDirectoryAge n)).
Proof.
  induction n as [info age|children age IH] using Node_ind'; intros Hproper.
  - cbn in *. inversion Hproper; subst.
    repeat split; [assumption | | now right; left].
    intros x [<- | []]. now apply ageLe_refl.
  - cbn [computeDirectoryAge].
    pose proof (minAgeLoop_least computeDirectoryAge children POSITIVE_INFINITY I) as Hloop.
    destruct (minAgeLoop computeDirectoryAge children POSITIVE_INFINITY) as [children' m].
    cbn [fst snd] in *.
    destruct Hloop as (Hp & _ & Hlower & Hwhich & Hleaves & Hsettled).
    { cbn [node_leaf_ages] in Hproper.
      rewrite List.Forall_forall in IH. apply List.Forall_forall. intros e He.
      apply IH; [exact He|]. apply List.Forall_forall. intros x Hx.
      rewrite List.Forall_forall in Hproper. apply Hproper.
      apply in_flat_map. now exists e. }
    cbn [node_leaf_ages settled]. rewrite Hleaves.
    repeat split; assumption.
Qed.

End AgeFacts.

(** X8. On a tree whose file ages are timestamps or [Infinity],
    [computeDirectoryAge] returns the least age of the files below the
    node ([Infinity] when there is none), leaves the files and their ages
    as they are, and leaves in every directory of the tree the least age
    of the files below that directory. *)
Theorem computeDirectoryAge_least (n : Node) :
  Forall properAge (node_leaf_ages n) ->
  leastAge (snd (computeDirectoryAge n)) (node_leaf_ages n)
  /\ node_leaf_ages (fst (computeDirectoryAge n)) = node_leaf_ages n
  /\ node_leaves (fst (computeDirectoryAge n)) = node_leaves n
  /\ settled (fst (computeDirectoryAge n)).
Proof.
  intros Hproper.
  destruct (computeDirectoryAge_least_aux n Hproper) as (_ & Hl & Hs & Hset).
  repeat split; try assumption; try apply Hl. apply computeDirectoryAge_leaves.
Qed.

(** ** Hierarchical aggregator: the oldest file comes first *)

Lemma ageOrInfinity_proper (fileAges : gmap string Z) (r : string) :
  properAge (ageOrInfinity fileAges r).
Proof. unfold ageOrInfinity. now destruct (fileAges !! r). Qed.

Lemma map_get_In {V : Type} (k : string) (v : V) (m : list (string * V)) :
  map_get k m = Some v -> In (k, v) m.
Proof.
  induction m as [|[k' v'] m IH]; cbn; [discriminate|].
  destruct (String.eqb_spec k k') as [->|_]; [intros [= ->]; now left|].
  intros Hg. right. now apply IH.
Qed.

Lemma map_set_Forall {V : Type} (P : string * V -> Prop) (k : string) (v : V)
    (m : list (string * V)) :
  P (k, v) -> Forall P m -> Forall P (map_set k v m).
Proof.
  intros Hv. induction 1 as [|[k' v'] m Hx Hm IH]; cbn.
  - now repeat constructor.
  - destruct (String.eqb k k'); now constructor.
Qed.

Lemma leaves_set_In (k : string) (v : Node) (m : list (string * Node)) (x : Info) :
  In x (node_leaves v) -> In x (leaves (map_set k v m)).
Proof.
  intros Hx. induction m as [|[k' v'] m IH]; cbn [map_set].
  - unfold leaves. cbn. now rewrite app_nil_r.
  - destruct (String.eqb k k'); unfold leaves in *; cbn [flat_map snd];
      apply in_app_iff; [now left | now right].
Qed.

Section GrownFacts.
Variable fileAges : gmap string Z.

Lemma insertPath_grown (segs : list string) (info : Info)
    (children children' : list (string * Node)) :
  segs <> [] ->
  allChildren (grown fileAges) children ->
  insertPath segs info (ageOrInfinity fileAges (rel info)) children = Some children' ->
  allChildren (grown fileAges) children' /\ In info (leaves children').
Proof.
  revert children children'.
  induction segs as [|part rest IH]; intros ch ch' Hne Hall Hins; [congruence|].
  apply allChildren_Forall in Hall.
  destruct rest as [|s rest].
  - cbn in Hins. injection Hins as <-. split.
    + apply allChildren_Forall, map_set_Forall; [reflexivity | exact Hall].
    + apply leaves_set_In. now left.
  - rewrite insertPath_cons2 in Hins.
    assert (s :: rest <> []) as Hne' by discriminate.
    destruct (map_get part ch) as [[i a|sub a]|] eqn:Hget; [discriminate| |].
    + destruct (insertPath (s :: rest) info _ sub) as [sub'|] eqn:Hsub; [|discriminate].
      cbn in Hins. injection Hins as <-.
      apply map_get_In in Hget.
      pose proof (proj1 (List.Forall_forall _ _) Hall _ Hget) as [_ Hsubs].
      destruct (IH sub sub' Hne' Hsubs Hsub) as [Hg Hin].
      split.
      * apply allChildren_Forall, map_set_Forall.
        -- cbn [snd grown]. split; [|exact Hg].
           intros E. unfold leaves in Hin. now rewrite E in Hin.
        -- exact Hall.
      * apply leaves_set_In. exact Hin.
    + destruct (insertPath (s :: rest) info _ []) as [sub'|] eqn:Hsub; [|discriminate].
      cbn in Hins. injection Hins as <-.
      destruct (IH [] sub' Hne' I Hsub) as [Hg Hin].
      split.
      * apply allChildren_Forall, map_set_Forall; [|exact Hall].
        cbn [snd grown]. split; [|exact Hg].
        intros E. unfold leaves in Hin. now rewrite E in Hin.
      * apply leaves_set_In. exact Hin.
Qed.

Lemma buildTree_grown (infos : list Info) (children children' : list (string * Node)) :
  allChildren (grown fileAges) children ->
  buildTree fileAges infos children = Some children' ->
  allChildren (grown fileAges) children'.
Proof.
  revert children. induction infos as [|i infos IH]; intros ch Hall Hb.
  - cbn in Hb. now injection Hb as <-.
  - rewrite buildTree_cons in Hb.
    destruct (insertPath _ _ _ ch) as [ch1|] eqn:Hins; [|discriminate].
    apply (IH ch1); [|exact Hb].
    now apply (insertPath_grown (segments i) i ch ch1 (segments_nonempty i) Hall).
Qed.

Lemma minAgeLoop_children (Q : Node -> Prop) (rec : Node -> Node * num)
    (entries : list (string * Node)) (minAge : num) :
  Forall (fun e => Q (fst (rec (snd e)))) entries ->
  allChildren Q (fst (minAgeLoop rec entries minAge)).
Proof.
  intros Hall. revert minAge. induction Hall as [|[k c] entries Hc _ IH]; intros minAge.
  - exact I.
  - cbn [minAgeLoop]. cbn [snd] in Hc. destruct (rec c) as [c' childAge].
    specialize (IH (if num_lt childAge minAge then childAge else minAge)).
    destruct (minAgeLoop rec entries _) as [rest' m]. cbn in *. now split.
Qed.

Lemma computeDirectoryAge_grown (n : Node) :
  grown fileAges n -> grown fileAges (fst (computeDirectoryAge n)).
Proof.
  induction n as [info age|children age IH] using Node_ind'; [trivial|].
  intros [Hne Hall]. cbn [computeDirectoryAge].
  pose proof (minAgeLoop_leaves computeDirectoryAge children POSITIVE_INFINITY) as Hl.
  pose proof (minAgeLoop_children (grown fileAges) computeDirectoryAge children
                POSITIVE_INFINITY) as Hc.
  destruct (minAgeLoop computeDirectoryAge children POSITIVE_INFINITY) as [children' m].
  cbn [fst] in *. apply allChildren_Forall in Hall.
  rewrite List.Forall_forall in IH, Hall.
  split.
  - fold (leaves children'). rewrite Hl; [exact Hne|].
    apply List.Forall_forall. intros e _. apply computeDirectoryAge_leaves.
  - apply Hc. apply List.Forall_forall. intros e He. apply IH; [exact He|]. now apply Hall.
Qed.

Lemma grown_leaf_ages (n : Node) :
  grown fileAges n ->
  node_leaf_ages n = map (fun i => ageOrInfinity fileAges (rel i)) (node_leaves n).
Proof.
  induction n as [info age|children age IH] using Node_ind'.
  - cbn. now intros ->.
  - intros [_ Hall]. apply allChildren_Forall in Hall. cbn [node_leaf_ages node_leaves].
    induction children as [|e children IHc]; [reflexivity|].
    inversion IH; subst. inversion Hall; subst.
    cbn [flat_map]. rewrite map_app. f_equal; [now apply H1 | now apply IHc].
Qed.

Lemma children_leaf_ages (children : list (string * Node)) :
  allChildren (grown fileAges) children ->
  flat_map (fun e => node_leaf_ages (snd e)) children
  = map (fun i => ageOrInfinity fileAges (rel i)) (leaves children).
Proof.
  intros Hall. apply allChildren_Forall in Hall. unfold leaves.
  induction Hall as [|e children He _ IH]; [reflexivity|].
  cbn [flat_map]. rewrite map_app. f_equal; [now apply grown_leaf_ages | exact IH].
Qed.

Lemma leaf_ages_proper (children : list (string * Node)) :
  allChildren (grown fileAges) children ->
  Forall properAge (flat_map (fun e => node_leaf_ages (snd e)) children).
Proof.
  intros Hall. rewrite (children_leaf_ages children Hall).
  apply List.Forall_forall. intros x Hx. apply in_map_iff in Hx as (i & <- & _).
  apply ageOrInfinity_proper.
Qed.

End GrownFacts.

Section OldestFirst.
Context `{Host}.

(** On proper ages the comparator of [collectFilesByAge] never puts a
    younger entry in front of an older one. *)
Lemma entryCompare_ages (parentPath : string) (a b : string * Node) :
  properAge (node_age (snd a)) -> properAge (node_age (snd b)) ->
  (num_sign (entryCompare parentPath a b) = Gt ->
   ageLe (node_age (snd b)) (node_age (snd a)))
  /\ (num_sign (entryCompare parentPath a b) <> Gt ->
      ageLe (node_age (snd a)) (node_age (snd b))).
Proof.
  unfold entryCompare, ageLe.
  destruct (node_age (snd a)) as [| |x|], (node_age (snd b)) as [| |y|];
    cbn; try tauto; intros _ _;
    try (split; [discriminate | reflexivity]);
    try (split; [reflexivity | congruence]).
  destruct (Z.eqb_spec x y) as [->|Hne]; cbn.
  - rewrite Z.ltb_irrefl. now split.
  - rewrite !Z.ltb_ge.
    destruct (Z.compare_spec (x - y) 0); split; intros; try lia; congruence.
Qed.

(** The first entry of the sorted list is one of the oldest. *)
Lemma sortBy_head_oldest (parentPath : string) (entries : list (string * Node)) :
  Forall (fun e => properAge (node_age (snd e))) entries ->
  forall e0 es, sortBy (entryCompare parentPath) entries = e0 :: es ->
  forall e, In e entries -> ageLe (node_age (snd e0)) (node_age (snd e)).
Proof.
  induction 1 as [|x entries Hx Hall IH]; intros e0 es Hs e He; [destruct He|].
  assert (Forall (fun e => properAge (node_age (snd e)))
            (sortBy (entryCompare parentPath) entries)) as Hsorted.
  { apply List.Forall_forall. intros y Hy. rewrite List.Forall_forall in Hall. apply Hall.
    now apply (Permutation_in _ (sortBy_Permutation (entryCompare parentPath) entries)). }
  cbn [sortBy] in Hs.
  destruct (sortBy (entryCompare parentPath) entries) as [|y s] eqn:Hsort.
  - cbn in Hs. injection Hs as <- <-.
    assert (entries = []) as ->.
    { apply Permutation_nil. rewrite <- Hsort. apply sortBy_Permutation. }
    destruct He as [<- | []]. now apply ageLe_refl.
  - inversion Hsorted as [|? ? Hy _]; subst.
    destruct (entryCompare_ages parentPath x y Hx Hy) as [Hgt Hle].
    cbn [insertSorted] in Hs.
    destruct (num_sign (entryCompare parentPath x y)) eqn:Hc.
    + injection Hs as <- <-. destruct He as [<- | He]; [now apply ageLe_refl|].
      apply (ageLe_trans _ (node_age (snd y)) _ Hy); [apply Hle; congruence|].
      now apply (IH y s eq_refl).
    + injection Hs as <- <-. destruct He as [<- | He]; [now apply ageLe_refl|].
      apply (ageLe_trans _ (node_age (snd y)) _ Hy); [apply Hle; congruence|].
      now apply (IH y s eq_refl).
    + injection Hs as <- <-. destruct He as [<- | He]; [now apply Hgt|].
      now apply (IH y s eq_refl).
Qed.

Variable fileAges : gmap string Z.

(** A grown, settled node is as old as one of its files. *)
Lemma node_age_among_leaves (n : Node) :
  grown fileAges n -> settled n ->
  properAge (node_age n) /\ In (node_age n) (node_leaf_ages n).
Proof.
  destruct n as [info age|children age].
  - cbn. intros -> _. split; [apply ageOrInfinity_proper | now left].
  - intros [Hne Hall] [[Hlow Hwhich] _].
    pose proof (leaf_ages_proper fileAges children Hall) as Hproper.
    cbn [node_age node_leaf_ages] in *.
    assert (In age (flat_map (fun e => node_leaf_ages (snd e)) children)) as Hin.
    { destruct Hwhich as [-> | Hin]; [|exact Hin].
      rewrite (children_leaf_ages fileAges children Hall) in *.
      destruct (leaves children) as [|i l] eqn:El; [now contradiction Hne|].
      cbn [map] in *. left.
      apply ageLe_antisym;
        [apply ageOrInfinity_proper | exact I
        | apply ageLe_PosInf, ageOrInfinity_proper | apply Hlow; now left]. }
    split; [|exact Hin]. rewrite List.Forall_forall in Hproper. now apply Hproper.
Qed.

(** The traversal of a grown, settled directory starts with a file as
    old as the directory. *)
Lemma collect_head (fuel : nat) (children : list (string * Node)) (age : num)
    (parentPath : string) :
  (depth (DirNode children age) <= fuel)%nat ->
  grown fileAges (DirNode children age) ->
  settled (DirNode children age) ->
  exists first rest,
    collectFilesByAge fuel (DirNode children age) parentPath = first :: rest
    /\ ageOrInfinity fileAges (rel first) = age.
Proof.
  revert children age parentPath.
  induction fuel as [|fuel IH]; intros children age parentPath Hd Hg Hs.
  { cbn [depth] in Hd. lia. }
  pose proof (node_age_among_leaves _ Hg Hs) as [Hpage Hage].
  destruct Hg as [Hne Hall]. destruct Hs as [[Hlow _] Hset].
  cbn [node_age node_leaf_ages] in *.
  apply allChildren_Forall in Hall. apply allChildren_Forall in Hset.
  rewrite List.Forall_forall in Hall, Hset.
  assert (forall e, In e children ->
                    properAge (node_age (snd e))
                    /\ In (node_age (snd e)) (node_leaf_ages (snd e))) as Hchild.
  { intros e He. apply node_age_among_leaves; [now apply Hall | now apply Hset]. }
  cbn [collectFilesByAge].
  destruct (sortBy (entryCompare parentPath) children) as [|e0 es] eqn:Hsort.
  { exfalso. apply Hne.
    assert (children = []) as ->; [|reflexivity].
    apply Permutation_nil. rewrite <- Hsort. apply sortBy_Permutation. }
  assert (In e0 children) as He0.
  { apply (Permutation_in _ (sortBy_Permutation (entryCompare parentPath) children)).
    rewrite Hsort. now left. }
  assert (node_age (snd e0) = age) as Hsame.
  { destruct (Hchild e0 He0) as [Hp0 Hin0].
    apply ageLe_antisym; [exact Hp0 | exact Hpage | |].
    - apply in_flat_map in Hage as (c & Hc & Hac).
      apply (ageLe_trans _ (node_age (snd c)) _ (proj1 (Hchild c Hc))).
      + apply (sortBy_head_oldest parentPath children) with (es := es);
          [|exact Hsort | exact Hc].
        apply List.Forall_forall. intros e He. now apply Hchild.
      + specialize (Hset c Hc). specialize (Hall c Hc).
        destruct (snd c) as [info a|sub a].
        * cbn in Hac. destruct Hac as [<- | []]. now apply ageLe_refl.
        * destruct Hset as [[Hlowc _] _]. now apply Hlowc.
    - apply Hlow. apply in_flat_map. now exists e0. }
  cbn [flat_map].
  specialize (Hall e0 He0). specialize (Hset e0 He0).
  pose proof (depth_child (fst e0) (snd e0) children age) as Hdc.
  destruct e0 as [k0 c0]. cbn [fst snd] in *. specialize (Hdc He0).
  destruct c0 as [info a|sub a].
  - exists info, (flat_map
                    (fun e => match snd e with
                              | FileNode info0 _ => [info0]
                              | DirNode _ _ =>
                                  collectFilesByAge fuel (snd e) (joinPath parentPath (fst e))
                              end) es).
    split; [reflexivity|]. cbn in Hall, Hsame. congruence.
  - destruct (IH sub a (joinPath parentPath k0)) as (first & rest & Hc & Hf);
      [lia | exact Hall | exact Hset |].
    rewrite Hc. cbn in Hsame. subst a.
    eexists first, _. split; [reflexivity | exact Hf].
Qed.

(** X9. Oldest first: when [orderInfosByOldest] returns an order, no file
    in it is older, by the age record, than the file it starts with. *)
Theorem orderInfosByOldest_oldest_first (infos : list Info) (first : Info)
    (rest : list Info) :
  orderInfosByOldest infos fileAges = Some (first :: rest) ->
  forall x, In x rest ->
    ageLe (ageOrInfinity fileAges (rel first)) (ageOrInfinity fileAges (rel x)).
Proof.
  unfold orderInfosByOldest.
  destruct (buildTree fileAges infos []) as [children|] eqn:Hb; [|discriminate].
  cbn [mbind option_bind].
  pose proof (buildTree_grown fileAges infos [] children I Hb) as Hall.
  pose proof (leaf_ages_proper fileAges children Hall) as Hproper.
  destruct (computeDirectoryAge_least (DirNode children POSITIVE_INFINITY) Hproper)
    as (_ & Hages & Hleaves & Hset).
  pose proof (computeDirectoryAge_grown fileAges (DirNode children POSITIVE_INFINITY))
    as Hgrown.
  destruct (computeDirectoryAge_dir children POSITIVE_INFINITY) as (ch' & a' & E).
  rewrite E in *.
  intros Ho x Hx.
  assert (collectFilesByAge (depth (DirNode ch' a')) (DirNode ch' a') "" = first :: rest)
    as Hc0 by (now injection Ho).
  clear Ho.
  pose proof (collect_fuel (depth (DirNode ch' a')) ch' a' "" (le_n _)) as Hperm.
  rewrite Hc0 in Hperm.
  assert (grown fileAges (DirNode ch' a')) as Hg.
  { apply Hgrown. split; [|exact Hall].
    cbn [node_leaves] in Hleaves. rewrite <- Hleaves. fold (leaves ch').
    intros E'. rewrite E' in Hperm. symmetry in Hperm.
    now apply Permutation_nil_cons in Hperm. }
  destruct (collect_head _ ch' a' "" (le_n _) Hg Hset) as (f & r & Hc & Hf).
  rewrite Hc0 in Hc. injection Hc as <- <-.
  rewrite Hf. destruct Hset as [[Hlow _] _]. apply Hlow.
  destruct Hg as [_ Hall'].
  cbn [node_leaf_ages]. rewrite (children_leaf_ages fileAges ch' Hall').
  apply (in_map (fun i => ageOrInfinity fileAges (rel i))).
  apply (Permutation_in _ Hperm). now right.
Qed.

End OldestFirst.

Module AgeExamples.
Import Demo DemoTree.

Lemma computeDirectoryAge_least_witness :
  snd (computeDirectoryAge tree) = Fin 50
  /\ leastAge (Fin 50) [Fin 100; Fin 50; PosInf]
  /\ settled (fst (computeDirectoryAge tree)).
Proof.
  destruct (computeDirectoryAge_least tree) as (Hl & _ & _ & Hs).
  - repeat constructor.
  - split; [reflexivity|]. split; [exact Hl | exact Hs].
Defined.

Lemma orderInfosByOldest_oldest_first_witness :
  orderInfosByOldest [file "a.txt"; file "b/c.txt"; file "b/d.txt"] ages
  = Some [file "b/c.txt"; file "b/d.txt"; file "a.txt"]
  /\ ageLe (ageOrInfinity ages (rel (file "b/c.txt")))
           (ageOrInfinity ages (rel (file "a.txt"))).
Proof.
  split; [reflexivity|].
  apply (orderInfosByOldest_oldest_first ages
           [file "a.txt"; file "b/c.txt"; file "b/d.txt"]
           (file "b/c.txt") [file "b/d.txt"; file "a.txt"]).
  - reflexivity.
  - right. left. reflexivity.
Defined.

End AgeExamples.

(** ** Text helpers of the renderer *)

Lemma append_cons (a : ascii) (x y : string) : String a x ++ y = String a (x ++ y).
Proof. reflexivity. Qed.

Lemma append_assoc (x y z : string) : (x ++ y) ++ z = x ++ (y ++ z).
Proof.
  induction x as [|a x IH]; [reflexivity|]. now rewrite !append_cons, IH.
Qed.

Lemma replaceAll_app (c : ascii) (r x y : string) :
  replaceAll c r (x ++ y) = replaceAll c r x ++ replaceAll c r y.
Proof.
  induction x as [|a x IH]; [reflexivity|].
  rewrite append_cons. cbn [replaceAll].
  destruct (Ascii.eqb a c); rewrite IH; [|reflexivity].
  now rewrite append_assoc.
Qed.

(** The five passes of [escapeHtml] amount to one pass that escapes each
    character on its own. *)
Lemma escapeHtml_cons (a : ascii) (s : string) :
  escapeHtml (String a s) = escapeChar a ++ escapeHtml s.
Proof.
  unfold escapeHtml, escapeChar. cbn [replaceAll].
  destruct (Ascii.eqb_spec a "&"%char) as [->|H1]; [reflexivity|].
  cbn [replaceAll].
  destruct (Ascii.eqb_spec a "<"%char) as [->|H2]; [reflexivity|].
  cbn [replaceAll].
  destruct (Ascii.eqb_spec a ">"%char) as [->|H3]; [reflexivity|].
  cbn [replaceAll].
  destruct (Ascii.eqb_spec a dquote) as [->|H4]; [reflexivity|].
  cbn [replaceAll].
  destruct (Ascii.eqb_spec a "'"%char) as [->|H5]; reflexivity.
Qed.

Lemma escapeHtml_app (x y : string) : escapeHtml (x ++ y) = escapeHtml x ++ escapeHtml y.
Proof.
  induction x as [|a x IH]; [reflexivity|].
  now rewrite append_cons, !escapeHtml_cons, IH, append_assoc.
Qed.

(** X10. What [escapeHtml] returns holds none of the characters [<], [>],
    the double quote and the single quote. *)
Theorem escapeHtml_no_markup (value : string) :
  Forall (fun c => c <> "<"%char /\ c <> ">"%char /\ c <> dquote /\ c <> "'"%char)
    (list_ascii_of_string (escapeHtml value)).
Proof.
  induction value as [|a s IH]; [constructor|].
  rewrite escapeHtml_cons. unfold escapeChar.
  destruct (Ascii.eqb_spec a "&"%char); [repeat (constructor; [repeat split; discriminate|]); exact IH|].
  destruct (Ascii.eqb_spec a "<"%char); [repeat (constructor; [repeat split; discriminate|]); exact IH|].
  destruct (Ascii.eqb_spec a ">"%char); [repeat (constructor; [repeat split; discriminate|]); exact IH|].
  destruct (Ascii.eqb_spec a dquote); [repeat (constructor; [repeat split; discriminate|]); exact IH|].
  destruct (Ascii.eqb_spec a "'"%char); [repeat (constructor; [repeat split; discriminate|]); exact IH|].
  cbn. constructor; [now repeat split | exact IH].
Qed.

Lemma escapeChar_prefix_code (a b : ascii) (x y : string) :
  escapeChar a ++ x = escapeChar b ++ y -> a = b /\ x = y.
Proof.
  unfold escapeChar.
  destruct (Ascii.eqb_spec a "&"%char) as [->|A1];
    [|destruct (Ascii.eqb_spec a "<"%char) as [->|A2];
      [|destruct (Ascii.eqb_spec a ">"%char) as [->|A3];
        [|destruct (Ascii.eqb_spec a dquote) as [->|A4];
          [|destruct (Ascii.eqb_spec a "'"%char) as [->|A5]]]]];
  (destruct (Ascii.eqb_spec b "&"%char) as [->|B1];
    [|destruct (Ascii.eqb_spec b "<"%char) as [->|B2];
      [|destruct (Ascii.eqb_spec b ">"%char) as [->|B3];
        [|destruct (Ascii.eqb_spec b dquote) as [->|B4];
          [|destruct (Ascii.eqb_spec b "'"%char) as [->|B5]]]]]);
  cbn; intros E; try discriminate E;
  try (injection E as E; subst; now split);
  try (injection E as E1 E2; congruence).
Qed.

(** X11. [escapeHtml] loses nothing: two texts with the same escaped form
    are the same text. *)
Theorem escapeHtml_injective (s t : string) :
  escapeHtml s = escapeHtml t -> s = t.
Proof.
  revert t. induction s as [|a s IH]; intros [|b t] E.
  - reflexivity.
  - rewrite escapeHtml_cons in E. exfalso. revert E. unfold escapeChar.
    repeat destruct (Ascii.eqb _ _); discriminate.
  - rewrite escapeHtml_cons in E. exfalso. revert E. unfold escapeChar.
    repeat destruct (Ascii.eqb _ _); discriminate.
  - rewrite !escapeHtml_cons in E.
    apply escapeChar_prefix_code in E as [-> E]. f_equal. now apply IH.
Qed.

(** X12. An anchor made by [slugify] has the length of the path it is
    made from, holds only letters, digits, [_] and [-], and is left as
    it is by [slugify]. *)
Theorem slugify_anchor (value : string) :
  String.length (slugify value) = String.length value
  /\ Forall (fun c => isSlugChar c = true) (list_ascii_of_string (slugify value))
  /\ slugify (slugify value) = slugify value.
Proof.
  induction value as [|c s (IHlen & IHsafe & IHidem)]; [now repeat constructor|].
  cbn [slugify String.length list_ascii_of_string].
  destruct (isSlugChar c) eqn:Hc.
  - rewrite Hc, IHlen, IHidem. repeat split; now try constructor.
  - change (isSlugChar "-"%char) with true. cbn iota. rewrite IHlen, IHidem.
    repeat split; now try constructor.
Qed.

(** *** Counting lines *)

Lemma append_nil_r (s : string) : s ++ "" = s.
Proof. induction s as [|a s IH]; [reflexivity|]. now rewrite append_cons, IH. Qed.

Lemma isLine_cons (a : ascii) (l : string) :
  isLine (String a l) <-> (a <> CR /\ a <> LF) /\ isLine l.
Proof.
  unfold isLine. cbn [list_ascii_of_string]. split.
  - intros Hl. now inversion Hl.
  - intros [? ?]. now constructor.
Qed.

Lemma replaceCRLF_cons (a : ascii) (s : string) :
  a <> CR -> replaceCRLF (String a s) = String a (replaceCRLF s).
Proof.
  intros Ha. destruct s as [|b s]; [reflexivity|].
  change (replaceCRLF (String a (String b s)))
    with (if Ascii.eqb a CR && Ascii.eqb b LF then String LF (replaceCRLF s)
          else String a (replaceCRLF (String b s))).
  now rewrite (proj2 (Ascii.eqb_neq a CR) Ha).
Qed.

Lemma replaceCRLF_line (l rest : string) :
  isLine l -> replaceCRLF (l ++ rest) = l ++ replaceCRLF rest.
Proof.
  induction l as [|a l IH]; [reflexivity|].
  intros [[Ha _] Hl]%isLine_cons.
  now rewrite append_cons, replaceCRLF_cons, IH.
Qed.

Lemma replaceAll_line (l : string) :
  isLine l -> replaceAll CR (String LF "") l = l.
Proof.
  induction l as [|a l IH]; [reflexivity|].
  intros [[Ha _] Hl]%isLine_cons. cbn [replaceAll].
  now rewrite (proj2 (Ascii.eqb_neq a CR) Ha), IH.
Qed.

Lemma normalize_line (l : string) : isLine l -> normalizeNewlines l = l.
Proof.
  intros Hl. unfold normalizeNewlines.
  rewrite <- (append_nil_r l) at 1. rewrite (replaceCRLF_line l "" Hl).
  cbn [replaceCRLF]. rewrite append_nil_r. now apply replaceAll_line.
Qed.

(** A text of lines ended by carriage returns does not start with a line
    feed. *)
Lemma terminated_CR_head (ls : list string) (last : string) :
  Forall isLine ls -> isLine last ->
  forall s, terminated (String CR "") ls ++ last = String LF s -> False.
Proof.
  intros Hls Hlast s. destruct Hls as [|l ls Hl _].
  - cbn. destruct last as [|a last]; [discriminate|].
    apply isLine_cons in Hlast as [[_ Ha] _]. intros [= E _]. contradiction.
  - cbn [terminated]. destruct l as [|a l].
    + cbn. discriminate.
    + apply isLine_cons in Hl as [[_ Ha] _]. rewrite !append_cons.
      intros [= E _]. contradiction.
Qed.

(** Normalising turns every one of the three terminators into a line
    feed. *)
Lemma normalize_terminated (t : string) (ls : list string) (last : string) :
  t = String LF "" \/ t = String CR (String LF "") \/ t = String CR "" ->
  Forall isLine ls -> isLine last ->
  normalizeNewlines (terminated t ls ++ last) = terminated (String LF "") ls ++ last.
Proof.
  intros Ht Hls Hlast. induction Hls as [|l ls Hl Hls IH].
  - cbn. now apply normalize_line.
  - cbn [terminated]. unfold normalizeNewlines in *.
    rewrite !append_assoc. rewrite (replaceCRLF_line l _ Hl).
    rewrite replaceAll_app, (replaceAll_line l Hl). f_equal.
    destruct Ht as [-> | [-> | ->]].
    + rewrite append_cons. change ("" ++ ?x) with x.
      rewrite replaceCRLF_cons by discriminate. cbn [replaceAll].
      change (Ascii.eqb LF CR) with false. cbn iota.
      rewrite IH. reflexivity.
    + rewrite !append_cons. change ("" ++ terminated (String CR (String LF "")) ls ++ last)
        with (terminated (String CR (String LF "")) ls ++ last).
      change (replaceCRLF (String CR (String LF ?x))) with (String LF (replaceCRLF x)).
      cbn [replaceAll]. change (Ascii.eqb LF CR) with false. cbn iota.
      rewrite IH. reflexivity.
    + rewrite append_cons.
      change ("" ++ terminated (String CR "") ls ++ last)
        with (terminated (String CR "") ls ++ last).
      assert (replaceCRLF (String CR (terminated (String CR "") ls ++ last))
              = String CR (replaceCRLF (terminated (String CR "") ls ++ last))) as ->.
      { pose proof (terminated_CR_head ls last Hls Hlast) as Hhead.
        destruct (terminated (String CR "") ls ++ last) as [|b s]; [reflexivity|].
        change (replaceCRLF (String CR (String b s)))
          with (if Ascii.eqb CR CR && Ascii.eqb b LF then String LF (replaceCRLF s)
                else String CR (replaceCRLF (String b s))).
        destruct (Ascii.eqb_spec b LF) as [->|_]; [now destruct (Hhead s)|].
        now rewrite andb_false_r. }
      cbn [replaceAll]. change (Ascii.eqb CR CR) with true. cbn iota.
      rewrite IH. reflexivity.
Qed.

Lemma split_line (l rest : string) :
  isLine l -> split LF (l ++ String LF rest) = l :: split LF rest.
Proof.
  induction l as [|a l IH]; [reflexivity|].
  intros [[_ Ha] Hl]%isLine_cons. rewrite append_cons. cbn [split].
  now rewrite (proj2 (Ascii.eqb_neq a LF) Ha), IH.
Qed.

Lemma split_last_line (l : string) : isLine l -> split LF l = [l].
Proof.
  induction l as [|a l IH]; [reflexivity|].
  intros [[_ Ha] Hl]%isLine_cons. cbn [split].
  now rewrite (proj2 (Ascii.eqb_neq a LF) Ha), IH.
Qed.

Lemma split_terminated (ls : list string) (last : string) :
  Forall isLine ls -> isLine last ->
  split LF (terminated (String LF "") ls ++ last) = (ls ++ [last])%list.
Proof.
  intros Hls Hlast. induction Hls as [|l ls Hl _ IH].
  - cbn. now apply split_last_line.
  - cbn [terminated]. rewrite !append_assoc, append_cons.
    change ("" ++ ?x) with x. rewrite split_line by exact Hl. now rewrite IH.
Qed.

Lemma endsWithChar_cons (a : ascii) (s : string) (c : ascii) :
  s <> "" -> endsWithChar (String a s) c = endsWithChar s c.
Proof. now destruct s. Qed.

Lemma endsWithChar_app (x y : string) (c : ascii) :
  y <> "" -> endsWithChar (x ++ y) c = endsWithChar y c.
Proof.
  intros Hy. induction x as [|a x IH]; [reflexivity|].
  rewrite append_cons, endsWithChar_cons; [exact IH|].
  destruct x; [exact Hy | discriminate].
Qed.

Lemma endsWithChar_line (l : string) : isLine l -> endsWithChar l LF = false.
Proof.
  induction l as [|a l IH]; [reflexivity|].
  intros [[_ Ha] Hl]%isLine_cons. destruct l as [|b l].
  - cbn. now apply Ascii.eqb_neq.
  - rewrite endsWithChar_cons by discriminate. now apply IH.
Qed.

Lemma endsWithChar_terminated (l : string) (ls : list string) :
  endsWithChar (terminated (String LF "") (l :: ls)) LF = true.
Proof.
  revert l. induction ls as [|l' ls IH]; intros l.
  - cbn [terminated]. rewrite append_nil_r. now rewrite endsWithChar_app.
  - cbn [terminated] in *. rewrite <- append_assoc.
    rewrite endsWithChar_app; [apply IH|].
    destruct l'; discriminate.
Qed.

(** X13. [countLines] counts terminated lines, whatever the terminator:
    a text of lines each ended by a line feed, by a carriage return and a
    line feed, or by a carriage return alone, followed by a last line
    without terminator, has as many lines as were ended, and one more
    when the last line is not empty.  The empty text has none. *)
Theorem countLines_terminated (t : string) (ls : list string) (last : string) :
  t = String LF "" \/ t = String CR (String LF "") \/ t = String CR "" ->
  Forall isLine ls -> isLine last ->
  countLines (terminated t ls ++ last)
  = (length ls + match last with EmptyString => 0 | _ => 1 end)%nat.
Proof.
  intros Ht Hls Hlast.
  pose proof (normalize_terminated t ls last Ht Hls Hlast) as Hnorm.
  unfold normalizeNewlines in Hnorm. unfold countLines.
  destruct (terminated t ls ++ last) as [|a0 s0] eqn:Htext.
  { destruct ls as [|l ls].
    - change (last = "") in Htext. now subst last.
    - exfalso. cbn [terminated] in Htext.
      destruct l; [|discriminate].
      destruct Ht as [-> | [-> | ->]]; discriminate. }
  rewrite Hnorm.
  pose proof (split_terminated ls last Hls Hlast) as Hsplit.
  destruct (terminated (String LF "") ls ++ last) as [|a1 s1] eqn:Hn.
  { destruct ls as [|l ls].
    - change (last = "") in Hn. subst last. discriminate.
    - exfalso. cbn [terminated] in Hn. destruct l; discriminate. }
  rewrite Hsplit, length_app. cbn [length]. rewrite <- Hn.
  destruct last as [|b last].
  - rewrite append_nil_r. destruct ls as [|l ls].
    + discriminate.
    + rewrite endsWithChar_terminated. lia.
  - rewrite endsWithChar_app by discriminate.
    rewrite (endsWithChar_line _ Hlast). lia.
Qed.

Module TextExamples.

Example escapeHtml_ex :
  escapeHtml "<a href='x'>R&D</a>" = "&lt;a href=&#039;x&#039;&gt;R&amp;D&lt;/a&gt;".
Proof. reflexivity. Qed.

Example slugify_ex : slugify "src/my file.js" = "src-my-file-js".
Proof. reflexivity. Qed.

Lemma escapeHtml_injective_witness : "a<b" = "a<b".
Proof. apply (escapeHtml_injective "a<b" "a<b"). reflexivity. Defined.

(** Three lines in the Windows manner and a fourth without end. *)
Lemma countLines_terminated_witness :
  countLines (terminated (String CR (String LF "")) ["one"; ""; "three"] ++ "four") = 4%nat.
Proof.
  apply (countLines_terminated (String CR (String LF "")) ["one"; ""; "three"] "four").
  - right. now left.
  - repeat constructor; discriminate.
  - repeat constructor; discriminate.
Defined.

End TextExamples.

(** ** Command line *)

Module CliFacts.
Import Cli.

Section ParserFacts.
Context `{Host}.

Ltac refute := cbn; let E := fresh in intros E; discriminate E.

Lemma parseLoop_settled (argv : list string) (n : nat) :
  forall queue args result,
    (length queue <= n)%nat ->
    incl queue argv ->
    settledArgs argv args ->
    parseLoop queue args = Ok result ->
    settledArgs argv result /\ missing (repo result) = false.
Proof.
  induction n as [|n IH]; intros queue args result Hlen Hincl Hargs.
  - destruct queue; [|cbn in Hlen; lia]. cbn [parseLoop].
    destruct (missing (repo args)) eqn:Hr; [refute|].
    intros [= <-]. now split.
  - destruct queue as [|token queue1].
    { cbn [parseLoop]. destruct (missing (repo args)) eqn:Hr; [refute|].
      intros [= <-]. now split. }
    assert (incl queue1 argv) as Hincl1 by (intros x Hx; apply Hincl; now right).
    assert (forall value queue2, queue1 = value :: queue2 ->
              (length queue2 <= n)%nat /\ incl queue2 argv) as Htwo.
    { intros value queue2 ->. split; [cbn in Hlen; lia|].
      intros x Hx. apply Hincl. right. now right. }
    cbn in Hlen. destruct Hargs as (Hrepo & Hsort & Hmax & Hout).
    cbn [parseLoop].
    destruct (_ || _).
    { destruct queue1 as [|value queue2]; [refute|].
      destruct (Htwo _ _ eq_refl) as [Hl2 Hi2].
      destruct value as [|c v]; [refute|]. cbn [missing].
      apply IH; [exact Hl2 | exact Hi2|].
      split; [exact Hrepo|]. split; [exact Hsort|]. split; [exact Hmax|].
      cbn. discriminate. }
    destruct (String.eqb token "--max-bytes").
    { destruct queue1 as [|value queue2]; [refute|].
      destruct (Htwo _ _ eq_refl) as [Hl2 Hi2].
      destruct value as [|c v]; [refute|]. cbn [missing].
      destruct (Number_ _) as [| |z|]; try refute.
      destruct (Z.leb_spec z 0); [refute|].
      apply IH; [exact Hl2 | exact Hi2|].
      split; [exact Hrepo|]. split; [exact Hsort|]. split; [assumption | exact Hout]. }
    destruct (_ || _).
    { destruct (includes token "=").
      - destruct (afterFirstEq token) as [|c v] eqn:Hv; [refute|]. cbn [missing].
        destruct (String.eqb_spec (String c v) "age") as [E|_].
        + cbn [negb andb]. apply IH; [lia | exact Hincl1|].
          split; [exact Hrepo|]. split; [now left|]. split; [exact Hmax | exact Hout].
        + destruct (String.eqb_spec (String c v) "filename") as [E|_]; [|refute].
          cbn [negb andb]. apply IH; [lia | exact Hincl1|].
          split; [exact Hrepo|]. split; [now right|]. split; [exact Hmax | exact Hout].
      - destruct queue1 as [|value queue2]; [refute|].
        destruct (Htwo _ _ eq_refl) as [Hl2 Hi2].
        destruct value as [|c v]; [refute|]. cbn [missing].
        destruct (String.eqb_spec (String c v) "age") as [E|_].
        + cbn [negb andb]. apply IH; [exact Hl2 | exact Hi2|].
          split; [exact Hrepo|]. split; [now left|]. split; [exact Hmax | exact Hout].
        + destruct (String.eqb_spec (String c v) "filename") as [E|_]; [|refute].
          cbn [negb andb]. apply IH; [exact Hl2 | exact Hi2|].
          split; [exact Hrepo|]. split; [now right|]. split; [exact Hmax | exact Hout]. }
    destruct (String.eqb token "--no-open").
    { apply IH; [lia | exact Hincl1|].
      split; [exact Hrepo|]. split; [exact Hsort|]. split; [assumption | exact Hout]. }
    destruct (startsWith token "-") eqn:Hdash; [refute|].
    destruct (missing (repo args)) eqn:Hmiss; [|refute].
    apply IH; [lia | exact Hincl1|].
    split; [|now repeat split].
    cbn. intros r [= <-]. split; [exact Hdash | apply Hincl; now left].
Qed.

(** X14. What [parseArgs] returns without throwing: the repository is
    set, to a non-empty argument that does not start with a dash; the
    sort mode is ["age"] or ["filename"]; the size limit is a positive
    number; the output path, when given, is not empty. *)
Theorem parseArgs_postconditions (argv : list string) (args : Args) :
  parseArgs argv = Ok args ->
  (exists r, repo args = Some r /\ r <> ""
             /\ startsWith r "-" = false /\ In r argv)
  /\ (sort args = "age" \/ sort args = "filename")
  /\ 0 < maxBytes args
  /\ out args <> Some "".
Proof.
  intros Hp.
  destruct (parseLoop_settled argv (length argv) argv
              (mkArgs None None MAX_DEFAULT_BYTES false "age") args
              (le_n _) (incl_refl _))
    as [(Hrepo & Hsort & Hmax & Hout) Hset].
  { split; [intros r; discriminate|]. split; [now left|]. split; [reflexivity | discriminate]. }
  { exact Hp. }
  split; [|now repeat split].
  destruct (repo args) as [r|] eqn:Hr; [|discriminate].
  exists r. split; [reflexivity|]. split; [|now apply Hrepo].
  intros ->. discriminate.
Qed.

Lemma afterFirstEq_sort (v : string) : afterFirstEq ("--sort=" ++ v) = v.
Proof. reflexivity. Qed.

Lemma includes_sort (v : string) : includes ("--sort=" ++ v) "=" = true.
Proof. reflexivity. Qed.

(** X15. The two spellings of the sort option are read alike: at the
    head of the arguments, [--sort=v] and [--sort v] give the same
    result, error or not, whatever [v] and what follows. *)
Theorem parseArgs_sort_spellings (v : string) (rest : list string) :
  parseArgs (("--sort=" ++ v) :: rest) = parseArgs ("--sort" :: v :: rest).
Proof.
  unfold parseArgs. cbn [parseLoop].
  change (String.eqb ("--sort=" ++ v) "-o") with false.
  change (String.eqb ("--sort=" ++ v) "--out") with false.
  change (String.eqb ("--sort=" ++ v) "--max-bytes") with false.
  change (String.eqb "--sort" "-o") with false.
  change (String.eqb "--sort" "--out") with false.
  change (String.eqb "--sort" "--max-bytes") with false.
  change (String.eqb "--sort" "--sort") with true.
  change (includes "--sort" "=") with false.
  change (startsWith ("--sort=" ++ v) "--sort=") with true.
  cbn [orb]. rewrite orb_true_r, includes_sort, afterFirstEq_sort.
  reflexivity.
Qed.

End ParserFacts.

Example parseArgs_ex :
  parseArgs (H := Demo.host) ["--max-bytes"; "100"; "repo"; "--sort=filename"; "--no-open"]
  = Ok (mkArgs (Some "repo") None 100 true "filename").
Proof. reflexivity. Qed.

Example parseArgs_no_repo :
  parseArgs (H := Demo.host) ["-o"; "x.html"]
  = Failed "Repository path or URL is required".
Proof. reflexivity. Qed.

Lemma parseArgs_postconditions_witness :
  (exists r, Some "repo" = Some r /\ r <> ""
             /\ startsWith r "-" = false
             /\ In r ["--max-bytes"; "100"; "repo"; "--sort=filename"])
  /\ ("filename" = "age" \/ "filename" = "filename")
  /\ 0 < 100
  /\ None <> Some "".
Proof.
  apply (parseArgs_postconditions (H := Demo.host)
           ["--max-bytes"; "100"; "repo"; "--sort=filename"]
           (mkArgs (Some "repo") None 100 false "filename")).
  reflexivity.
Defined.

End CliFacts.

(** ** Tracked files and the output path *)

Lemma lacks_cons (c a : ascii) (s : string) :
  lacks c (String a s) <-> a <> c /\ lacks c s.
Proof.
  unfold lacks. cbn [list_ascii_of_string]. split.
  - intros Hl. now inversion Hl.
  - intros [? ?]. now constructor.
Qed.

Lemma split_lacks (c : ascii) (l rest : string) :
  lacks c l -> split c (l ++ String c rest) = l :: split c rest.
Proof.
  induction l as [|a l IH]; intros Hl.
  - change ("" ++ String c rest) with (String c rest). cbn [split].
    now rewrite Ascii.eqb_refl.
  - apply lacks_cons in Hl as [Ha Hl]. rewrite append_cons. cbn [split].
    now rewrite (proj2 (Ascii.eqb_neq a c) Ha), IH.
Qed.

(** X16. The round trip of [git ls-files]: from an output that lists
    paths one to a line, each ended by a line feed, [gitLsFiles] reads
    back exactly these paths, in order, provided none is empty or holds a
    line feed. *)
Theorem gitLsFiles_roundtrip (files : list string) :
  Forall (fun f => f <> "" /\ lacks LF f) files ->
  gitLsFiles (terminated (String LF "") files) = files.
Proof.
  intros Hfiles. unfold gitLsFiles. induction Hfiles as [|f files [Hne Hf] _ IH].
  - reflexivity.
  - cbn [terminated]. rewrite append_cons.
    change ("" ++ terminated (String LF "") files) with (terminated (String LF "") files).
    rewrite (split_lacks LF f _ Hf). cbn [List.filter].
    destruct (String.eqb_spec f "") as [->|_]; [contradiction|].
    cbn [negb]. now rewrite IH.
Qed.

(** Every segment [split] makes is free of the separator. *)
Lemma split_segments_lack (c : ascii) (s : string) : Forall (lacks c) (split c s).
Proof.
  induction s as [|a s IH]; [repeat constructor|]. cbn [split].
  destruct (Ascii.eqb_spec a c) as [->|Hne].
  - constructor; [constructor | exact IH].
  - destruct (split c s) as [|h t]; [repeat constructor; assumption|].
    inversion IH; subst. constructor; [|assumption]. now apply lacks_cons.
Qed.

Lemma lacks_substring (c : ascii) (s : string) (n m : nat) :
  lacks c s -> lacks c (substring n m s).
Proof.
  revert n m. induction s as [|a s IH]; intros n m Hs.
  - destruct n, m; constructor.
  - apply lacks_cons in Hs as [Ha Hs]. destruct n as [|n].
    + destruct m as [|m]; [constructor|]. cbn [substring]. apply lacks_cons. split; [exact Ha|].
      now apply IH.
    + cbn [substring]. now apply IH.
Qed.

Lemma lacks_app (c : ascii) (x y : string) : lacks c x -> lacks c y -> lacks c (x ++ y).
Proof.
  intros Hx Hy. induction x as [|a x IH]; [exact Hy|].
  apply lacks_cons in Hx as [Ha Hx]. rewrite append_cons. apply lacks_cons. split; [exact Ha|].
  now apply IH.
Qed.

Lemma lacks_includes (c : ascii) (s : string) :
  lacks c s -> includes s (String c "") = false.
Proof.
  induction s as [|a s IH]; [reflexivity|].
  intros [Ha Hs]%lacks_cons. rewrite includes_cons, (IH Hs). cbn [startsWith].
  rewrite Ascii.eqb_sym, (proj2 (Ascii.eqb_neq a c) Ha). reflexivity.
Qed.

Lemma stripTrailing_sep (c : ascii) (s : string) :
  stripTrailing c (s ++ String c "") = stripTrailing c s.
Proof.
  induction s as [|a s IH].
  - change ("" ++ String c "") with (String c ""). cbn [stripTrailing].
    now rewrite Ascii.eqb_refl.
  - rewrite append_cons. cbn [stripTrailing]. now rewrite IH.
Qed.

Section OutputPathFacts.
Variable tmpdir : string.
Variable pathJoin : string -> string -> string.

Lemma outputName_lacks_slash (repoLabel : string) : lacks slash (outputName repoLabel).
Proof.
  unfold outputName.
  set (segs := split slash (stripTrailing slash repoLabel)).
  assert (lacks slash (List.last segs "")) as Hlast.
  { pose proof (split_segments_lack slash (stripTrailing slash repoLabel)) as Hs.
    fold segs in Hs. clearbody segs.
    induction Hs as [|x l Hx Hl IH]; [constructor|].
    destruct l; [exact Hx | exact IH]. }
  assert (lacks slash (match List.last segs "" with "" => "repo" | b => b end)) as Hbase.
  { destruct (List.last segs "") eqn:E; [|exact Hlast].
    repeat (constructor; [discriminate|]). constructor. }
  destruct (endsWith _ ".git"); [|exact Hbase].
  now apply lacks_substring.
Qed.

(** X17. The output file is put directly into the temporary directory:
    the name [deriveOutputPath] joins to it holds no separator and ends
    in [.html]; and a separator at the end of the repository label
    changes nothing. *)
Theorem deriveOutputPath_in_tmpdir (repoLabel : string) :
  (exists name,
      deriveOutputPath tmpdir pathJoin repoLabel = pathJoin tmpdir (name ++ ".html")
      /\ includes (name ++ ".html") "/" = false)
  /\ deriveOutputPath tmpdir pathJoin (repoLabel ++ "/")
     = deriveOutputPath tmpdir pathJoin repoLabel.
Proof.
  split.
  - exists (outputName repoLabel). split; [reflexivity|].
    apply (lacks_includes slash). apply lacks_app; [apply outputName_lacks_slash|].
    repeat (constructor; [discriminate|]). constructor.
  - unfold deriveOutputPath, outputName.
    change (repoLabel ++ "/") with (repoLabel ++ String slash "").
    now rewrite stripTrailing_sep.
Qed.

End OutputPathFacts.

Module OutputExamples.

Example deriveOutputPath_ex :
  deriveOutputPath "/tmp" (fun a b => a ++ "/" ++ b) "https://github.com/verhovsky/rendergit.git//"
  = "/tmp/rendergit.html".
Proof. reflexivity. Qed.

Lemma gitLsFiles_roundtrip_witness :
  gitLsFiles (terminated (String LF "") ["README.md"; "src/a b.js"])
  = ["README.md"; "src/a b.js"].
Proof.
  apply (gitLsFiles_roundtrip ["README.md"; "src/a b.js"]).
  repeat constructor; discriminate.
Defined.

End OutputExamples.

(** ** The bit view of a binary file *)

Lemma length_append (x y : string) :
  String.length (x ++ y) = (String.length x + String.length y)%nat.
Proof. induction x as [|a x IH]; [reflexivity|]. rewrite append_cons. cbn. now rewrite IH. Qed.

Lemma length_repeatChar (c : ascii) (n : nat) : String.length (repeatChar c n) = n.
Proof. induction n as [|n IH]; [reflexivity|]. cbn. now f_equal. Qed.

Lemma lacks_repeatChar (c d : ascii) (n : nat) : d <> c -> lacks c (repeatChar d n).
Proof.
  intros Hd. induction n as [|n IH]; [constructor|].
  change (repeatChar d (S n)) with (String d (repeatChar d n)). now apply lacks_cons.
Qed.

Lemma length_string_of_list (l : list ascii) :
  String.length (string_of_list_ascii l) = length l.
Proof. induction l as [|a l IH]; [reflexivity|]. cbn. now rewrite IH. Qed.

Lemma lacks_string_of_list (c : ascii) (l : list ascii) :
  Forall (fun a => a <> c) l -> lacks c (string_of_list_ascii l).
Proof.
  induction 1 as [|a l Ha _ IH]; [constructor|].
  cbn [string_of_list_ascii]. now apply lacks_cons.
Qed.

Lemma bytes_segment_ok : forallb (fun n => segment_ok (Z.of_nat n)) (seq 0 256) = true.
Proof. vm_compute. reflexivity. Qed.

Lemma byte_segment (b : Z) :
  isByte b ->
  String.length (padStart 8 "0" (toString2 b)) = 8%nat
  /\ lacks LF (padStart 8 "0" (toString2 b))
  /\ asciiColumn b <> LF.
Proof.
  intros Hb. pose proof bytes_segment_ok as Hall.
  rewrite forallb_forall in Hall.
  specialize (Hall (Z.to_nat b)). rewrite Z2Nat.id in Hall by apply Hb.
  assert (In (Z.to_nat b) (seq 0 256)) as Hin.
  { apply in_seq. unfold isByte in Hb. lia. }
  specialize (Hall Hin). unfold segment_ok in Hall.
  apply andb_true_iff in Hall as [Hall Hc]. apply andb_true_iff in Hall as [Hl Hf].
  apply Nat.eqb_eq in Hl. apply negb_true_iff, Ascii.eqb_neq in Hc.
  repeat split; [exact Hl | | exact Hc].
  unfold lacks. apply List.Forall_forall. intros a Ha.
  rewrite forallb_forall in Hf. specialize (Hf a Ha).
  now apply negb_true_iff, Ascii.eqb_neq in Hf.
Qed.

Lemma join_cons2 (c : ascii) (p q : string) (rest : list string) :
  join c (p :: q :: rest) = p ++ String c (join c (q :: rest)).
Proof. reflexivity. Qed.

(** The length of [n] parts of [k] characters each, joined. *)
Lemma length_join_uniform (c : ascii) (k : nat) (parts : list string) :
  parts <> [] ->
  Forall (fun p => String.length p = k) parts ->
  S (String.length (join c parts)) = (length parts * S k)%nat.
Proof.
  intros Hne Hall. induction Hall as [|p parts Hp Hparts IH]; [contradiction|].
  destruct parts as [|q rest].
  - cbn [join length]. lia.
  - rewrite join_cons2, length_append. cbn [String.length length] in *.
    specialize (IH ltac:(discriminate)). lia.
Qed.

Lemma lacks_join (c d : ascii) (parts : list string) :
  d <> c -> Forall (lacks c) parts -> lacks c (join d parts).
Proof.
  intros Hd Hall. induction Hall as [|p parts Hp Hparts IH]; [constructor|].
  destruct parts as [|q rest]; [exact Hp|].
  rewrite join_cons2. apply lacks_app; [exact Hp|]. now apply lacks_cons.
Qed.

Lemma split_join_lacks (c : ascii) (parts : list string) :
  parts <> [] -> Forall (lacks c) parts -> split c (join c parts) = parts.
Proof.
  intros Hne Hall. induction Hall as [|p parts Hp Hparts IH]; [contradiction|].
  destruct parts as [|q rest].
  - cbn [join]. clear IH Hne Hparts. induction p as [|a p IHp]; [reflexivity|].
    apply lacks_cons in Hp as [Ha Hp]. cbn [split].
    now rewrite (proj2 (Ascii.eqb_neq a c) Ha), (IHp Hp).
  - rewrite join_cons2, (split_lacks c p _ Hp). f_equal. apply IH. discriminate.
Qed.

(** A line of the dump for a chunk of at most [width] bytes. *)
Lemma dumpLine_layout (width : nat) (chunk : list Z) :
  (0 < width)%nat -> (length chunk <= width)%nat -> Forall isByte chunk ->
  String.length (dumpLine width chunk) = (10 * width + 3)%nat
  /\ lacks LF (dumpLine width chunk).
Proof.
  intros Hw Hlen Hbytes. unfold dumpLine.
  set (segs := (map (fun byte => padStart 8 "0" (toString2 byte)) chunk
                ++ repeat "        " (width - length chunk))%list).
  set (col := string_of_list_ascii
                (map asciiColumn chunk)).
  assert (length segs = width) as Hsegs.
  { unfold segs. rewrite length_app, length_map, repeat_length. lia. }
  assert (Forall (fun p => String.length p = 8%nat /\ lacks LF p) segs) as Hall.
  { unfold segs. apply Forall_app. split.
    - apply List.Forall_forall. intros p Hp. apply in_map_iff in Hp as (b & <- & Hb).
      rewrite List.Forall_forall in Hbytes. destruct (byte_segment b (Hbytes b Hb)) as (? & ? & _).
      now split.
    - apply List.Forall_forall. intros p Hp. apply repeat_spec in Hp as ->.
      split; [reflexivity|]. repeat (constructor; [discriminate|]). constructor. }
  assert (String.length col = length chunk) as Hcol.
  { unfold col. now rewrite length_string_of_list, length_map. }
  assert (lacks LF col) as Hcolfree.
  { unfold col. apply lacks_string_of_list. apply List.Forall_forall. intros a Ha.
    apply in_map_iff in Ha as (b & <- & Hb).
    rewrite List.Forall_forall in Hbytes. now destruct (byte_segment b (Hbytes b Hb)) as (_ & _ & ?). }
  clearbody segs col. split.
  - assert (S (String.length (join " " segs)) = (length segs * 9)%nat) as Hj.
    { apply length_join_uniform.
      - intros ->. cbn in Hsegs. lia.
      - eapply List.Forall_impl; [|exact Hall]. now intros p [? _]. }
    rewrite !length_append. unfold padEnd. rewrite length_append, length_repeatChar.
    cbn [String.length]. lia.
  - apply lacks_app.
    + apply lacks_join; [discriminate|]. eapply List.Forall_impl; [|exact Hall]. now intros p [_ ?].
    + apply lacks_app; [repeat (constructor; [discriminate|]); constructor|].
      apply lacks_app; [|repeat (constructor; [discriminate|]); constructor].
      unfold padEnd. apply lacks_app; [exact Hcolfree|]. now apply lacks_repeatChar.
Qed.

Lemma ceil_step (n width : nat) :
  (0 < width)%nat -> (0 < n)%nat ->
  ((n + width - 1) / width = S ((n - width + width - 1) / width))%nat.
Proof.
  intros Hw Hn. destruct (Nat.le_gt_cases n width) as [Hle|Hgt].
  - replace (n - width + width - 1)%nat with (width - 1)%nat by lia.
    rewrite (Nat.div_small (width - 1)) by lia.
    replace (n + width - 1)%nat with ((n - 1) + 1 * width)%nat by lia.
    rewrite Nat.div_add by lia. rewrite Nat.div_small by lia. reflexivity.
  - replace (n + width - 1)%nat with ((n - width + width - 1) + 1 * width)%nat by lia.
    rewrite Nat.div_add by lia. lia.
Qed.

Lemma dumpLoop_layout (width : nat) (Hw : (0 < width)%nat) (fuel : nat) :
  forall (rest : list Z) (lines : list string),
    (length rest <= fuel)%nat -> Forall isByte rest ->
    exists more,
      dumpLoop fuel width rest lines = Some (lines ++ more)%list
      /\ length more = ((length rest + width - 1) / width)%nat
      /\ Forall (fun l => String.length l = (10 * width + 3)%nat /\ lacks LF l) more.
Proof.
  induction fuel as [|fuel IH]; intros rest lines Hfuel Hbytes.
  - destruct rest; [|cbn in Hfuel; lia]. exists []. cbn [dumpLoop length].
    rewrite app_nil_r. repeat split; [|constructor].
    cbn. symmetry. apply Nat.div_small. lia.
  - destruct rest as [|b rest'] eqn:Erest.
    + exists []. cbn [dumpLoop length]. rewrite app_nil_r. repeat split; [|constructor].
      cbn. symmetry. apply Nat.div_small. lia.
    + rewrite <- Erest in *. 
      assert (dumpLoop (S fuel) width rest lines
              = dumpLoop fuel width (skipn width rest)
                  (lines ++ [dumpLine width (firstn width rest)])%list) as ->.
      { rewrite Erest. reflexivity. }
      assert (0 < length rest)%nat as Hpos by (rewrite Erest; cbn; lia).
      destruct (IH (skipn width rest) (lines ++ [dumpLine width (firstn width rest)])%list)
        as (more & Hrun & Hcount & Hall).
      { rewrite length_skipn. lia. }
      { rewrite <- (firstn_skipn width rest) in Hbytes. now apply Forall_app in Hbytes. }
      exists (dumpLine width (firstn width rest) :: more). split; [|split].
      * rewrite Hrun, <- app_assoc. reflexivity.
      * cbn [length]. rewrite Hcount, length_skipn. symmetry. now apply ceil_step.
      * constructor; [|exact Hall]. apply dumpLine_layout; [exact Hw | |].
        -- rewrite length_firstn. lia.
        -- rewrite <- (firstn_skipn width rest) in Hbytes. now apply Forall_app in Hbytes.
Qed.

(** X18. The layout of the bit view.  For a positive width the dump of a
    buffer of bytes is produced (the loop ends); an empty buffer gives the
    empty string, and a buffer of [n] bytes gives [ceil(n / width)] lines,
    each of exactly [10 * width + 3] characters: the last line is padded
    to the width of the others. *)
Theorem formatBinaryDump_layout (buffer : list Z) (width : nat) :
  (0 < width)%nat ->
  Forall isByte buffer ->
  exists out,
    formatBinaryDump buffer width = Some out
    /\ (buffer = [] -> out = "")
    /\ (buffer <> [] ->
        length (split LF out) = ((length buffer + width - 1) / width)%nat
        /\ Forall (fun l => String.length l = (10 * width + 3)%nat) (split LF out)).
Proof.
  intros Hw Hbytes.
  destruct (dumpLoop_layout width Hw (length buffer) buffer [] (Nat.le_refl _) Hbytes)
    as (lines & Hrun & Hcount & Hall).
  cbn [app] in Hrun. unfold formatBinaryDump. rewrite Hrun.
  exists (join LF lines). split; [reflexivity|]. split.
  - intros ->. cbn in Hcount. rewrite Nat.div_small in Hcount by lia.
    destruct lines; [reflexivity | discriminate].
  - intros Hne. 
    assert (lines <> []) as Hlines.
    { intros ->. cbn [length] in Hcount. destruct buffer as [|b buffer]; [contradiction|].
      rewrite (ceil_step (length (b :: buffer)) width Hw) in Hcount by (cbn; lia).
      discriminate. }
    rewrite split_join_lacks; [| exact Hlines |].
    + split; [exact Hcount|]. eapply List.Forall_impl; [|exact Hall]. now intros l [? _].
    + eapply List.Forall_impl; [|exact Hall]. now intros l [_ ?].
Qed.

(** X19. With width 0 the loop of [formatBinaryDump] never advances: on a
    buffer that is not empty it does not end, whatever the fuel. *)
Theorem dumpLoop_width_zero_diverges (fuel : nat) (rest : list Z) (lines : list string) :
  rest <> [] -> dumpLoop fuel 0 rest lines = None.
Proof.
  intros Hne. revert lines. induction fuel as [|fuel IH]; intros lines.
  - destruct rest; [contradiction | reflexivity].
  - destruct rest as [|b rest']; [contradiction|]. cbn [dumpLoop skipn]. apply IH.
Qed.

Module DumpExamples.

Example formatBinaryDump_ex :
  formatBinaryDump [72; 105; 0] 2
  = Some ("01001000 01101001  |Hi|" ++ String LF "00000000           |. |").
Proof. reflexivity. Qed.

Lemma formatBinaryDump_layout_witness :
  exists out,
    formatBinaryDump [72; 105; 0] 2 = Some out
    /\ ([72; 105; 0] = [] -> out = "")
    /\ ([72; 105; 0] <> [] ->
        length (split LF out) = ((length [72; 105; 0] + 2 - 1) / 2)%nat
        /\ Forall (fun l => String.length l = (10 * 2 + 3)%nat) (split LF out)).
Proof.
  apply (formatBinaryDump_layout [72; 105; 0] 2).
  - lia.
  - repeat constructor; unfold isByte; lia.
Defined.

Lemma dumpLoop_width_zero_diverges_witness :
  dumpLoop 5 0 [72] [] = None.
Proof. apply (dumpLoop_width_zero_diverges 5 [72] []). discriminate. Defined.

End DumpExamples.

(** ** Finding the files *)

Lemma height_bound (entries : list Dirent) (e : Dirent) :
  In e entries ->
  (dirent_height e <= fold_right (fun e d => Nat.max (dirent_height e) d) 0 entries)%nat.
Proof.
  induction entries as [|x entries IH]; [contradiction|].
  intros [->|Hin]; cbn [fold_right]; [lia|]. specialize (IH Hin). lia.
Qed.

Lemma dirent_height_directory (name : string) (listing : option (list Dirent)) :
  dirent_height (Directory name listing) = listing_height listing.
Proof. now destruct listing. Qed.

Section WalkerFacts.
Context `{Host} `{PathModule}.
Variable pathJoin : string -> string -> string.
Variable fs : FileSystem.
Variable isFile : string -> option bool.

Lemma found_yields (current : string) (entries : list Dirent) (p : string) :
  found pathJoin current entries p <-> exists e, In e entries /\ yields pathJoin current e p.
Proof.
  split.
  - intros Hf. destruct Hf as [current entries name Hin | current entries name sub p Hin Hne Hsub].
    + now exists (RegularFile name).
    + now exists (Directory name (Some sub)).
  - intros ([name|name|name|name [sub|]] & Hin & Hy); cbn in Hy; try contradiction.
    + subst p. now apply found_here.
    + destruct Hy as [Hne Hsub]. now apply (found_below _ _ _ name sub).
Qed.

Lemma gather_found (fuel : nat) :
  forall (current : string) (listing : option (list Dirent)) (out : list string) (p : string),
    (listing_height listing <= fuel)%nat ->
    In p (gatherFilesRecursively pathJoin fuel current listing out)
    <-> In p out
        \/ match listing with
           | Some entries => found pathJoin current entries p
           | None => False
           end.
Proof.
  induction fuel as [|fuel IH]; intros current listing out p Hfuel.
  - destruct listing as [entries|]; [cbn in Hfuel; lia|]. cbn. tauto.
  - destruct listing as [entries|]; [|cbn; tauto].
    cbn [gatherFilesRecursively]. rewrite found_yields.
    assert (forall e, In e (sortBy direntCompare entries) -> (dirent_height e <= fuel)%nat)
      as Hbound.
    { intros e He. apply (Permutation_in _ (sortBy_Permutation direntCompare entries)) in He.
      pose proof (height_bound entries e He). cbn in Hfuel. lia. }
    assert ((exists e, In e entries /\ yields pathJoin current e p)
            <-> exists e, In e (sortBy direntCompare entries) /\ yields pathJoin current e p) as ->.
    { split; intros (e & He & Hy); exists e; (split; [|exact Hy]).
      - apply (Permutation_in _ (Permutation_sym (sortBy_Permutation direntCompare entries))), He.
      - apply (Permutation_in _ (sortBy_Permutation direntCompare entries)), He. }
    clear Hfuel. revert out Hbound.
    induction (sortBy direntCompare entries) as [|e l IHl]; intros out Hbound.
    + cbn. split; [tauto|]. intros [?|(e & [] & _)]. assumption.
    + cbn [fold_left]. rewrite IHl by (intros e' He'; apply Hbound; now right).
      assert (In p (match e with
                    | SymbolicLink _ => out
                    | Directory name sub =>
                        if String.eqb name ".git" then out
                        else gatherFilesRecursively pathJoin fuel (pathJoin current name) sub out
                    | RegularFile name => (out ++ [pathJoin current name])%list
                    | OtherEntry _ => out
                    end)
              <-> In p out \/ yields pathJoin current e p) as ->.
      { destruct e as [name|name|name|name sub]; cbn [yields]; try tauto.
        - rewrite in_app_iff. cbn. intuition congruence.
        - destruct (String.eqb_spec name ".git") as [->|Hne].
          + destruct sub; tauto.
          + rewrite IH.
            * destruct sub; tauto.
            * rewrite <- dirent_height_directory with (name := name). apply Hbound. now left. }
      split.
      * intros [[?|Hy]|(e' & He' & Hy)]; [now left | right; exists e; split; [now left|exact Hy] |].
        right. exists e'. split; [now right | exact Hy].
      * intros [?|(e' & [<-|He'] & Hy)]; [now left; left | now left; right |].
        right. now exists e'.
Qed.

(** X20. What the walk of the checkout collects.  Started with an empty
    list, [gatherFilesRecursively] ends up with exactly the paths of the
    regular files that can be reached from the root through readable
    directories not named [.git]: nothing behind a symbolic link, nothing
    inside a [.git] directory at any depth, and no entry that is neither
    file nor directory. *)
Theorem gatherFilesRecursively_found (current : string) (entries : list Dirent) (p : string) :
  In p (gatherFilesRecursively pathJoin (listing_height (Some entries)) current
          (Some entries) [])
  <-> found pathJoin current entries p.
Proof.
  rewrite gather_found by apply Nat.le_refl. cbn [In]. tauto.
Qed.

Lemma decideFile_path (filePath repoRoot : string) (maxBytes : Z) :
  path (decideFile fs filePath repoRoot maxBytes) = filePath.
Proof.
  unfold decideFile. destruct (_ || _); [reflexivity|].
  destruct (_ && _); [reflexivity|]. destruct (looksBinary _ _); reflexivity.
Qed.

Lemma tracked_candidates (repoRoot : string) (paths : list string) :
  forall (candidates : list string) (p : string),
    In p (fold_left
            (fun candidates rel =>
               let full := pathJoin repoRoot rel in
               match isFile full with
               | Some true => (candidates ++ [full])%list
               | _ => candidates
               end) paths candidates)
    <-> In p candidates
        \/ exists rel, In rel paths /\ p = pathJoin repoRoot rel /\ isFile p = Some true.
Proof.
  induction paths as [|rel paths IH]; intros candidates p.
  - cbn. split; [tauto|]. intros [?|(? & [] & _)]. assumption.
  - cbn [fold_left]. rewrite IH. cbv zeta.
    destruct (isFile (pathJoin repoRoot rel)) as [[|]|] eqn:E.
    + rewrite in_app_iff. cbn [In]. split.
      * intros [[?|[<-|[]]]|(r & Hr & Hp)]; [now left | right; exists rel; split; [now left|now split] |].
        right. exists r. split; [now right | exact Hp].
      * intros [?|(r & [<-|Hr] & -> & Hp)]; [now left; left | now left; right; left |].
        right. now exists r.
    + split.
      * intros [?|(r & Hr & Hp)]; [now left|]. right. exists r. split; [now right | exact Hp].
      * intros [?|(r & [<-|Hr] & -> & Hp)]; [now left | congruence |]. right. now exists r.
    + split.
      * intros [?|(r & Hr & Hp)]; [now left|]. right. exists r. split; [now right | exact Hp].
      * intros [?|(r & [<-|Hr] & -> & Hp)]; [now left | congruence |]. right. now exists r.
Qed.

(** X21. The files [collectFiles] decides on.  Without a list of tracked
    files there is a decision for a path exactly when the walk finds it;
    with a list, exactly when it is the path of a listed name for which
    [stat] succeeds and reports a regular file.  A listed name that is
    missing or not a regular file is dropped, and the directory is not
    walked, also when the list is empty. *)
Theorem collectFiles_paths (root : option (list Dirent)) (repoRoot : string)
    (maxBytes : Z) (filePaths : option (list string)) (p : string) :
  In p (map path (collectFiles pathJoin fs isFile root repoRoot maxBytes filePaths))
  <-> match filePaths with
      | None =>
          match root with
          | Some entries => found pathJoin repoRoot entries p
          | None => False
          end
      | Some paths =>
          exists rel, In rel paths /\ p = pathJoin repoRoot rel /\ isFile p = Some true
      end.
Proof.
  unfold collectFiles. rewrite map_map.
  rewrite (map_ext _ (fun file => file)) by (intros; apply decideFile_path).
  rewrite map_id.
  split.
  - intros Hin. apply (Permutation_in _ (sortBy_Permutation _ _)) in Hin.
    destruct filePaths as [paths|].
    + apply tracked_candidates in Hin as [[]|Hin]. exact Hin.
    + apply gather_found in Hin; [|apply Nat.le_refl]. destruct Hin as [[]|Hin]. exact Hin.
  - intros Hp. apply (Permutation_in _ (Permutation_sym (sortBy_Permutation _ _))).
    destruct filePaths as [paths|].
    + apply tracked_candidates. now right.
    + apply gather_found; [apply Nat.le_refl|]. now right.
Qed.

End WalkerFacts.

Module FinderExamples.
Import Demo DemoWalk.

Example gatherFilesRecursively_ex :
  gatherFilesRecursively join2 (listing_height (Some root)) "/repo" (Some root) []
  = ["/repo/a/.git.txt"; "/repo/a/z.js"; "/repo/b.txt"].
Proof. vm_compute. reflexivity. Qed.

End FinderExamples.
